(** * Encrypted overlay networks: the IPsec control plane of the overlay driver

    A shallow embedding of the encryption code of the overlay network
    driver (package [overlay], which the repository carries in
    [client/client_mock_test.go] after the mock client): SPI derivation, the
    SA / SP programming primitives, the per-peer security map with its
    reference count, the key rotation protocol ([updateKeys] /
    [updateNodeKey]), the MTU accounting, the iptables rules of an
    encrypted network and the string forms of keys; and of the mock HTTP
    client of package [client] that opens the file.

    Conventions of the embedding
    - Go [int] and [uint32] values are [Z]; wrap-around is written out where
      the code does arithmetic on stored integers ([int_wrap], [uint32]).
    - A Go slice is a [list]; [nil] and the empty slice are both [[]].  Every
      slice kept in the driver state owns its backing array (it is made by
      [make] in [setupEncryption] and only ever reached through the map entry
      that holds it), so in-place writes are the list updates written here.
    - A Go pointer that may be [nil] is an [option]; the elements of
      [d.keys] are taken not to be [nil].
    - Index and slice expressions that Go checks at run time return [Panic]
      when the check fails.
    - The kernel (netlink handle) is outside the package: it is an arbitrary
      state type [K] with one transition per netlink call, each of which may
      fail.  [log.Warn] / [log.Warnf] lines are kept in a log; [Debugf] lines
      are not modelled.  The requests made to the kernel are recorded in a
      history, which only the statements read.
    - The firewall (package [iptables], [matchVXLAN], [isIPv6Transport])
      and the HTTP and JSON libraries are outside the file as well: the
      firewall is a state type [F] with its operations, the libraries are
      section variables. *)

From Stdlib Require Import ZArith.
From stdpp Require Import gmap strings list fin_maps.

Local Open Scope Z_scope.

(** ** Machine integers and bytes *)

Abbreviation byte := Z (only parsing).

(** Go [int] on the 64-bit platforms the driver is built for. *)
Definition int_wrap (z : Z) : Z := (z + 2 ^ 63) mod 2 ^ 64 - 2 ^ 63.

Definition uint32 (z : Z) : Z := z mod 2 ^ 32.

(** [binary.BigEndian.PutUint32]. *)
Definition PutUint32 (v : Z) : list byte :=
  [ Z.land (Z.shiftr v 24) 255; Z.land (Z.shiftr v 16) 255;
    Z.land (Z.shiftr v 8) 255; Z.land v 255 ].

(** [hash/fnv]: 32-bit FNV-1a, one byte at a time. *)
Definition fnv32a_offset : Z := 2166136261.
Definition fnv32a_prime : Z := 16777619.

Definition fnv32a_write (h : Z) (bs : list byte) : Z :=
  fold_left (fun h c => uint32 (Z.lxor h (Z.land c 255) * fnv32a_prime)) bs h.

(** [binary.BigEndian.Uint32]: the index expression [b[3]] panics on a
    slice shorter than four bytes. *)
Definition Uint32 (b : list byte) : option Z :=
  match b with
  | b0 :: b1 :: b2 :: b3 :: _ =>
      Some (Z.lor (Z.lor (Z.lor b3 (Z.shiftl b2 8)) (Z.shiftl b1 16)) (Z.shiftl b0 24))
  | _ => None
  end.

(** [hash.Hash.Sum] of the 32-bit FNV-1a state [h]: its four bytes, most
    significant first, appended to [b]. *)
Definition fnv32a_Sum (h : Z) (b : list byte) : list byte :=
  b ++ [ Z.land (Z.shiftr h 24) 255; Z.land (Z.shiftr h 16) 255;
         Z.land (Z.shiftr h 8) 255; Z.land h 255 ].

(** ** Run-time outcomes *)

Inductive panic : Type :=
  | IndexOutOfRange (i : Z) (len : nat)
  | SliceBoundsOutOfRange (i : Z) (len : nat)
  | NilDereference.

Inductive result (A : Type) : Type :=
  | Done (a : A)
  | Panic (p : panic).
Arguments Done {A} a.
Arguments Panic {A} p.

(** State-passing computations that may panic. *)
Definition ST (St A : Type) : Type := St -> result (A * St).

Definition ret {St A} (a : A) : ST St A := fun s => Done (a, s).

Definition bind {St A B} (m : ST St A) (k : A -> ST St B) : ST St B :=
  fun s => match m s with
           | Done (a, s') => k a s'
           | Panic p => Panic p
           end.

Definition raise {St A} (p : panic) : ST St A := fun _ => Panic p.
Definition get {St} : ST St St := fun s => Done (s, s).
Definition put {St} (s : St) : ST St unit := fun _ => Done (tt, s).

Notation "x <- m ;; k" := (bind m (fun x => k))
  (at level 100, m at next level, k at level 200, right associativity).
Notation "m ;;; k" := (bind m (fun _ => k))
  (at level 100, k at level 200, right associativity).

(** [for _, x := range l { body }] over a slice. *)
Fixpoint forM_ {St A} (l : list A) (body : A -> ST St unit) : ST St unit :=
  match l with
  | [] => ret tt
  | x :: l' => body x ;;; forM_ l' body
  end.

(** [l[i]] with Go's bounds check. *)
Definition index {St A} (l : list A) (i : Z) : ST St A :=
  if i <? 0 then raise (IndexOutOfRange i (length l))
  else match l !! Z.to_nat i with
       | Some x => ret x
       | None => raise (IndexOutOfRange i (length l))
       end.

(** [append(l[:i], l[i+1:]...)].  [l[:i]] needs [0 <= i <= cap(l)] and is
    evaluated first, [l[i+1:]] needs [i+1 <= len(l)]; as [len(l) <= cap(l)]
    the expression panics exactly when [i] is not an index of [l]. *)
Definition remove_at {St A} (l : list A) (i : Z) : ST St (list A) :=
  if (i <? 0) || (Z.of_nat (length l) <=? i)
  then raise (SliceBoundsOutOfRange i (length l))
  else ret (take (Z.to_nat i) l ++ drop (S (Z.to_nat i)) l).

(** ** Addresses *)

(** [netip.Addr]: the address bytes (none for the zero [Addr], 4 for IPv4,
    16 for IPv6) and the IPv6 zone.  Two values are the same map key exactly
    when both agree. *)
Record Addr : Type := mkAddr { addr_bytes : list byte; addr_zone : string }.

#[global] Instance Addr_eq_dec : EqDecision Addr.
Proof. solve_decision. Defined.

#[global] Instance Addr_countable : Countable Addr.
Proof.
  refine (inj_countable' (fun a => (addr_bytes a, addr_zone a))
                         (fun p => mkAddr p.1 p.2) _).
  by intros [??].
Defined.

(** [net.IP], a byte slice. *)
Abbreviation IP := (list byte) (only parsing).

(** [netip.Addr.AsSlice] (the zone is dropped). *)
Definition AsSlice (a : Addr) : IP := addr_bytes a.

(** [net.IP.To4]: the 4-byte form of an IPv4 or IPv4-mapped IPv6 address,
    otherwise [nil]. *)
Definition To4 (ip : IP) : option IP :=
  if decide (length ip = 4%nat) then Some ip
  else if decide (length ip = 16%nat)
       then if bool_decide (take 12 ip = [0;0;0;0;0;0;0;0;0;0;255;255])
            then Some (drop 12 ip) else None
       else None.

(** getMinimalIP returns the address in its shortest form. *)
Definition getMinimalIP (ip : IP) : IP :=
  match ip with
  | [] => ip
  | _ => match To4 ip with Some ip4 => ip4 | None => ip end
  end.

(** [net.CIDRMask]. *)
Fixpoint CIDRMask_fill (l : nat) (n : Z) : list byte :=
  match l with
  | O => []
  | S l' => if 8 <=? n then 255 :: CIDRMask_fill l' (n - 8)
            else Z.land (Z.lnot (Z.shiftr 255 n)) 255 :: CIDRMask_fill l' 0
  end.

Definition CIDRMask (ones bits : Z) : list byte :=
  if negb ((bits =? 32) || (bits =? 128)) then []
  else if (ones <? 0) || (bits <? ones) then []
  else CIDRMask_fill (Z.to_nat (bits / 8)) ones.

(** ** Keys, SPIs and the peer security map *)

(** Value used to mark outgoing packets which should have our IPsec
    processing applied; also the label of the XFRM states and policies
    programmed by the driver. *)
Definition mark : Z := 0xD0C4E3.

(** SPI(4) + SeqN(4) + IV(8) + PadLength(1) + NextHeader(1) + ICV(8) *)
Definition pktExpansion : Z := 26.

(** [forward = iota + 1], [reverse], [bidir]. *)
Definition forward : Z := 1.
Definition reverse : Z := 2.
Definition bidir : Z := 3.

Record key : Type := mkKey { value : list byte; tag : Z }.

(** Security Parameter Indices for the IPsec flows between local node and a
    remote peer. *)
Record spi : Type := mkSpi { spi_forward : Z; spi_reverse : Z }.

Record encrNode : Type := mkEncrNode { node_spi : list spi; node_count : Z }.

(** The zero value, which a Go map lookup yields for an absent key. *)
Definition encrNode_zero : encrNode := mkEncrNode [] 0.

(** encrMap is a map of node IP addresses to their encryption parameters. *)
Abbreviation encrMap := (gmap Addr encrNode).

#[global] Instance key_eq_dec : EqDecision key.
Proof. solve_decision. Defined.
#[global] Instance spi_eq_dec : EqDecision spi.
Proof. solve_decision. Defined.
#[global] Instance encrNode_eq_dec : EqDecision encrNode.
Proof. solve_decision. Defined.

(** [d.secMap[remoteIP]] as an rvalue. *)
Definition secMap_get (m : encrMap) (a : Addr) : encrNode :=
  default encrNode_zero (m !! a).

Definition buildSPI (src dst : IP) (st : Z) : Z :=
  let b := PutUint32 st in
  let h := fnv32a_offset in
  let h := fnv32a_write h src in
  let h := fnv32a_write h b in
  let h := fnv32a_write h dst in
  h.

(** ** Formatting *)

(** [encoding/hex]: the digit of a nibble, and [hex.EncodeToString]. *)
Definition hextable : string := "0123456789abcdef".

Definition hexdigit (n : Z) : Ascii.ascii :=
  default Ascii.zero (String.get (Z.to_nat n) hextable).

Fixpoint EncodeToString (src : list byte) : string :=
  match src with
  | [] => ""
  | v :: rest =>
      String (hexdigit (Z.shiftr v 4))
        (String (hexdigit (Z.land v 15)) (EncodeToString rest))
  end.

(** The verb [%x] of [fmt] on an unsigned integer of at most [4 * digits]
    bits: the hexadecimal digits, without leading zeros. *)
Fixpoint fmt_x_digits (digits : nat) (v : Z) (acc : string) : string :=
  match digits with
  | O => acc
  | S n =>
      let acc := String (hexdigit (Z.land v 15)) acc in
      if Z.shiftr v 4 =? 0 then acc else fmt_x_digits n (Z.shiftr v 4) acc
  end.

Definition fmt_x_uint32 (v : Z) : string := fmt_x_digits 8 v "".

(** The slice expression [s[lo:hi]] on a string, with Go's bounds check. *)
Definition slice_string (s : string) (lo hi : nat) : result string :=
  if (hi <=? String.length s)%nat && (lo <=? hi)%nat
  then Done (String.substring lo (hi - lo) s)
  else Panic (SliceBoundsOutOfRange (Z.of_nat hi) (String.length s)).

(** [key.String], on a pointer that may be [nil]. *)
Definition key_String (k : option key) : result string :=
  match k with
  | Some k =>
      match slice_string (EncodeToString (value k)) 0 5 with
      | Done h =>
          Done ("(key: " +:+ h +:+ ", tag: 0x" +:+ fmt_x_uint32 (tag k) +:+ ")")
      | Panic p => Panic p
      end
  | None => Done ""
  end.

(** ** Kernel objects (package netlink) *)

Inductive Proto : Type := XFRM_PROTO_ESP | IPPROTO_UDP.
Inductive Mode : Type := XFRM_MODE_TRANSPORT.
Inductive Dir : Type := XFRM_DIR_OUT.

Record XfrmStateAlgo : Type := mkAlgo
  { algo_Name : string; algo_Key : list byte; algo_ICVLen : Z }.

Record XfrmState : Type := mkXfrmState
  { sa_Src : IP; sa_Dst : IP; sa_Proto : Proto; sa_Spi : Z; sa_Mode : Mode;
    sa_Reqid : Z; sa_Aead : option XfrmStateAlgo }.

Record IPNet : Type := mkIPNet { net_IP : IP; net_Mask : list byte }.

Record XfrmMark : Type := mkXfrmMark { mark_Value : Z; mark_Mask : Z }.

Record XfrmPolicyTmpl : Type := mkTmpl
  { tmpl_Src : IP; tmpl_Dst : IP; tmpl_Proto : Proto; tmpl_Mode : Mode;
    tmpl_Spi : Z; tmpl_Reqid : Z }.

Record XfrmPolicy : Type := mkXfrmPolicy
  { sp_Src : IPNet; sp_Dst : IPNet; sp_Dir : Dir; sp_Proto : Proto;
    sp_DstPort : Z; sp_Mark : option XfrmMark; sp_Tmpls : list XfrmPolicyTmpl }.

#[global] Instance Proto_eq_dec : EqDecision Proto.
Proof. solve_decision. Defined.
#[global] Instance Mode_eq_dec : EqDecision Mode.
Proof. solve_decision. Defined.
#[global] Instance Dir_eq_dec : EqDecision Dir.
Proof. solve_decision. Defined.
#[global] Instance XfrmStateAlgo_eq_dec : EqDecision XfrmStateAlgo.
Proof. solve_decision. Defined.
#[global] Instance XfrmState_eq_dec : EqDecision XfrmState.
Proof. solve_decision. Defined.
#[global] Instance IPNet_eq_dec : EqDecision IPNet.
Proof. solve_decision. Defined.
#[global] Instance XfrmMark_eq_dec : EqDecision XfrmMark.
Proof. solve_decision. Defined.
#[global] Instance XfrmPolicyTmpl_eq_dec : EqDecision XfrmPolicyTmpl.
Proof. solve_decision. Defined.
#[global] Instance XfrmPolicy_eq_dec : EqDecision XfrmPolicy.
Proof. solve_decision. Defined.

(** Mark value for matching packets which should have our IPsec security
    policy applied. *)
Definition spMark : XfrmMark := mkXfrmMark mark 0xffffffff.

Inductive errno : Type := ESRCH | ENOENT | EOTHER (code : Z).

#[global] Instance errno_eq_dec : EqDecision errno.
Proof. solve_decision. Defined.

(** The netlink handle [ns.NlHandle()] and [overlayutils.VXLANUDPPort], over
    a kernel state [K].  Every call returns the error the library reports
    ([None] for [nil]) and the kernel state it leaves. *)
Class Netlink (K : Type) : Type := {
  XfrmStateGet : XfrmState -> K -> option errno * K;
  XfrmStateAdd : XfrmState -> K -> option errno * K;
  XfrmStateDel : XfrmState -> K -> option errno * K;
  XfrmStateList : K -> list XfrmState * option errno * K;
  XfrmPolicyGet : XfrmPolicy -> K -> option errno * K;
  XfrmPolicyAdd : XfrmPolicy -> K -> option errno * K;
  XfrmPolicyDel : XfrmPolicy -> K -> option errno * K;
  XfrmPolicyUpdate : XfrmPolicy -> K -> option errno * K;
  XfrmPolicyList : K -> list XfrmPolicy * option errno * K;
  VXLANUDPPort : K -> Z
}.

(** ** Errors and log lines *)

Inductive error : Type :=
  | ErrSAExistence (cause : errno)
      (* "Error while checking for SA existence: %v" *)
  | ErrSPExistence (cause : errno)
      (* "Error while checking for SP existence: %v" *)
  | ForbiddenError (msg : string)
  | InvalidParameter_indices (newIdx priIdx delIdx : Z)
      (* "cannot find proper key indices while processing key update:
          (newIdx,priIdx,delIdx):(%d, %d, %d)" *)
  | InvalidParameter_primary_and_delete (priIdx : Z)
      (* "attempting to both make a key (index %d) primary and delete it" *).

(** The errors [types.InvalidParameterErrorf] builds. *)
Definition is_InvalidParameter (e : error) : bool :=
  match e with
  | InvalidParameter_indices _ _ _ | InvalidParameter_primary_and_delete _ => true
  | _ => false
  end.

Inductive sa_label : Type := rSA | fSA.

Inductive logmsg : Type :=
  | Warn (e : error)
  | Warnf_FailedSA (action : string) (which : sa_label) (sa : XfrmState) (e : errno)
  | Warnf_SP (action : string) (sp : XfrmPolicy) (e : errno)
  | Warnf_FailedUpdateSP (sp : XfrmPolicy) (e : errno)
  | Warnf_ListSP (e : errno)
  | Warnf_ListSA (e : errno)
  | Warnf_StaleSP (sp : XfrmPolicy) (e : errno)
  | Warnf_StaleSA (sa : XfrmState) (e : errno).

(** ** The world outside the driver: kernel state and log *)

(** A request to the netlink handle, and the record of one: the request
    with the error it came back with. *)
Inductive nlreq : Type :=
  | ReqStateGet (sa : XfrmState)
  | ReqStateAdd (sa : XfrmState)
  | ReqStateDel (sa : XfrmState)
  | ReqPolicyGet (sp : XfrmPolicy)
  | ReqPolicyAdd (sp : XfrmPolicy)
  | ReqPolicyDel (sp : XfrmPolicy)
  | ReqPolicyUpdate (sp : XfrmPolicy)
  | ReqStateList
  | ReqPolicyList.

Abbreviation nlevent := (nlreq * option errno)%type.

(** The kernel state, the log, and the history of the netlink requests made
    so far.  The history is an observer's record: the driver never reads
    it. *)
Record world (K : Type) : Type := mkWorld
  { kern : K; logs : list logmsg; trace : list nlevent }.
Arguments mkWorld {K} _ _ _.
Arguments kern {K} _.
Arguments logs {K} _.
Arguments trace {K} _.

Section Transforms.
Context {K : Type} {NL : Netlink K}.

(** The netlink call a request stands for. *)
Definition perform (req : nlreq) (k : K) : option errno * K :=
  match req with
  | ReqStateGet sa => XfrmStateGet sa k
  | ReqStateAdd sa => XfrmStateAdd sa k
  | ReqStateDel sa => XfrmStateDel sa k
  | ReqPolicyGet sp => XfrmPolicyGet sp k
  | ReqPolicyAdd sp => XfrmPolicyAdd sp k
  | ReqPolicyDel sp => XfrmPolicyDel sp k
  | ReqPolicyUpdate sp => XfrmPolicyUpdate sp k
  | ReqStateList => let '(_, e, k') := XfrmStateList k in (e, k')
  | ReqPolicyList => let '(_, e, k') := XfrmPolicyList k in (e, k')
  end.

(** A netlink call that returns an error only. *)
Definition nl (req : nlreq) : ST (world K) (option errno) :=
  fun w => let (e, k') := perform req (kern w) in
           Done (e, mkWorld k' (logs w) (trace w ++ [(req, e)])).

(** The two list calls, which also return what they found. *)
Definition nl_StateList : ST (world K) (list XfrmState * option errno) :=
  fun w => let '(l, e, k') := XfrmStateList (kern w) in
           Done ((l, e), mkWorld k' (logs w) (trace w ++ [(ReqStateList, e)])).

Definition nl_PolicyList : ST (world K) (list XfrmPolicy * option errno) :=
  fun w => let '(l, e, k') := XfrmPolicyList (kern w) in
           Done ((l, e), mkWorld k' (logs w) (trace w ++ [(ReqPolicyList, e)])).

(** [overlayutils.VXLANUDPPort()]. *)
Definition vxlanUDPPort : ST (world K) Z :=
  fun w => Done (VXLANUDPPort (kern w), w).

(** [log.G(ctx).Warn] / [Warnf]. *)
Definition log_warn (m : logmsg) : ST (world K) unit :=
  fun w => Done (tt, mkWorld (kern w) (logs w ++ [m]) (trace w)).

Definition saExists (sa : XfrmState) : ST (world K) (bool * option error) :=
  err <- nl (ReqStateGet sa) ;;
  match err with
  | None => ret (true, None)
  | Some ESRCH => ret (false, None)
  | Some e =>
      let err := ErrSAExistence e in
      log_warn (Warn err) ;;; ret (false, Some err)
  end.

Definition spExists (sp : XfrmPolicy) : ST (world K) (bool * option error) :=
  err <- nl (ReqPolicyGet sp) ;;
  match err with
  | None => ret (true, None)
  | Some ENOENT => ret (false, None)
  | Some e =>
      let err := ErrSPExistence e in
      log_warn (Warn err) ;;; ret (false, Some err)
  end.

(** [k] is dereferenced: a [nil] key panics. *)
Definition buildAeadAlgo (k : option key) (s : Z) : ST (world K) XfrmStateAlgo :=
  let salt := PutUint32 (uint32 s) in
  match k with
  | None => raise NilDereference
  | Some k => ret (mkAlgo "rfc4106(gcm(aes))" (value k ++ salt) 64)
  end.

(** The body shared by the two direction blocks of [programSA], which differ
    in the orientation of [Src]/[Dst], the SPI and the label in the log
    line: build the state, attach the AEAD algorithm when adding, check for
    existence, and add or delete when the kernel is not yet as wanted. *)
Definition programSA_block (which : sa_label) (src dst : IP) (spiv : Z)
    (k : option key) (add : bool) (lastErr : option error)
    : ST (world K) (XfrmState * option error) :=
  let action := if add then "Adding" else "Removing" in
  let xfrmProgram := if add then ReqStateAdd else ReqStateDel in
  aead <- (if add then a <- buildAeadAlgo k spiv ;; ret (Some a) else ret None) ;;
  let sa := mkXfrmState src dst XFRM_PROTO_ESP spiv XFRM_MODE_TRANSPORT mark aead in
  x <- saExists sa ;;
  let lastErr := match x.2 with Some e => Some e | None => lastErr end in
  let exists_ := match x.2 with Some _ => negb add | None => x.1 end in
  (if negb (eqb add exists_)
   then err <- nl (xfrmProgram sa) ;;
        match err with
        | Some e => log_warn (Warnf_FailedSA action which sa e)
        | None => ret tt
        end
   else ret tt) ;;;
  ret (sa, lastErr).

Definition programSA (localIP remoteIP : IP) (s : spi) (k : option key)
    (dir : Z) (add : bool)
    : ST (world K) (option XfrmState * option XfrmState * option error) :=
  let lastErr := None in
  r <- (if Z.land dir reverse >? 0
        then x <- programSA_block rSA remoteIP localIP (spi_reverse s) k add lastErr ;;
             ret (Some x.1, x.2)
        else ret (None, lastErr)) ;;
  let rSAp := r.1 in
  let lastErr := r.2 in
  f <- (if Z.land dir forward >? 0
        then x <- programSA_block fSA localIP remoteIP (spi_forward s) k add lastErr ;;
             ret (Some x.1, x.2)
        else ret (None, lastErr)) ;;
  let fSAp := f.1 in
  let lastErr := f.2 in
  ret (fSAp, rSAp, lastErr).

(** The outbound policy built by [programSP] and, with the same fields, by
    the pivot of [updateNodeKey]. *)
Definition outboundPolicy (port : Z) (fsa : XfrmState) : XfrmPolicy :=
  let s := getMinimalIP (sa_Src fsa) in
  let d := getMinimalIP (sa_Dst fsa) in
  let fullMask := CIDRMask (8 * Z.of_nat (length s)) (8 * Z.of_nat (length s)) in
  mkXfrmPolicy (mkIPNet s fullMask) (mkIPNet d fullMask) XFRM_DIR_OUT IPPROTO_UDP
    port (Some spMark)
    [ mkTmpl (sa_Src fsa) (sa_Dst fsa) XFRM_PROTO_ESP XFRM_MODE_TRANSPORT
        (sa_Spi fsa) mark ].

(** [fSA] is dereferenced; [rSA] is not used. *)
Definition programSP (fSAp rSAp : option XfrmState) (add : bool)
    : ST (world K) (option error) :=
  let action := if add then "Adding" else "Removing" in
  let xfrmProgram := if add then ReqPolicyAdd else ReqPolicyDel in
  match fSAp with
  | None => raise NilDereference
  | Some fsa =>
      port <- vxlanUDPPort ;;
      let fPol := outboundPolicy port fsa in
      x <- spExists fPol ;;
      let exists_ := match x.2 with Some _ => negb add | None => x.1 end in
      (if negb (eqb add exists_)
       then err <- nl (xfrmProgram fPol) ;;
            match err with
            | Some e => log_warn (Warnf_SP action fPol e)
            | None => ret tt
            end
       else ret tt) ;;;
      ret None
  end.

(** Spis and keys are sorted in such away the one in position 0 is the
    primary. *)
Definition updateNodeKey (lIP aIP rIP : IP) (idxs : list spi)
    (curKeys : list key) (newIdx priIdx delIdx : Z) : ST (world K) (list spi) :=
  let spis := idxs in
  (* add new *)
  spis <- (if negb (newIdx =? -1)
           then k <- index curKeys newIdx ;;
                ret (spis ++ [ mkSpi (buildSPI aIP rIP (tag k))
                                     (buildSPI rIP aIP (tag k)) ])
           else ret spis) ;;
  (if negb (delIdx =? -1)
   then (* -rSA0 *)
        s <- index spis delIdx ;;
        programSA lIP rIP s None reverse false ;;; ret tt
   else ret tt) ;;;
  (if newIdx >? -1
   then (* +rSA2 *)
        s <- index spis newIdx ;;
        k <- index curKeys newIdx ;;
        programSA lIP rIP s (Some k) reverse true ;;; ret tt
   else ret tt) ;;;
  (if priIdx >? 0
   then (* +fSA2 *)
        s <- index spis priIdx ;;
        k <- index curKeys priIdx ;;
        r <- programSA lIP rIP s (Some k) forward true ;;
        match r.1.1 with
        | None => raise NilDereference
        | Some fSA2 =>
            (* +fSP2, -fSP1 *)
            port <- vxlanUDPPort ;;
            let fSP1 := outboundPolicy port fSA2 in
            err <- nl (ReqPolicyUpdate fSP1) ;;
            (match err with
             | Some e => log_warn (Warnf_FailedUpdateSP fSP1 e)
             | None => ret tt
             end) ;;;
            (* -fSA1 *)
            s0 <- index spis 0 ;;
            programSA lIP rIP s0 None forward false ;;; ret tt
        end
   else ret tt) ;;;
  (* swap *)
  spis <- (if priIdx >? 0
           then swp <- index spis 0 ;;
                sp <- index spis priIdx ;;
                ret (<[Z.to_nat priIdx := swp]> (<[0%nat := sp]> spis))
           else ret spis) ;;
  (* prune *)
  spis <- (if negb (delIdx =? -1)
           then let delIdx := if delIdx =? 0 then priIdx else delIdx in
                remove_at spis delIdx
           else ret spis) ;;
  ret spis.

End Transforms.

(** ** The driver *)

(** The fields of [driver] the encryption code uses, with the world it acts
    on.  The mutexes [encrMu] and [mu] only serialise whole calls and have no
    counterpart here. *)
Record driver (K : Type) : Type := mkDriver
  { keys : list key;
    secMap : encrMap;
    bindAddress : Addr;
    advertiseAddress : Addr;
    host : world K }.
Arguments mkDriver {K} _ _ _ _ _.
Arguments keys {K} _.
Arguments secMap {K} _.
Arguments bindAddress {K} _.
Arguments advertiseAddress {K} _.
Arguments host {K} _.

(** The order in which [for k, v := range m] visits a map is not specified
    by Go: any enumeration of the entries, each exactly once. *)
Class MapRange : Type := {
  range : encrMap -> list (Addr * encrNode);
  range_perm : forall m, range m ≡ₚ map_to_list m
}.

(** The enumeration stdpp provides. *)
Definition MapRange_default : MapRange :=
  {| range := map_to_list; range_perm := fun m => reflexivity (map_to_list m) |}.

Record network : Type := mkNetwork { mtu : Z; secure : bool }.

Section MTU.
(** The VXLAN encapsulation overhead, a constant of the package declared
    outside this file. *)
Variable vxlanEncap : Z.

Definition maxMTU (n : network) : Z :=
  let m := 1500 in
  let m := if negb (mtu n =? 0) then mtu n else m in
  let m := int_wrap (m - vxlanEncap) in
  if secure n
  then (* In case of encryption account for the esp packet expansion and
          padding *)
       let m := int_wrap (m - pktExpansion) in
       let m := int_wrap (m - Z.rem m 4) in
       m
  else m.
End MTU.

Section Driver.
Context {K : Type} {NL : Netlink K} {MR : MapRange}.

Definition set_keys (ks : list key) : ST (driver K) unit :=
  fun d => Done (tt, mkDriver ks (secMap d) (bindAddress d) (advertiseAddress d) (host d)).

Definition set_secMap (m : encrMap) : ST (driver K) unit :=
  fun d => Done (tt, mkDriver (keys d) m (bindAddress d) (advertiseAddress d) (host d)).

(** Run a computation on the world of the driver. *)
Definition liftW {A} (m : ST (world K) A) : ST (driver K) A :=
  fun d => match m (host d) with
           | Done (a, w) =>
               Done (a, mkDriver (keys d) (secMap d) (bindAddress d) (advertiseAddress d) w)
           | Panic p => Panic p
           end.

Definition warn_if (err : option error) : ST (world K) unit :=
  match err with
  | Some e => log_warn (Warn e)
  | None => ret tt
  end.

(** The loop of [setupEncryption], from index [i] on. *)
Fixpoint setupEncryption_loop (localIP advIP remoteIP : IP) (i : Z)
    (ks : list key) (indices : list spi) : ST (world K) (list spi) :=
  match ks with
  | [] => ret indices
  | k :: ks' =>
      let spis := mkSpi (buildSPI advIP remoteIP (tag k))
                        (buildSPI remoteIP advIP (tag k)) in
      let dir := if i =? 0 then bidir else reverse in
      r <- programSA localIP remoteIP spis (Some k) dir true ;;
      warn_if r.2 ;;;
      let indices := indices ++ [spis] in
      (if negb (i =? 0)
       then ret tt (* continue *)
       else err <- programSP r.1.1 r.1.2 true ;; warn_if err) ;;;
      setupEncryption_loop localIP advIP remoteIP (i + 1) ks' indices
  end.

(** setupEncryption programs the encryption parameters for secure
    communication between the local node and a remote node. *)
Definition setupEncryption (remoteIP : Addr) : ST (driver K) (option error) :=
  d <- get ;;
  if decide (length (keys d) = 0%nat)
  then ret (Some (ForbiddenError "encryption key is not present"))
  else
    let localIP := bindAddress d in
    let advIP := advertiseAddress d in
    indices <- liftW (setupEncryption_loop (AsSlice localIP) (AsSlice advIP)
                        (AsSlice remoteIP) 0 (keys d) []) ;;
    d <- get ;;
    let node := secMap_get (secMap d) remoteIP in
    let node := mkEncrNode indices (int_wrap (node_count node + 1)) in
    set_secMap (<[remoteIP := node]> (secMap d)) ;;;
    ret None.

(** The loop of [removeEncryption], from index [i] on. *)
Fixpoint removeEncryption_loop (localIP remoteIP : IP) (i : Z)
    (spis : list spi) : ST (world K) unit :=
  match spis with
  | [] => ret tt
  | idxs :: spis' =>
      let dir := if i =? 0 then bidir else reverse in
      r <- programSA localIP remoteIP idxs None dir false ;;
      warn_if r.2 ;;;
      (if negb (i =? 0)
       then ret tt (* continue *)
       else err <- programSP r.1.1 r.1.2 false ;; warn_if err) ;;;
      removeEncryption_loop localIP remoteIP (i + 1) spis'
  end.

Definition removeEncryption (remoteIP : Addr) : ST (driver K) (option error) :=
  d <- get ;;
  let node := secMap_get (secMap d) remoteIP in
  spis <- (if node_count node =? 1
           then set_secMap (delete remoteIP (secMap d)) ;;; ret (node_spi node)
           else
             let node := mkEncrNode (node_spi node) (int_wrap (node_count node - 1)) in
             set_secMap (<[remoteIP := node]> (secMap d)) ;;; ret []) ;;
  liftW (removeEncryption_loop (AsSlice (bindAddress d)) (AsSlice remoteIP) 0 spis) ;;;
  ret None.

Definition clearEncryptionStates : ST (world K) unit :=
  sps <- nl_PolicyList ;;
  (match sps.2 with Some e => log_warn (Warnf_ListSP e) | None => ret tt end) ;;;
  sas <- nl_StateList ;;
  (match sas.2 with Some e => log_warn (Warnf_ListSA e) | None => ret tt end) ;;;
  forM_ sps.1 (fun sp =>
    match sp_Mark sp with
    | Some m =>
        if mark_Value m =? mark_Value spMark
        then err <- nl (ReqPolicyDel sp) ;;
             match err with
             | Some e => log_warn (Warnf_StaleSP sp e)
             | None => ret tt
             end
        else ret tt
    | None => ret tt
    end) ;;;
  forM_ sas.1 (fun sa =>
    if sa_Reqid sa =? mark
    then err <- nl (ReqStateDel sa) ;;
         match err with
         | Some e => log_warn (Warnf_StaleSA sa e)
         | None => ret tt
         end
    else ret tt).

Definition setKeys (ks : list key) : ST (driver K) (option error) :=
  (* Remove any stale policy, state *)
  liftW clearEncryptionStates ;;;
  (* Accept the encryption keys and clear any stale encryption map *)
  set_secMap ∅ ;;;
  set_keys ks ;;;
  ret None.

(** The loop of [updateKeys] that looks the primary and the pruned key up by
    tag, from index [i] on. *)
Fixpoint updateKeys_scan (primary pruneKey : option key) (i : Z)
    (ks : list key) (priIdx delIdx : Z) : Z * Z :=
  match ks with
  | [] => (priIdx, delIdx)
  | k :: ks' =>
      let priIdx := match primary with
                    | Some p => if tag k =? tag p then i else priIdx
                    | None => priIdx
                    end in
      let delIdx := match pruneKey with
                    | Some p => if tag k =? tag p then i else delIdx
                    | None => delIdx
                    end in
      updateKeys_scan primary pruneKey (i + 1) ks' priIdx delIdx
  end.

(** The body of the loop of [updateKeys] over the peers.  Each peer's entry
    is read and written by its own iteration only, so the node the loop
    variable holds is the one in the map.  [idxs != nil] is [idxs] not being
    empty: with the indices [updateKeys] passes, an empty result comes from
    an empty sequence only (lemma [updateNodeKey_empty]), and then the entry
    that is not written holds what would have been written. *)
Definition updateKeys_peer (lIP aIP : Addr) (newIdx priIdx delIdx : Z)
    (e : Addr * encrNode) : ST (driver K) unit :=
  let rIP := e.1 in
  let node := e.2 in
  d <- get ;;
  idxs <- liftW (updateNodeKey (AsSlice lIP) (AsSlice aIP) (AsSlice rIP)
                   (node_spi node) (keys d) newIdx priIdx delIdx) ;;
  match idxs with
  | [] => ret tt
  | _ => set_secMap (<[rIP := mkEncrNode idxs (node_count node)]> (secMap d))
  end.

(** updateKeys allows to add a new key and/or change the primary key and/or
    prune an existing key.  The primary key is the key used in transmission
    and will go in first position in the list. *)
Definition updateKeys (newKey primary pruneKey : option key)
    : ST (driver K) (option error) :=
  d <- get ;;
  let newIdx := -1 in
  let lIP := bindAddress d in
  let aIP := advertiseAddress d in
  (* add new *)
  newIdx <- (match newKey with
             | Some nk =>
                 let ks := keys d ++ [nk] in
                 set_keys ks ;;; ret (newIdx + Z.of_nat (length ks))
             | None => ret newIdx
             end) ;;
  d <- get ;;
  let idx := updateKeys_scan primary pruneKey 0 (keys d) (-1) (-1) in
  let priIdx := idx.1 in
  let delIdx := idx.2 in
  if (bool_decide (is_Some newKey) && (newIdx =? -1))
     || (bool_decide (is_Some primary) && (priIdx =? -1))
     || (bool_decide (is_Some pruneKey) && (delIdx =? -1))
  then ret (Some (InvalidParameter_indices newIdx priIdx delIdx))
  else if negb (priIdx =? -1) && (priIdx =? delIdx)
  then ret (Some (InvalidParameter_primary_and_delete priIdx))
  else
    forM_ (range (secMap d)) (updateKeys_peer lIP aIP newIdx priIdx delIdx) ;;;
    (* swap primary *)
    (if negb (priIdx =? -1)
     then d <- get ;;
          kp <- index (keys d) priIdx ;;
          k0 <- index (keys d) 0 ;;
          set_keys (<[Z.to_nat priIdx := k0]> (<[0%nat := kp]> (keys d)))
     else ret tt) ;;;
    (* prune *)
    (if negb (delIdx =? -1)
     then let delIdx := if delIdx =? 0 then priIdx else delIdx in
          d <- get ;;
          ks <- remove_at (keys d) delIdx ;;
          set_keys ks
     else ret tt) ;;;
    ret None.

End Driver.

(** ** The iptables rules of an encrypted network

    Package [iptables], [matchVXLAN] and [driver.isIPv6Transport] are
    outside the file: the firewall is an arbitrary state [F] on which a
    rule operation may fail, and the calls made are recorded. *)

(** Package [iptables], as far as the driver uses it. *)
Module iptables.

Inductive IPVersion : Type := IPv4 | IPv6.
Inductive Table : Type := Filter | Mangle.
Inductive Action : Type := Append | Delete | Insert.

(** The handle [iptables.GetIptable] returns. *)
Record IPTable : Type := mkIPTable { ipVersion : IPVersion }.

Definition GetIptable (version : IPVersion) : IPTable := mkIPTable version.

#[global] Instance IPVersion_eq_dec : EqDecision IPVersion.
Proof. solve_decision. Defined.
#[global] Instance Table_eq_dec : EqDecision Table.
Proof. solve_decision. Defined.

End iptables.

(** One call of [IPTable.ProgramRule]. *)
Record rulecall : Type := mkRulecall
  { call_version : iptables.IPVersion; call_table : iptables.Table;
    call_chain : string; call_action : iptables.Action; call_rule : list string }.

Class Firewall (F Err : Type) : Type := {
  (** [d.isIPv6Transport()] *)
  isIPv6Transport : F -> bool * option Err;
  (** [matchVXLAN(port, vni)] *)
  matchVXLAN : Z -> Z -> list string;
  (** [overlayutils.VXLANUDPPort()] *)
  fw_VXLANUDPPort : F -> Z;
  (** [iptable.ProgramRule(table, chain, action, rule)] *)
  ProgramRule : iptables.IPTable -> iptables.Table -> string -> iptables.Action ->
                list string -> F -> option Err * F
}.

(** The firewall and the record of the calls made to it. *)
Record fwworld (F : Type) : Type := mkFwworld { fw : F; fw_calls : list rulecall }.
Arguments mkFwworld {F} _ _.
Arguments fw {F} _.
Arguments fw_calls {F} _.

(** The errors of the two functions: the error of [isIPv6Transport] as it
    is, or that of [ProgramRule] wrapped by
    [fmt.Errorf("could not %s ...: %w", action, err)]. *)
Inductive fwerror (Err : Type) : Type :=
  | FamilyError (err : Err)
  | CouldNot (action rule : string) (err : Err).
Arguments FamilyError {Err} _.
Arguments CouldNot {Err} _ _ _.

(** [strconv.FormatUint(v, 10)] for a value of at most [digits] digits. *)
Fixpoint FormatUint_10 (digits : nat) (v : Z) (acc : string) : string :=
  match digits with
  | O => acc
  | S n =>
      let acc := String.String (Ascii.ascii_of_N (Z.to_N (48 + v mod 10))) acc in
      if v / 10 =? 0 then acc else FormatUint_10 n (v / 10) acc
  end.

Section Firewall.
Context {F Err : Type} {FW : Firewall F Err}.

Definition programRule (iptable : iptables.IPTable) (table : iptables.Table)
    (chain : string) (action : iptables.Action) (rule : list string)
    : ST (fwworld F) (option Err) :=
  fun w =>
    let (err, f') := ProgramRule iptable table chain action rule (fw w) in
    Done (err, mkFwworld f'
                 (fw_calls w ++ [mkRulecall (iptables.ipVersion iptable) table chain action
                                   rule])).

Definition transportIPTable : ST (fwworld F) (option iptables.IPTable * option Err) :=
  fun w =>
    let (v6, err) := isIPv6Transport (fw w) in
    match err with
    | Some e => Done ((None, Some e), w)
    | None =>
        let version := if v6 then iptables.IPv6 else iptables.IPv4 in
        Done ((Some (iptables.GetIptable version), None), w)
    end.

Definition programMangle (vni : Z) (add : bool) : ST (fwworld F) (option (fwerror Err)) :=
  w <- get ;;
  let m := FormatUint_10 20 mark "" in
  let chain := "OUTPUT" in
  let rule := matchVXLAN (fw_VXLANUDPPort (fw w)) vni ++ ["-j"; "MARK"; "--set-mark"; m] in
  r <- transportIPTable ;;
  match r.2, r.1 with
  | Some err, _ =>
      (* Fail closed if unsure. Better safe than cleartext. *)
      ret (Some (FamilyError err))
  | None, None => raise NilDereference
  | None, Some iptable =>
      let a := if add then iptables.Append else iptables.Delete in
      let action := if add then "install" else "remove" in
      err <- programRule iptable iptables.Mangle chain a rule ;;
      match err with
      | Some e => ret (Some (CouldNot action "mangle rule" e))
      | None => ret None
      end
  end.

Definition programInput (vni : Z) (add : bool) : ST (fwworld F) (option (fwerror Err)) :=
  w <- get ;;
  let plainVxlan := matchVXLAN (fw_VXLANUDPPort (fw w)) vni in
  let chain := "INPUT" in
  let rule (policy jump : string) :=
    (["-m"; "policy"; "--dir"; "in"; "--pol"; policy] ++ plainVxlan) ++ ["-j"; jump] in
  r <- transportIPTable ;;
  match r.2, r.1 with
  | Some err, _ =>
      (* Fail closed if unsure. Better safe than cleartext. *)
      ret (Some (FamilyError err))
  | None, None => raise NilDereference
  | None, Some iptable =>
      let msg := if add then "add" else "remove" in
      let action (a : iptables.Action) := if negb add then iptables.Delete else a in
      (* Drop incoming VXLAN datagrams for the VNI which were received in
         cleartext. *)
      err <- programRule iptable iptables.Filter chain (action iptables.Insert)
               (rule "none" "DROP") ;;
      match err with
      | Some e => ret (Some (CouldNot msg "input drop rule" e))
      | None => ret None
      end
  end.

End Firewall.

(** ** The mock HTTP client (package [client])

    The first part of [client/client_mock_test.go].  Requests, errors, the
    state a doer closes over and the bodies of package [io] are kept
    abstract; [json.Marshal] of an [ErrorResponse] is a parameter. *)

Section MockClient.
(** [*http.Request] and [error] values. *)
Variable Request Err : Type.
(** What a doer closes over. *)
Variable St : Type.
(** [io.ReadCloser] values, with [http.NoBody] and
    [io.NopCloser(bytes.NewReader(b))]. *)
Variable ReadCloser : Type.
Variable NoBody : ReadCloser.
Variable NopCloser_Reader : list byte -> ReadCloser.
(** [json.Marshal(&types.ErrorResponse{Message: message})]. *)
Variable Marshal_ErrorResponse : string -> list byte * option Err.

(** [http.Header]; a [nil] header is the empty map. *)
Definition http_Header : Type := gmap string (list string).

(** The fields of [http.Response] the mocks set; [Body] may be [nil]. *)
Record Response : Type := mkResponse
  { StatusCode : Z; Body : option ReadCloser; Header : http_Header }.

(** transportFunc allows us to inject a mock transport for testing.  The
    response may be [nil]. *)
Definition transportFunc : Type := Request -> ST St (option Response * option Err).

Definition RoundTrip (tf : transportFunc) (req : Request)
    : ST St (option Response * option Err) :=
  tf req.

Definition transportEnsureBody (f : transportFunc) : transportFunc :=
  fun req =>
    r <- f req ;;
    let resp := r.1 in
    let err := r.2 in
    let resp := match resp with
                | Some rs =>
                    match Body rs with
                    | None => Some (mkResponse (StatusCode rs) (Some NoBody) (Header rs))
                    | Some _ => Some rs
                    end
                | None => None
                end in
    ret (resp, err).

(** [http.Client], of which only the transport is set. *)
Record Client : Type := mkClient { Transport : transportFunc }.

Definition newMockClient (doer : Request -> ST St (option Response * option Err))
    : Client :=
  mkClient (transportEnsureBody doer).

(** [[]byte(message)]. *)
Definition bytes_of_string (s : string) : list byte :=
  (fun c => Z.of_N (Ascii.N_of_ascii c)) <$> String.list_ascii_of_string s.

Definition errorMock (statusCode : Z) (message : string) : transportFunc :=
  fun req =>
    let header : http_Header := <["Content-Type" := ["application/json"]]> ∅ in
    let m := Marshal_ErrorResponse message in
    match m.2 with
    | Some err => ret (None, Some err)
    | None =>
        ret (Some (mkResponse statusCode (Some (NopCloser_Reader m.1)) header), None)
    end.

Definition plainTextErrorMock (statusCode : Z) (message : string) : transportFunc :=
  fun req =>
    ret (Some (mkResponse statusCode
                 (Some (NopCloser_Reader (bytes_of_string message))) ∅), None).

End MockClient.

Arguments mkResponse {ReadCloser} _ _ _.
Arguments StatusCode {ReadCloser} _.
Arguments Body {ReadCloser} _.
Arguments Header {ReadCloser} _.
Arguments RoundTrip {Request Err St ReadCloser} _ _ _.
Arguments transportEnsureBody {Request Err St ReadCloser} _ _ _.
Arguments newMockClient {Request Err St ReadCloser} _ _.
Arguments Transport {Request Err St ReadCloser} _ _ _.
Arguments errorMock {Request Err St ReadCloser} _ _ _ _ _ _.
Arguments plainTextErrorMock {Request Err St ReadCloser} _ _ _ _ _.

(** ** A reference kernel

    A small executable kernel on which the driver can be run on concrete
    inputs: it keeps the installed states and policies, and fails the calls
    listed in [sim_faults]. *)

Inductive nlop : Type :=
  | OpStateGet | OpStateAdd | OpStateDel | OpStateList
  | OpPolicyGet | OpPolicyAdd | OpPolicyDel | OpPolicyUpdate | OpPolicyList.

#[global] Instance nlop_eq_dec : EqDecision nlop.
Proof. solve_decision. Defined.

Record SimKernel : Type := mkSim
  { sim_sas : list XfrmState;
    sim_sps : list XfrmPolicy;
    sim_faults : list nlop;
    sim_port : Z }.

(** The kernel finds a state by destination, SPI and protocol, and a policy
    by selector, direction and mark. *)
Definition same_sa (a b : XfrmState) : bool :=
  bool_decide (sa_Dst a = sa_Dst b) && (sa_Spi a =? sa_Spi b)
  && bool_decide (sa_Proto a = sa_Proto b).

Definition same_sp (a b : XfrmPolicy) : bool :=
  bool_decide (sp_Src a = sp_Src b) && bool_decide (sp_Dst a = sp_Dst b)
  && bool_decide (sp_Dir a = sp_Dir b) && bool_decide (sp_Proto a = sp_Proto b)
  && (sp_DstPort a =? sp_DstPort b) && bool_decide (sp_Mark a = sp_Mark b).

Definition EIO : errno := EOTHER 5.
Definition EEXIST : errno := EOTHER 17.

Definition sim_faulty (op : nlop) (k : SimKernel) : bool :=
  bool_decide (op ∈ sim_faults k).

Definition sim_set_sas (k : SimKernel) (l : list XfrmState) : SimKernel :=
  mkSim l (sim_sps k) (sim_faults k) (sim_port k).

Definition sim_set_sps (k : SimKernel) (l : list XfrmPolicy) : SimKernel :=
  mkSim (sim_sas k) l (sim_faults k) (sim_port k).

Definition sim_StateGet (sa : XfrmState) (k : SimKernel) : option errno * SimKernel :=
  if sim_faulty OpStateGet k then (Some EIO, k)
  else if existsb (same_sa sa) (sim_sas k) then (None, k) else (Some ESRCH, k).

Definition sim_StateAdd (sa : XfrmState) (k : SimKernel) : option errno * SimKernel :=
  if sim_faulty OpStateAdd k then (Some EIO, k)
  else if existsb (same_sa sa) (sim_sas k) then (Some EEXIST, k)
  else (None, sim_set_sas k (sim_sas k ++ [sa])).

Definition sim_StateDel (sa : XfrmState) (k : SimKernel) : option errno * SimKernel :=
  if sim_faulty OpStateDel k then (Some EIO, k)
  else if existsb (same_sa sa) (sim_sas k)
       then (None, sim_set_sas k (List.filter (fun x => negb (same_sa sa x)) (sim_sas k)))
       else (Some ESRCH, k).

Definition sim_PolicyGet (sp : XfrmPolicy) (k : SimKernel) : option errno * SimKernel :=
  if sim_faulty OpPolicyGet k then (Some EIO, k)
  else if existsb (same_sp sp) (sim_sps k) then (None, k) else (Some ENOENT, k).

Definition sim_PolicyAdd (sp : XfrmPolicy) (k : SimKernel) : option errno * SimKernel :=
  if sim_faulty OpPolicyAdd k then (Some EIO, k)
  else if existsb (same_sp sp) (sim_sps k) then (Some EEXIST, k)
  else (None, sim_set_sps k (sim_sps k ++ [sp])).

Definition sim_PolicyDel (sp : XfrmPolicy) (k : SimKernel) : option errno * SimKernel :=
  if sim_faulty OpPolicyDel k then (Some EIO, k)
  else if existsb (same_sp sp) (sim_sps k)
       then (None, sim_set_sps k (List.filter (fun x => negb (same_sp sp x)) (sim_sps k)))
       else (Some ENOENT, k).

(** Update replaces the policy with the same selector, or installs it. *)
Definition sim_PolicyUpdate (sp : XfrmPolicy) (k : SimKernel) : option errno * SimKernel :=
  if sim_faulty OpPolicyUpdate k then (Some EIO, k)
  else (None, sim_set_sps k
                (List.filter (fun x => negb (same_sp sp x)) (sim_sps k) ++ [sp])).

#[global] Instance SimKernel_netlink : Netlink SimKernel := {|
  XfrmStateGet := sim_StateGet;
  XfrmStateAdd := sim_StateAdd;
  XfrmStateDel := sim_StateDel;
  XfrmStateList := fun k =>
    if sim_faulty OpStateList k then ([], Some EIO, k) else (sim_sas k, None, k);
  XfrmPolicyGet := sim_PolicyGet;
  XfrmPolicyAdd := sim_PolicyAdd;
  XfrmPolicyDel := sim_PolicyDel;
  XfrmPolicyUpdate := sim_PolicyUpdate;
  XfrmPolicyList := fun k =>
    if sim_faulty OpPolicyList k then ([], Some EIO, k) else (sim_sps k, None, k);
  VXLANUDPPort := sim_port
|}.

(** A node with an empty kernel that fails the calls in [faults], before
    any key was set. *)
Definition sim_boot (faults : list nlop) (bind adv : Addr) : driver SimKernel :=
  mkDriver [] ∅ bind adv (mkWorld (mkSim [] [] faults 4789) [] []).

(** The state a run ended in ([s0] if it panicked). *)
Definition final {St A} (r : result (A * St)) (s0 : St) : St :=
  match r with
  | Done (_, s) => s
  | Panic _ => s0
  end.

(** *** Scenarios *)

Definition node1 : Addr := mkAddr [10; 0; 0; 1] "".
Definition node2 : Addr := mkAddr [10; 0; 0; 2] "".

Definition key1 : key := mkKey [0x10; 0x11; 0x12; 0x13] 1.
Definition key2 : key := mkKey [0x20; 0x21; 0x22; 0x23] 2.
Definition key3 : key := mkKey [0x30; 0x31; 0x32; 0x33] 3.

(** Another key with the tag of [key2]. *)
Definition key2' : key := mkKey [0x2a; 0x2b; 0x2c; 0x2d] 2.

(** [node1] after [setKeys ks], on a kernel that fails [faults]. *)
Definition sim_keyed (faults : list nlop) (ks : list key) : driver SimKernel :=
  final (setKeys ks (sim_boot faults node1 node1))
        (sim_boot faults node1 node1).

(** ... and after [setupEncryption node2]. *)
Definition sim_joined (faults : list nlop) (ks : list key) : driver SimKernel :=
  final (setupEncryption node2 (sim_keyed faults ks))
        (sim_keyed faults ks).

(** ... or instead after a [removeEncryption node2] that no
    [setupEncryption] preceded. *)
Definition sim_stray_remove (ks : list key) : driver SimKernel :=
  final (removeEncryption node2 (sim_keyed [] ks))
        (sim_keyed [] ks).

(** ** A reference firewall

    A firewall that keeps the rules of each chain, the front of the list
    being the top of the chain, and whose address family may be unknown. *)

Record SimFirewall : Type := mkSimFw
  { simfw_family : option bool;
    simfw_rules : list (iptables.IPVersion * iptables.Table * string * list string) }.

#[global] Instance SimFirewall_firewall : Firewall SimFirewall string := {|
  isIPv6Transport := fun f =>
    match simfw_family f with
    | Some v6 => (v6, None)
    | None => (false, Some "the local data-plane address is not currently known")
    end;
  matchVXLAN := fun port vni => ["-p"; "udp"; "--dport"; FormatUint_10 20 port ""];
  fw_VXLANUDPPort := fun _ => 4789;
  ProgramRule := fun t table chain a rule f =>
    let r := (iptables.ipVersion t, table, chain, rule) in
    match a with
    | iptables.Append => (None, mkSimFw (simfw_family f) (simfw_rules f ++ [r]))
    | iptables.Insert => (None, mkSimFw (simfw_family f) (r :: simfw_rules f))
    | iptables.Delete =>
        if bool_decide (r ∈ simfw_rules f)
        then (None, mkSimFw (simfw_family f)
                      (List.filter (fun x => negb (bool_decide (x = r))) (simfw_rules f)))
        else (Some "no such rule", f)
    end
|}.

(** ** Vocabulary of the specification *)

(** [m] never panics, and whatever the state, its value satisfies [P]. *)
Definition returns {St A} (m : ST St A) (P : A -> Prop) : Prop :=
  forall s, exists a s', m s = Done (a, s') /\ P a.

(** The error a call hands back to its caller, if it hands one back. *)
Definition returned_error {A} (r : result (option error * A)) : option error :=
  match r with
  | Done (Some e, _) => Some e
  | _ => None
  end.

(** A call of [programSA] that adds passes a key. *)
Definition key_given (k : option key) (add : bool) : Prop :=
  add = true -> is_Some k.

(** The SpiPair of key [k] for the flows between the advertised address and
    a peer. *)
Definition spiPair (advIP remoteIP : IP) (k : key) : spi :=
  mkSpi (buildSPI advIP remoteIP (tag k)) (buildSPI remoteIP advIP (tag k)).

(** *** Reading the history *)

Definition req_op (req : nlreq) : nlop :=
  match req with
  | ReqStateGet _ => OpStateGet
  | ReqStateAdd _ => OpStateAdd
  | ReqStateDel _ => OpStateDel
  | ReqPolicyGet _ => OpPolicyGet
  | ReqPolicyAdd _ => OpPolicyAdd
  | ReqPolicyDel _ => OpPolicyDel
  | ReqPolicyUpdate _ => OpPolicyUpdate
  | ReqStateList => OpStateList
  | ReqPolicyList => OpPolicyList
  end.

(** The SPIs a request names: that of the state, or those of the templates
    of the policy. *)
Definition req_spis (req : nlreq) : list Z :=
  match req with
  | ReqStateGet sa | ReqStateAdd sa | ReqStateDel sa => [sa_Spi sa]
  | ReqPolicyGet sp | ReqPolicyAdd sp | ReqPolicyDel sp | ReqPolicyUpdate sp =>
      tmpl_Spi <$> sp_Tmpls sp
  | ReqStateList | ReqPolicyList => []
  end.

(** An object the driver looked up in the kernel: a state, by its endpoints
    and SPI, or a policy, by the endpoints and SPI of its template.  Every
    object [programSA] or [programSP] is asked to program is looked up
    first, once. *)
Inductive target : Type :=
  | TState (src dst : IP) (spiv : Z)
  | TPolicy (src dst : IP) (spiv : Z).

Definition lookup_target (ev : nlevent) : option target :=
  match ev.1 with
  | ReqStateGet sa => Some (TState (sa_Src sa) (sa_Dst sa) (sa_Spi sa))
  | ReqPolicyGet sp =>
      match sp_Tmpls sp with
      | [t] => Some (TPolicy (tmpl_Src t) (tmpl_Dst t) (tmpl_Spi t))
      | _ => None
      end
  | _ => None
  end.

(** Whenever [m] returns, the objects it looked up are [xs], in this
    order. *)
Definition looks_up {K St A} (view : St -> world K) (m : ST St A)
    (xs : list target) : Prop :=
  forall s a s', m s = Done (a, s') ->
    omap lookup_target (trace (view s'))
    = omap lookup_target (trace (view s)) ++ xs.

(** The objects to program for a peer, in the words of the specification:
    for the first key the SA of both directions and the outbound SP, for
    every other key the reverse SA. *)
Definition primary_targets (localIP advIP remoteIP : IP) (k : key) : list target :=
  let sp := spiPair advIP remoteIP k in
  [ TState remoteIP localIP (spi_reverse sp);
    TState localIP remoteIP (spi_forward sp);
    TPolicy localIP remoteIP (spi_forward sp) ].

Definition secondary_targets (localIP advIP remoteIP : IP) (k : key) : list target :=
  let sp := spiPair advIP remoteIP k in
  [ TState remoteIP localIP (spi_reverse sp) ].

Definition setup_targets (localIP advIP remoteIP : IP) (ks : list key) : list target :=
  match ks with
  | [] => []
  | k0 :: rest =>
      primary_targets localIP advIP remoteIP k0
      ++ concat (secondary_targets localIP advIP remoteIP <$> rest)
  end.

(** *** Failed kernel operations and the log *)

(** A request that changes the kernel and failed, as the log describes
    it. *)
Inductive failure : Type :=
  | FailedState (action : string) (sa : XfrmState) (e : errno)
  | FailedPolicy (action : string) (sp : XfrmPolicy) (e : errno)
  | FailedUpdate (sp : XfrmPolicy) (e : errno).

(** The failure a recorded request is, if it is one. *)
Definition failure_of_event (ev : nlevent) : option failure :=
  match ev with
  | (ReqStateAdd sa, Some e) => Some (FailedState "Adding" sa e)
  | (ReqStateDel sa, Some e) => Some (FailedState "Removing" sa e)
  | (ReqPolicyAdd sp, Some e) => Some (FailedPolicy "Adding" sp e)
  | (ReqPolicyDel sp, Some e) => Some (FailedPolicy "Removing" sp e)
  | (ReqPolicyUpdate sp, Some e) => Some (FailedUpdate sp e)
  | _ => None
  end.

(** The failure a log line reports, if it reports one. *)
Definition failure_of_line (m : logmsg) : option failure :=
  match m with
  | Warnf_FailedSA action _ sa e => Some (FailedState action sa e)
  | Warnf_SP action sp e => Some (FailedPolicy action sp e)
  | Warnf_FailedUpdateSP sp e => Some (FailedUpdate sp e)
  | Warnf_StaleSA sa e => Some (FailedState "Removing" sa e)
  | Warnf_StaleSP sp e => Some (FailedPolicy "Removing" sp e)
  | _ => None
  end.

(** Whenever [m] returns, the failed changes it requested of the kernel are
    the ones it reported in the log, in the same order.  [view] is the world
    inside the state. *)
Definition audited {K St A} (view : St -> world K) (m : ST St A) : Prop :=
  forall s a s', m s = Done (a, s') ->
    exists fs,
      omap failure_of_event (trace (view s'))
      = omap failure_of_event (trace (view s)) ++ fs
      /\ omap failure_of_line (logs (view s'))
         = omap failure_of_line (logs (view s)) ++ fs.

Section Vocabulary.
Context {K : Type} {NL : Netlink K} {MR : MapRange}.

(** Setting one key up for a peer, in the words of the specification: the
    primary key gets its reverse and its forward SA and the outbound SP, any
    other key its reverse SA only.  Errors of the existence checks are
    logged. *)
Definition setup_key (localIP advIP remoteIP : IP) (primary : bool) (k : key)
    : ST (world K) unit :=
  let sp := spiPair advIP remoteIP k in
  if primary
  then r <- programSA_block rSA remoteIP localIP (spi_reverse sp) (Some k) true None ;;
       f <- programSA_block fSA localIP remoteIP (spi_forward sp) (Some k) true r.2 ;;
       warn_if f.2 ;;;
       err <- programSP (Some f.1) (Some r.1) true ;;
       warn_if err
  else r <- programSA_block rSA remoteIP localIP (spi_reverse sp) (Some k) true None ;;
       warn_if r.2.

Definition setup_plan (localIP advIP remoteIP : IP) (ks : list key)
    : ST (world K) unit :=
  match ks with
  | [] => ret tt
  | k0 :: rest =>
      setup_key localIP advIP remoteIP true k0 ;;;
      forM_ rest (setup_key localIP advIP remoteIP false)
  end.

(** The driver state [setupEncryption] leaves for peer [r] once the kernel
    has been driven to [w]. *)
Definition setup_state (d : driver K) (r : Addr) (w : world K) : driver K :=
  let node := secMap_get (secMap d) r in
  mkDriver (keys d)
    (<[r := mkEncrNode (spiPair (AsSlice (advertiseAddress d)) (AsSlice r) <$> keys d)
                       (int_wrap (node_count node + 1))]> (secMap d))
    (bindAddress d) (advertiseAddress d) w.

(** Every peer has at least one SpiPair per key of the Key Store. *)
Definition covers (d : driver K) : Prop :=
  map_Forall (fun _ n => (length (keys d) <= length (node_spi n))%nat) (secMap d).

(** The PeerState invariant of the data model: [spis[i]] is the SpiPair of
    [keys[i]]. *)
Definition mirrors (d : driver K) : Prop :=
  map_Forall
    (fun r n => node_spi n = spiPair (AsSlice (advertiseAddress d)) (AsSlice r) <$> keys d)
    (secMap d).

(** What a successful [updateKeys(newKey = k)] is specified to leave. *)
Definition key_added (d : driver K) (k : key) : Prop :=
  exists d',
    updateKeys (Some k) None None d = Done (None, d')
    /\ keys d' = keys d ++ [k]
    /\ (keys d' !! length (keys d) = Some k /\ length (keys d) <> 0%nat)
    /\ forall r n, secMap d !! r = Some n ->
         exists n', secMap d' !! r = Some n'
                    /\ length (node_spi n') = S (length (node_spi n)).

(** What a successful [updateKeys(primary = k)] is specified to leave. *)
Definition key_promoted (d : driver K) (k : key) : Prop :=
  exists d',
    updateKeys None (Some k) None d = Done (None, d')
    /\ keys d' !! 0%nat = Some k
    /\ length (keys d') = length (keys d)
    /\ forall r n, secMap d !! r = Some n ->
         exists n', secMap d' !! r = Some n'
                    /\ node_spi n' !! 0%nat
                       = Some (spiPair (AsSlice (advertiseAddress d)) (AsSlice r) k)
                    /\ length (node_spi n') = length (node_spi n).

(** The Key Store and the index of the new key once [updateKeys] has
    appended [newKey]. *)
Definition keys_with (ks : list key) (newKey : option key) : list key :=
  match newKey with
  | Some nk => ks ++ [nk]
  | None => ks
  end.

Definition newIdx_of (ks : list key) (newKey : option key) : Z :=
  match newKey with
  | Some nk => -1 + Z.of_nat (length (ks ++ [nk]))
  | None => -1
  end.

Definition with_keys (d : driver K) (ks : list key) : driver K :=
  mkDriver ks (secMap d) (bindAddress d) (advertiseAddress d) (host d).

(** The two checks [updateKeys] makes on the indices it found. *)
Definition validation (newKey primary pruneKey : option key)
    (newIdx priIdx delIdx : Z) : option error :=
  if (bool_decide (is_Some newKey) && (newIdx =? -1))
     || (bool_decide (is_Some primary) && (priIdx =? -1))
     || (bool_decide (is_Some pruneKey) && (delIdx =? -1))
  then Some (InvalidParameter_indices newIdx priIdx delIdx)
  else if negb (priIdx =? -1) && (priIdx =? delIdx)
  then Some (InvalidParameter_primary_and_delete priIdx)
  else None.

(** What [updateKeys] does once the indices passed the checks. *)
Definition rotate (lIP aIP : Addr) (newIdx priIdx delIdx : Z)
    : ST (driver K) (option error) :=
  d <- get ;;
  forM_ (range (secMap d)) (updateKeys_peer lIP aIP newIdx priIdx delIdx) ;;;
  (if negb (priIdx =? -1)
   then d <- get ;;
        kp <- index (keys d) priIdx ;;
        k0 <- index (keys d) 0 ;;
        set_keys (<[Z.to_nat priIdx := k0]> (<[0%nat := kp]> (keys d)))
   else ret tt) ;;;
  (if negb (delIdx =? -1)
   then let delIdx := if delIdx =? 0 then priIdx else delIdx in
        d <- get ;;
        ks <- remove_at (keys d) delIdx ;;
        set_keys ks
   else ret tt) ;;;
  ret None.

End Vocabulary.

(** ** Vocabulary of the further properties *)

(** *** Requests to the kernel *)

#[global] Instance nlreq_eq_dec : EqDecision nlreq.
Proof. solve_decision. Defined.

(** Whenever [m] returns a value [a], the requests it made to the kernel
    are some [evs] with [Q a evs]. *)
Definition requests {K St A} (view : St -> world K) (m : ST St A)
    (Q : A -> list nlevent -> Prop) : Prop :=
  forall s a s', m s = Done (a, s') ->
    exists evs, trace (view s') = trace (view s) ++ evs /\ Q a evs.

(** Whenever [m] returns, every request it made satisfies [ok]. *)
Definition only_requests {K St A} (view : St -> world K) (m : ST St A)
    (ok : nlreq -> Prop) : Prop :=
  requests view m (fun _ evs => Forall (fun ev : nlevent => ok ev.1) evs).

(** Whether [programSA] / [programSP] request the change once the lookup
    has answered [found]: an addition whenever the lookup failed, a removal
    unless the lookup reported the object [absent]. *)
Definition change_wanted (add : bool) (absent : errno) (found : option errno) : bool :=
  if add then bool_decide (found <> None) else bool_decide (found <> Some absent).

(** The requests made for one object: the lookup, and the change if it is
    wanted. *)
Definition programmed (add : bool) (absent : errno) (get change : nlreq)
    (found : option errno) (evs : list nlevent) : Prop :=
  if change_wanted add absent found
  then exists e, evs = [(get, found); (change, e)]
  else evs = [(get, found)].

(** The error of an existence check whose lookup answered [found]. *)
Definition lookup_error (absent : errno) (wrap : errno -> error)
    (found : option errno) : option error :=
  match found with
  | None => None
  | Some e => if decide (e = absent) then None else Some (wrap e)
  end.

(** The state [programSA] builds for one direction. *)
Definition sa_built (src dst : IP) (spiv : Z) (k : option key) (add : bool)
    : XfrmState :=
  mkXfrmState src dst XFRM_PROTO_ESP spiv XFRM_MODE_TRANSPORT mark
    (if add
     then (fun k => mkAlgo "rfc4106(gcm(aes))" (value k ++ PutUint32 (uint32 spiv)) 64) <$> k
     else None).

(** What [programSA] does for one direction: nothing if the direction is
    not asked for, otherwise the state is built, looked up and programmed.
    [found] is the answer of the lookup, if there was one. *)
Definition sa_requests (add wanted : bool) (src dst : IP) (spiv : Z)
    (k : option key) (sap : option XfrmState) (found : option (option errno))
    (evs : list nlevent) : Prop :=
  if wanted
  then let sa := sa_built src dst spiv k add in
       sap = Some sa
       /\ exists f, found = Some f
            /\ programmed add ESRCH (ReqStateGet sa)
                 (if add then ReqStateAdd sa else ReqStateDel sa) f evs
  else sap = None /\ found = None /\ evs = [].

(** The requests [setupEncryption] makes for one key of a peer.  The
    reverse state, built with the salted key, is looked up and added if the
    lookup failed; for the primary key so are then the forward state and the
    outbound policy on it; and nothing else is requested. *)
Definition key_programmed (localIP advIP remoteIP : IP) (primary : bool)
    (k : key) (evs : list nlevent) : Prop :=
  let s := spiPair advIP remoteIP k in
  let rsa := sa_built remoteIP localIP (spi_reverse s) (Some k) true in
  let fsa := sa_built localIP remoteIP (spi_forward s) (Some k) true in
  exists fr evr,
    programmed true ESRCH (ReqStateGet rsa) (ReqStateAdd rsa) fr evr
    /\ if primary
       then exists ff evf port fp evp,
              programmed true ESRCH (ReqStateGet fsa) (ReqStateAdd fsa) ff evf
              /\ programmed true ENOENT (ReqPolicyGet (outboundPolicy port fsa))
                   (ReqPolicyAdd (outboundPolicy port fsa)) fp evp
              /\ evs = evr ++ evf ++ evp
       else evs = evr.

(** The requests made for the keys [ks], one key after the other; only the
    first can be the primary. *)
Fixpoint keys_programmed (localIP advIP remoteIP : IP) (primary : bool)
    (ks : list key) (evs : list nlevent) : Prop :=
  match ks with
  | [] => evs = []
  | k :: rest =>
      exists e1 e2,
        evs = e1 ++ e2
        /\ key_programmed localIP advIP remoteIP primary k e1
        /\ keys_programmed localIP advIP remoteIP false rest e2
  end.

(** The tests by which [clearEncryptionStates] recognises the policies and
    the states the driver programmed. *)
Definition stale_sp (sp : XfrmPolicy) : bool :=
  match sp_Mark sp with
  | Some m => mark_Value m =? mark_Value spMark
  | None => false
  end.

Definition stale_sa (sa : XfrmState) : bool := sa_Reqid sa =? mark.

(** The object a request names passes them. *)
Definition carries_mark (req : nlreq) : bool :=
  match req with
  | ReqStateGet sa | ReqStateAdd sa | ReqStateDel sa => stale_sa sa
  | ReqPolicyGet sp | ReqPolicyAdd sp | ReqPolicyDel sp | ReqPolicyUpdate sp =>
      stale_sp sp
  | ReqStateList | ReqPolicyList => true
  end.

(** A request for one of the operations [ops], on an object that carries
    the mark. *)
Definition uses (ops : list nlop) (req : nlreq) : Prop :=
  req_op req ∈ ops /\ carries_mark req = true.

(** A request about a state of the flow from the peer to the local node. *)
Definition on_reverse_state (lIP rIP : IP) (req : nlreq) : Prop :=
  match req with
  | ReqStateGet sa | ReqStateAdd sa | ReqStateDel sa =>
      sa_Src sa = rIP /\ sa_Dst sa = lIP
  | _ => False
  end.

(** The objects to take down for a peer with the SpiPairs [spis]: for the
    first pair the SA of both directions and the outbound SP, for every
    other pair the reverse SA. *)
Definition teardown_targets (localIP remoteIP : IP) (spis : list spi) : list target :=
  match spis with
  | [] => []
  | s0 :: rest =>
      [ TState remoteIP localIP (spi_reverse s0);
        TState localIP remoteIP (spi_forward s0);
        TPolicy localIP remoteIP (spi_forward s0) ]
      ++ ((fun s => TState remoteIP localIP (spi_reverse s)) <$> rest)
  end.

(** *** The Peer Security Map and the rotation *)

(** Every entry of the Peer Security Map counts at least one user. *)
Definition well_counted {K} (d : driver K) : Prop :=
  map_Forall (fun _ n => 1 <= node_count n < 2 ^ 63) (secMap d).

(** The elements at [0] and [p] change places. *)
Definition exchanged {A} (l : list A) (p : nat) : list A :=
  match l !! 0%nat, l !! p with
  | Some x0, Some xp => <[p := x0]> (<[0%nat := xp]> l)
  | _, _ => l
  end.

(** A sequence kept in Key Store order after a rotation: the element at
    [priIdx] has changed places with the first, and the element that was at
    [delIdx] is gone (if it was the first one, it has moved to [priIdx]). *)
Definition rotated {A} (l : list A) (priIdx delIdx : Z) : list A :=
  let l := if priIdx >? 0 then exchanged l (Z.to_nat priIdx) else l in
  if delIdx =? -1 then l
  else delete (Z.to_nat (if delIdx =? 0 then priIdx else delIdx)) l.

(** The sequence [updateNodeKey] works on once the SpiPair of the new key,
    if there is one, has been appended. *)
Definition with_new_spi (aIP rIP : IP) (idxs : list spi) (curKeys : list key)
    (newIdx : Z) : list spi :=
  idxs ++ if negb (newIdx =? -1)
          then from_option (fun k => [spiPair aIP rIP k]) []
                 (curKeys !! Z.to_nat newIdx)
          else [].

(** The prefix of an IPv4-mapped IPv6 address. *)
Definition v4InV6Prefix : list byte := [0;0;0;0;0;0;0;0;0;0;255;255].

(** * Proofs *)

(** ** The monad *)

Lemma bind_Done {St A B} (m : ST St A) (k : A -> ST St B) s a s' :
  m s = Done (a, s') -> bind m k s = k a s'.
Proof. intros H. unfold bind. by rewrite H. Qed.

Lemma bind_inv {St A B} (m : ST St A) (k : A -> ST St B) s b s'' :
  bind m k s = Done (b, s'') ->
  exists a s', m s = Done (a, s') /\ k a s' = Done (b, s'').
Proof.
  unfold bind. destruct (m s) as [[a s']|p]; [|discriminate].
  intros H. by exists a, s'.
Qed.

Lemma returns_ret {St A} (a : A) (P : A -> Prop) :
  P a -> returns (St:=St) (ret a) P.
Proof. intros H s. by exists a, s. Qed.

Lemma returns_bind {St A B} (m : ST St A) (k : A -> ST St B) P Q :
  returns m P -> (forall a, P a -> returns (k a) Q) -> returns (bind m k) Q.
Proof.
  intros Hm Hk s. destruct (Hm s) as (a & s1 & E & Ha).
  destruct (Hk a Ha s1) as (b & s2 & E2 & Hb).
  exists b, s2. split; [|done]. by rewrite (bind_Done _ _ _ _ _ E).
Qed.

Lemma index_lookup {St A} (l : list A) (n : nat) (x : A) (s : St) :
  l !! n = Some x -> index l (Z.of_nat n) s = Done (x, s).
Proof.
  intros H. unfold index.
  destruct (Z.ltb_spec (Z.of_nat n) 0) as [?|_]; [lia|].
  by rewrite Nat2Z.id, H.
Qed.

Lemma index_out_of_range {St A} (l : list A) (i : Z) (s : St) :
  i < 0 \/ Z.of_nat (length l) <= i ->
  index l i s = Panic (IndexOutOfRange i (length l)).
Proof.
  intros H. unfold index. destruct (Z.ltb_spec i 0) as [?|Hi]; [done|].
  rewrite lookup_ge_None_2; [done|lia].
Qed.

Lemma index_inv {St A} (l : list A) (i : Z) (s s' : St) x :
  index l i s = Done (x, s') ->
  s' = s /\ 0 <= i < Z.of_nat (length l) /\ l !! Z.to_nat i = Some x.
Proof.
  unfold index. destruct (Z.ltb_spec i 0) as [?|Hi]; [done|].
  destruct (l !! Z.to_nat i) as [y|] eqn:E; [|done].
  intros [= <- <-]. apply lookup_lt_Some in E as Hlt. repeat split; try done; lia.
Qed.

Lemma remove_at_out_of_range {St A} (l : list A) (i : Z) (s : St) :
  i < 0 \/ Z.of_nat (length l) <= i ->
  remove_at l i s = Panic (SliceBoundsOutOfRange i (length l)).
Proof.
  intros H. unfold remove_at.
  destruct (Z.ltb_spec i 0), (Z.leb_spec (Z.of_nat (length l)) i); simpl; try done; lia.
Qed.

Lemma remove_at_inv {St A} (l r : list A) (i : Z) (s s' : St) :
  remove_at l i s = Done (r, s') ->
  s' = s /\ 0 <= i < Z.of_nat (length l) /\ S (length r) = length l.
Proof.
  unfold remove_at.
  destruct (Z.ltb_spec i 0), (Z.leb_spec (Z.of_nat (length l)) i); simpl; try done.
  intros [= <- <-]. repeat split; try lia.
  rewrite length_app, length_take, length_drop. lia.
Qed.

Lemma returns_forM_ {St A} (l : list A) (body : A -> ST St unit) :
  (forall x, x ∈ l -> returns (body x) (fun _ => True)) ->
  returns (forM_ l body) (fun _ => True).
Proof.
  induction l as [|x l IH]; intros H; simpl.
  - by apply returns_ret.
  - eapply returns_bind; [apply H; constructor|].
    intros _ _. apply IH. intros y Hy. apply H. by constructor.
Qed.

Lemma omap_snoc {A B} (f : A -> option B) (l : list A) (x : A) :
  omap f (l ++ [x]) = omap f l ++ match f x with Some y => [y] | None => [] end.
Proof. rewrite omap_app. by destruct (f x) eqn:E; cbn; rewrite E. Qed.

(** ** Machine integers *)

Lemma int_wrap_small (z : Z) : - 2 ^ 63 <= z < 2 ^ 63 -> int_wrap z = z.
Proof. intros H. unfold int_wrap. rewrite Z.mod_small; lia. Qed.

(** ** The transform primitives never panic *)

Create HintDb returns.

Section TransformFacts.
Context {K : Type} {NL : Netlink K}.

Lemma returns_nl (req : nlreq) : returns (nl req) (fun _ => True).
Proof.
  intros w. unfold nl. destruct (perform req (kern w)) as [e k'].
  by eexists _, _.
Qed.

Lemma returns_vxlanUDPPort : returns (vxlanUDPPort (K:=K)) (fun _ => True).
Proof. intros w. by eexists _, _. Qed.

Lemma returns_log_warn (m : logmsg) : returns (log_warn (K:=K) m) (fun _ => True).
Proof. intros w. by eexists _, _. Qed.

Lemma returns_warn_if (e : option error) : returns (warn_if (K:=K) e) (fun _ => True).
Proof. destruct e; simpl; [apply returns_log_warn | by apply returns_ret]. Qed.

Lemma returns_saExists (sa : XfrmState) : returns (saExists sa) (fun _ => True).
Proof.
  unfold saExists. eapply returns_bind; [apply returns_nl|].
  intros [[| |c]|] _; try by apply returns_ret.
  - eapply returns_bind; [apply returns_log_warn|]. intros; by apply returns_ret.
  - eapply returns_bind; [apply returns_log_warn|]. intros; by apply returns_ret.
Qed.

Lemma returns_spExists (sp : XfrmPolicy) : returns (spExists sp) (fun _ => True).
Proof.
  unfold spExists. eapply returns_bind; [apply returns_nl|].
  intros [[| |c]|] _; try by apply returns_ret.
  - eapply returns_bind; [apply returns_log_warn|]. intros; by apply returns_ret.
  - eapply returns_bind; [apply returns_log_warn|]. intros; by apply returns_ret.
Qed.

Lemma returns_programSA_block which src dst spiv k add lastErr :
  key_given k add ->
  returns (programSA_block which src dst spiv k add lastErr)
          (fun x => sa_Src x.1 = src /\ sa_Dst x.1 = dst /\ sa_Spi x.1 = spiv).
Proof.
  intros Hk. unfold programSA_block.
  eapply returns_bind with (P := fun _ => True).
  { destruct add; [|by apply returns_ret].
    destruct (Hk eq_refl) as [k' ->]. simpl.
    eapply returns_bind with (P := fun _ => True); [by apply returns_ret|].
    intros; by apply returns_ret. }
  intros aead _.
  eapply returns_bind; [apply returns_saExists|]. intros x _.
  eapply returns_bind with (P := fun _ => True).
  { destruct (negb _); [|by apply returns_ret].
    eapply returns_bind; [apply returns_nl|].
    intros [e|] _; [apply returns_log_warn | by apply returns_ret]. }
  intros _ _. by apply returns_ret.
Qed.

(** [programSA] hands back the forward state exactly when the forward bit of
    [dir] is set. *)
Lemma returns_programSA localIP remoteIP s k dir add :
  key_given k add ->
  returns (programSA localIP remoteIP s k dir add)
          (fun x => (Z.land dir forward >? 0) = true -> is_Some x.1.1).
Proof.
  intros Hk. unfold programSA.
  eapply returns_bind with (P := fun _ => True).
  { destruct (Z.land dir reverse >? 0); [|by apply returns_ret].
    eapply returns_bind; [apply returns_programSA_block; auto with returns|].
    intros; by apply returns_ret. }
  intros r _.
  eapply returns_bind with (P := fun f => (Z.land dir forward >? 0) = true -> is_Some f.1).
  { destruct (Z.land dir forward >? 0); [|by apply returns_ret].
    eapply returns_bind; [apply returns_programSA_block; auto with returns|].
    intros x _. apply returns_ret. simpl. eauto. }
  intros f Hf. by apply returns_ret.
Qed.

Lemma returns_programSP fSAp rSAp add :
  is_Some fSAp -> returns (programSP fSAp rSAp add) (fun e => e = None).
Proof.
  intros [fsa ->]. unfold programSP.
  eapply returns_bind; [apply returns_vxlanUDPPort|]. intros port _.
  eapply returns_bind; [apply returns_spExists|]. intros x _.
  eapply returns_bind with (P := fun _ => True).
  { destruct (negb _); [|by apply returns_ret].
    eapply returns_bind; [apply returns_nl|].
    intros [e|] _; [apply returns_log_warn | by apply returns_ret]. }
  intros _ _. by apply returns_ret.
Qed.

End TransformFacts.

Lemma key_given_Some (k : key) (add : bool) : key_given (Some k) add.
Proof. intros _. by exists k. Qed.

Lemma key_given_remove (k : option key) : key_given k false.
Proof. intros ?. discriminate. Qed.

#[global] Hint Resolve key_given_Some key_given_remove : returns.

(** ** Setting up and removing a peer *)

Section LifecycleFacts.
Context {K : Type} {NL : Netlink K} {MR : MapRange}.

Lemma programSA_reverse localIP remoteIP s k add (w : world K) :
  programSA localIP remoteIP s k reverse add w
  = (x <- programSA_block rSA remoteIP localIP (spi_reverse s) k add None ;;
     ret (None, Some x.1, x.2)) w.
Proof.
  unfold programSA.
  change (Z.land reverse reverse >? 0) with true.
  change (Z.land reverse forward >? 0) with false.
  cbv beta iota. unfold bind, ret.
  by destruct (programSA_block _ _ _ _ _ _ _ w) as [[x w']|].
Qed.

Lemma programSA_bidir localIP remoteIP s k add (w : world K) :
  programSA localIP remoteIP s k bidir add w
  = (x <- programSA_block rSA remoteIP localIP (spi_reverse s) k add None ;;
     y <- programSA_block fSA localIP remoteIP (spi_forward s) k add x.2 ;;
     ret (Some y.1, Some x.1, y.2)) w.
Proof.
  unfold programSA.
  change (Z.land bidir reverse >? 0) with true.
  change (Z.land bidir forward >? 0) with true.
  cbv beta iota. unfold bind, ret.
  destruct (programSA_block _ _ _ _ _ _ _ w) as [[x w']|]; [|done]. simpl.
  by destruct (programSA_block _ _ _ _ _ _ _ w') as [[y w'']|].
Qed.

Lemma returns_setup_key localIP advIP remoteIP primary k :
  returns (setup_key (K:=K) localIP advIP remoteIP primary k) (fun _ => True).
Proof.
  unfold setup_key. destruct primary.
  - eapply returns_bind; [apply returns_programSA_block; auto with returns|]. intros r _.
    eapply returns_bind; [apply returns_programSA_block; auto with returns|]. intros f _.
    eapply returns_bind; [apply returns_warn_if|]. intros _ _.
    eapply returns_bind; [by apply returns_programSP|]. intros e _.
    apply returns_warn_if.
  - eapply returns_bind; [apply returns_programSA_block; auto with returns|]. intros r _.
    apply returns_warn_if.
Qed.

Lemma returns_setup_plan localIP advIP remoteIP ks :
  returns (setup_plan (K:=K) localIP advIP remoteIP ks) (fun _ => True).
Proof.
  destruct ks as [|k0 rest]; unfold setup_plan; [by apply returns_ret|].
  eapply returns_bind; [apply returns_setup_key|]. intros _ _.
  apply returns_forM_. intros; apply returns_setup_key.
Qed.

(** After the first key the loop programs reverse states only. *)
Lemma setupEncryption_loop_rest localIP advIP remoteIP ks :
  forall i acc (w : world K), 0 < i ->
  setupEncryption_loop localIP advIP remoteIP i ks acc w
  = match forM_ ks (setup_key localIP advIP remoteIP false) w with
    | Done (_, w') => Done (acc ++ (spiPair advIP remoteIP <$> ks), w')
    | Panic p => Panic p
    end.
Proof.
  induction ks as [|k ks IH]; intros i acc w Hi.
  - cbn [setupEncryption_loop forM_ fmap list_fmap]. unfold ret. by rewrite app_nil_r.
  - cbn [setupEncryption_loop forM_ fmap list_fmap].
    destruct (Z.eqb_spec i 0) as [?|_]; [lia|]. cbn [negb].
    unfold bind at 1. rewrite programSA_reverse.
    unfold setup_key at 1. cbn match.
    unfold spiPair at 1. cbn [spi_reverse].
    unfold bind, ret.
    destruct (programSA_block _ _ _ _ _ _ _ w) as [[x w1]|]; [|done].
    cbn [fst snd].
    destruct (warn_if x.2 w1) as [[[] w2]|]; [|done].
    rewrite IH by lia. rewrite <- app_assoc. done.
Qed.

Lemma setupEncryption_loop_plan localIP advIP remoteIP ks (w : world K) :
  setupEncryption_loop localIP advIP remoteIP 0 ks [] w
  = match setup_plan localIP advIP remoteIP ks w with
    | Done (_, w') => Done (spiPair advIP remoteIP <$> ks, w')
    | Panic p => Panic p
    end.
Proof.
  destruct ks as [|k ks]; [done|].
  cbn [setupEncryption_loop setup_plan fmap list_fmap].
  change (0 =? 0) with true. cbn [negb].
  unfold bind at 1. rewrite programSA_bidir.
  unfold setup_key at 1. cbn match.
  unfold spiPair at 1 2. cbn [spi_reverse spi_forward].
  unfold bind, ret.
  destruct (programSA_block _ _ _ _ _ _ _ w) as [[x w1]|]; [|done].
  cbn [fst snd].
  destruct (programSA_block _ _ _ _ _ _ _ w1) as [[y w2]|]; [|done].
  cbn [fst snd].
  destruct (warn_if y.2 w2) as [[[] w3]|]; [|done].
  destruct (programSP _ _ _ w3) as [[e w4]|]; [|done].
  destruct (warn_if e w4) as [[[] w5]|]; [|done].
  rewrite setupEncryption_loop_rest by lia. done.
Qed.


Lemma liftW_Done {A} (m : ST (world K) A) (d : driver K) a w :
  m (host d) = Done (a, w) ->
  liftW m d = Done (a, mkDriver (keys d) (secMap d) (bindAddress d) (advertiseAddress d) w).
Proof. intros E. unfold liftW. by rewrite E. Qed.

Lemma driver_eta (d : driver K) :
  mkDriver (keys d) (secMap d) (bindAddress d) (advertiseAddress d) (host d) = d.
Proof. by destruct d. Qed.

(** What [setupEncryption] does when there is a key: the plan on the
    kernel, then the entry of the peer. *)
Lemma setupEncryption_Done (d : driver K) (r : Addr) :
  keys d <> [] ->
  exists w',
    setup_plan (AsSlice (bindAddress d)) (AsSlice (advertiseAddress d))
      (AsSlice r) (keys d) (host d) = Done (tt, w')
    /\ setupEncryption r d = Done (None, setup_state d r w').
Proof.
  intros Hk.
  destruct (returns_setup_plan (AsSlice (bindAddress d))
              (AsSlice (advertiseAddress d)) (AsSlice r) (keys d) (host d))
    as ([] & w' & Hplan & _).
  exists w'. split; [done|].
  unfold setupEncryption. unfold bind at 1. unfold get at 1.
  destruct (decide (length (keys d) = 0%nat)) as [E|_].
  { destruct (keys d); [done|discriminate]. }
  assert (Hloop : setupEncryption_loop (AsSlice (bindAddress d))
            (AsSlice (advertiseAddress d)) (AsSlice r) 0 (keys d) [] (host d)
          = Done (spiPair (AsSlice (advertiseAddress d)) (AsSlice r) <$> keys d, w')).
  { by rewrite setupEncryption_loop_plan, Hplan. }
  rewrite (bind_Done _ _ _ _ _ (liftW_Done _ _ _ _ Hloop)).
  done.
Qed.

Lemma setupEncryption_no_key (d : driver K) (r : Addr) :
  keys d = [] ->
  setupEncryption r d = Done (Some (ForbiddenError "encryption key is not present"), d).
Proof.
  intros Hk. unfold setupEncryption, bind, get. rewrite Hk. done.
Qed.

Lemma returns_removeEncryption_loop localIP remoteIP spis :
  forall i, returns (removeEncryption_loop (K:=K) localIP remoteIP i spis) (fun _ => True).
Proof.
  induction spis as [|s spis IH]; intros i; cbn [removeEncryption_loop].
  - by apply returns_ret.
  - eapply returns_bind; [apply returns_programSA; auto with returns|].
    intros x Hx.
    eapply returns_bind; [apply returns_warn_if|]. intros _ _.
    eapply returns_bind with (P := fun _ => True); [|intros; apply IH].
    destruct (Z.eqb_spec i 0) as [->|_]; cbn [negb]; [|by apply returns_ret].
    eapply returns_bind; [|intros; apply returns_warn_if].
    apply returns_programSP. by apply Hx.
Qed.

(** The last user of a peer leaves: the entry is deleted and its states and
    policy are removed from the kernel. *)
Lemma removeEncryption_last (d : driver K) (r : Addr) :
  node_count (secMap_get (secMap d) r) = 1 ->
  exists w',
    removeEncryption r d
    = Done (None, mkDriver (keys d) (delete r (secMap d)) (bindAddress d)
                    (advertiseAddress d) w').
Proof.
  intros Hc. unfold removeEncryption. unfold bind at 1. unfold get at 1.
  rewrite Hc. change (1 =? 1) with true. cbv iota.
  set (d1 := mkDriver (keys d) (delete r (secMap d)) (bindAddress d)
              (advertiseAddress d) (host d)).
  assert (E1 : (set_secMap (delete r (secMap d)) ;;;
                ret (node_spi (secMap_get (secMap d) r))) d
               = Done (node_spi (secMap_get (secMap d) r), d1)) by done.
  rewrite (bind_Done _ _ _ _ _ E1).
  destruct (returns_removeEncryption_loop (AsSlice (bindAddress d)) (AsSlice r)
              (node_spi (secMap_get (secMap d) r)) 0 (host d1)) as ([] & w' & E & _).
  exists w'. by rewrite (bind_Done _ _ _ _ _ (liftW_Done _ d1 _ _ E)).
Qed.

(** Any other call only decrements the count: nothing is sent to the
    kernel. *)
Lemma removeEncryption_other (d : driver K) (r : Addr) :
  node_count (secMap_get (secMap d) r) <> 1 ->
  removeEncryption r d
  = Done (None, mkDriver (keys d)
                  (<[r := mkEncrNode (node_spi (secMap_get (secMap d) r))
                            (int_wrap (node_count (secMap_get (secMap d) r) - 1))]>
                     (secMap d))
                  (bindAddress d) (advertiseAddress d) (host d)).
Proof.
  intros Hc. unfold removeEncryption. unfold bind at 1. unfold get at 1.
  destruct (Z.eqb_spec (node_count (secMap_get (secMap d) r)) 1) as [?|_]; [done|].
  done.
Qed.

End LifecycleFacts.

(** ** Rotation: validation *)

Section RotationFacts.
Context {K : Type} {NL : Netlink K} {MR : MapRange}.

(** [updateKeys] is: append, look the indices up, check them, rotate. *)
Lemma updateKeys_eq (newKey primary pruneKey : option key) (d : driver K) :
  updateKeys newKey primary pruneKey d
  = let d1 := with_keys d (keys_with (keys d) newKey) in
    let idx := updateKeys_scan primary pruneKey 0 (keys d1) (-1) (-1) in
    match validation newKey primary pruneKey (newIdx_of (keys d) newKey) idx.1 idx.2 with
    | Some e => Done (Some e, d1)
    | None => rotate (bindAddress d) (advertiseAddress d)
                (newIdx_of (keys d) newKey) idx.1 idx.2 d1
    end.
Proof.
  unfold updateKeys, validation, rotate.
  destruct newKey as [nk|]; cbn [keys_with newIdx_of].
  - unfold bind at 1. unfold get at 1. unfold bind at 1. unfold bind at 1.
    unfold set_keys at 1. unfold ret at 1. unfold bind at 1. unfold get at 1.
    fold (with_keys d (keys d ++ [nk])).
    cbn [keys with_keys bindAddress advertiseAddress secMap].
    repeat match goal with |- context [if ?c then _ else _] =>
      lazymatch c with
      | context [if _ then _ else _] => fail
      | _ => destruct c eqn:?
      end end; try done.
  - unfold bind at 1. unfold get at 1. unfold bind at 1. unfold ret at 1.
    unfold bind at 1. unfold get at 1.
    replace (with_keys d (keys d)) with d by (by destruct d).
    repeat match goal with |- context [if ?c then _ else _] =>
      lazymatch c with
      | context [if _ then _ else _] => fail
      | _ => destruct c eqn:?
      end end; try done.
Qed.

Lemma scan_same (k : key) ks :
  forall i p, (updateKeys_scan (Some k) (Some k) i ks p p).1
              = (updateKeys_scan (Some k) (Some k) i ks p p).2.
Proof.
  induction ks as [|k1 ks IH]; intros i p; cbn [updateKeys_scan]; [done|].
  destruct (tag k1 =? tag k); apply IH.
Qed.

Lemma scan_no_primary pruneKey ks :
  forall i p q, (updateKeys_scan None pruneKey i ks p q).1 = p.
Proof.
  induction ks as [|k1 ks IH]; intros i p q; cbn [updateKeys_scan]; [done|].
  apply IH.
Qed.

Lemma scan_no_prune primary ks :
  forall i p q, (updateKeys_scan primary None i ks p q).2 = q.
Proof.
  induction ks as [|k1 ks IH]; intros i p q; cbn [updateKeys_scan]; [done|].
  apply IH.
Qed.

Lemma scan_primary_absent (k : key) pruneKey ks :
  (forall k', k' ∈ ks -> tag k' <> tag k) ->
  forall i p q, (updateKeys_scan (Some k) pruneKey i ks p q).1 = p.
Proof.
  induction ks as [|k1 ks IH]; intros Hno i p q; cbn [updateKeys_scan]; [done|].
  destruct (Z.eqb_spec (tag k1) (tag k)) as [E|_].
  - exfalso. eapply Hno; [constructor|done].
  - apply IH. intros k' Hk'. apply Hno. by constructor.
Qed.

Lemma scan_prune_absent primary (k : key) ks :
  (forall k', k' ∈ ks -> tag k' <> tag k) ->
  forall i p q, (updateKeys_scan primary (Some k) i ks p q).2 = q.
Proof.
  induction ks as [|k1 ks IH]; intros Hno i p q; cbn [updateKeys_scan]; [done|].
  destruct (Z.eqb_spec (tag k1) (tag k)) as [E|_].
  - exfalso. eapply Hno; [constructor|done].
  - apply IH. intros k' Hk'. apply Hno. by constructor.
Qed.

(** The scan finds the position of a tag that occurs once. *)
Lemma scan_primary_unique (k : key) pruneKey ks :
  forall (n : nat) i p q,
  ks !! n = Some k ->
  (forall m k', ks !! m = Some k' -> tag k' = tag k -> m = n) ->
  (updateKeys_scan (Some k) pruneKey i ks p q).1 = i + Z.of_nat n.
Proof.
  induction ks as [|k1 ks IH]; intros n i p q Hn Hu; [done|].
  cbn [updateKeys_scan]. destruct n as [|n].
  - injection Hn as ->. rewrite Z.eqb_refl.
    rewrite scan_primary_absent; [lia|].
    intros k' Hk' E. apply list_elem_of_lookup in Hk' as [m Hm].
    specialize (Hu (S m) k' Hm E). discriminate.
  - destruct (Z.eqb_spec (tag k1) (tag k)) as [E|_].
    { specialize (Hu 0%nat k1 eq_refl E). discriminate. }
    rewrite (IH n); [lia|done|].
    intros m k' Hm E. specialize (Hu (S m) k' Hm E). lia.
Qed.

Lemma validation_same newKey (k : key) newIdx idx :
  exists e, validation newKey (Some k) (Some k) newIdx idx idx = Some e
            /\ is_InvalidParameter e = true.
Proof.
  unfold validation.
  destruct (Z.eqb_spec idx (-1)) as [->|Hne].
  - assert (E : bool_decide (is_Some (Some k)) && true = true) by done.
    rewrite E, orb_true_r. cbn [orb]. eexists; split; reflexivity.
  - destruct (_ || _ || _); [eexists; split; reflexivity|].
    rewrite Z.eqb_refl. cbn [negb andb]. eexists; split; reflexivity.
Qed.

Lemma returned_error_bind {St A} (m : ST St A) (k : A -> ST St (option error)) s :
  (forall a s', returned_error (k a s') = None) ->
  returned_error (bind m k s) = None.
Proof. intros Hk. unfold bind. destruct (m s) as [[a s']|]; [apply Hk|done]. Qed.

(** Nothing after the checks makes [updateKeys] return an error. *)
Lemma rotate_no_error lIP aIP newIdx priIdx delIdx (d : driver K) :
  returned_error (rotate lIP aIP newIdx priIdx delIdx d) = None.
Proof.
  unfold rotate. do 4 (apply returned_error_bind; intros). done.
Qed.

Lemma updateKeys_returned_error newKey primary pruneKey (d : driver K) :
  returned_error (updateKeys newKey primary pruneKey d)
  = let idx := updateKeys_scan primary pruneKey 0 (keys_with (keys d) newKey) (-1) (-1) in
    validation newKey primary pruneKey (newIdx_of (keys d) newKey) idx.1 idx.2.
Proof.
  rewrite updateKeys_eq. cbv zeta. cbn [with_keys keys].
  destruct (validation _ _ _ _ _ _); [done|apply rotate_no_error].
Qed.

Lemma validation_error_kind newKey primary pruneKey newIdx priIdx delIdx e :
  validation newKey primary pruneKey newIdx priIdx delIdx = Some e ->
  is_InvalidParameter e = true.
Proof.
  unfold validation. destruct (_ || _ || _); [by intros [= <-]|].
  destruct (_ && _); [by intros [= <-]|done].
Qed.

(** A rejected call has touched neither the peers nor the kernel nor the
    log; the Key Store is left with [newKey] appended. *)
Lemma updateKeys_rejected newKey primary pruneKey (d : driver K) e d' :
  updateKeys newKey primary pruneKey d = Done (Some e, d') ->
  is_InvalidParameter e = true
  /\ d' = with_keys d (keys_with (keys d) newKey).
Proof.
  intros Hrun. pose proof (updateKeys_returned_error newKey primary pruneKey d) as He.
  rewrite Hrun in He. cbn [returned_error] in He. cbv zeta in He.
  split; [by eapply validation_error_kind|].
  rewrite updateKeys_eq in Hrun. cbv zeta in Hrun. cbn [with_keys keys] in Hrun.
  rewrite <- He in Hrun. by injection Hrun as <-.
Qed.

Lemma setupEncryption_returned_error (d : driver K) (r : Addr) :
  returned_error (setupEncryption r d)
  = if decide (keys d = [])
    then Some (ForbiddenError "encryption key is not present") else None.
Proof.
  destruct (decide (keys d = [])) as [E|E].
  - by rewrite setupEncryption_no_key.
  - destruct (setupEncryption_Done d r E) as (w' & _ & ->). done.
Qed.

Lemma removeEncryption_returned_error (d : driver K) (r : Addr) :
  returned_error (removeEncryption r d) = None.
Proof.
  unfold removeEncryption. do 3 (apply returned_error_bind; intros). done.
Qed.

End RotationFacts.

(** ** Rotation: one peer *)

Section PeerFacts.
Context {K : Type} {NL : Netlink K}.

Lemma returns_index {St A} (l : list A) (n : nat) (x : A) :
  l !! n = Some x -> returns (St:=St) (index l (Z.of_nat n)) (fun y => y = x).
Proof. intros H s. exists x, s. split; [by apply index_lookup|done]. Qed.

Lemma returns_programSA_any localIP remoteIP s k dir add :
  key_given k add ->
  returns (St:=world K) (programSA localIP remoteIP s k dir add ;;; ret tt) (fun _ => True).
Proof.
  intros Hk. eapply returns_bind; [by apply returns_programSA|].
  intros; by apply returns_ret.
Qed.

(** Adding the key at [curKeys[n]]: its SpiPair is appended, and its reverse
    state is programmed. *)
Lemma updateNodeKey_add lIP aIP rIP idxs curKeys (n : nat) (k : key) :
  curKeys !! n = Some k ->
  (n <= length idxs)%nat ->
  returns (updateNodeKey (K:=K) lIP aIP rIP idxs curKeys (Z.of_nat n) (-1) (-1))
          (fun x => x = idxs ++ [spiPair aIP rIP k]).
Proof.
  intros Hk Hn. unfold updateNodeKey.
  destruct (Z.eqb_spec (Z.of_nat n) (-1)) as [?|_]; [lia|].
  destruct (Z.gtb_spec (Z.of_nat n) (-1)) as [_|?]; [|lia].
  change (-1 =? -1) with true. change (-1 >? 0) with false. cbn [negb].
  eapply returns_bind with (P := fun x => x = idxs ++ [spiPair aIP rIP k]).
  { eapply returns_bind; [by apply returns_index|].
    intros ? ->. by apply returns_ret. }
  intros ? ->.
  eapply returns_bind with (P := fun _ => True); [by apply returns_ret|]. intros _ _.
  eapply returns_bind with (P := fun _ => True).
  { destruct (lookup_lt_is_Some_2 (idxs ++ [spiPair aIP rIP k]) n) as [s Hs].
    { rewrite length_app. simpl. lia. }
    eapply returns_bind; [by apply returns_index|]. intros ? ->.
    eapply returns_bind; [by apply returns_index|]. intros ? ->.
    apply returns_programSA_any. auto with returns. }
  intros _ _.
  eapply returns_bind with (P := fun _ => True); [by apply returns_ret|]. intros _ _.
  eapply returns_bind with (P := fun x => x = idxs ++ [spiPair aIP rIP k]);
    [by apply returns_ret|]. intros ? ->.
  eapply returns_bind with (P := fun x => x = idxs ++ [spiPair aIP rIP k]);
    [by apply returns_ret|]. intros ? ->.
  by apply returns_ret.
Qed.

(** Promoting the key at [curKeys[p]]: its forward state is programmed, the
    policy is updated in place, the old forward state is removed, and the
    SpiPairs at [0] and [p] change places. *)
Lemma updateNodeKey_promote lIP aIP rIP idxs curKeys (p : nat) (kp : key) s0 sp :
  (0 < p)%nat ->
  curKeys !! p = Some kp ->
  idxs !! 0%nat = Some s0 ->
  idxs !! p = Some sp ->
  returns (updateNodeKey (K:=K) lIP aIP rIP idxs curKeys (-1) (Z.of_nat p) (-1))
          (fun x => x = <[p := s0]> (<[0%nat := sp]> idxs)).
Proof.
  intros Hp Hk H0 Hsp. unfold updateNodeKey.
  destruct (Z.gtb_spec (Z.of_nat p) 0) as [_|?]; [|lia].
  change (-1 =? -1) with true. change (-1 >? -1) with false. cbn [negb].
  eapply returns_bind with (P := fun x => x = idxs); [by apply returns_ret|].
  intros ? ->.
  eapply returns_bind with (P := fun _ => True); [by apply returns_ret|]. intros _ _.
  eapply returns_bind with (P := fun _ => True); [by apply returns_ret|]. intros _ _.
  eapply returns_bind with (P := fun _ => True).
  { eapply returns_bind; [by apply returns_index|]. intros ? ->.
    eapply returns_bind; [by apply returns_index|]. intros ? ->.
    eapply returns_bind; [apply returns_programSA; auto with returns|].
    intros r Hr. destruct (Hr eq_refl) as [fSA2 ->].
    eapply returns_bind; [apply returns_vxlanUDPPort|]. intros port _.
    eapply returns_bind; [apply returns_nl|]. intros err _.
    eapply returns_bind with (P := fun _ => True).
    { destruct err; [apply returns_log_warn|by apply returns_ret]. }
    intros _ _.
    eapply returns_bind; [by apply (returns_index _ 0%nat)|]. intros ? ->.
    apply returns_programSA_any. auto with returns. }
  intros _ _.
  eapply returns_bind with (P := fun x => x = <[p := s0]> (<[0%nat := sp]> idxs)).
  { eapply returns_bind; [by apply (returns_index _ 0%nat)|]. intros ? ->.
    eapply returns_bind; [by apply returns_index|]. intros ? ->.
    apply returns_ret. by rewrite Nat2Z.id. }
  intros ? ->.
  eapply returns_bind with (P := fun x => x = <[p := s0]> (<[0%nat := sp]> idxs));
    [by apply returns_ret|]. intros ? ->.
  by apply returns_ret.
Qed.

(** With the indices [updateKeys] passes (not the same key promoted and
    pruned), an empty sequence comes out only if an empty one went in. *)
Lemma updateNodeKey_empty lIP aIP rIP idxs curKeys newIdx priIdx delIdx
    (w w' : world K) :
  priIdx = -1 \/ priIdx <> delIdx ->
  updateNodeKey lIP aIP rIP idxs curKeys newIdx priIdx delIdx w = Done ([], w') ->
  idxs = [].
Proof.
  intros Hval E. unfold updateNodeKey in E.
  apply bind_inv in E as (spis1 & w1 & E1 & E).
  apply bind_inv in E as ([] & w2 & E2 & E).
  apply bind_inv in E as ([] & w3 & _ & E).
  apply bind_inv in E as ([] & w4 & _ & E).
  apply bind_inv in E as (spis2 & w5 & E5 & E).
  apply bind_inv in E as (spis3 & w6 & E6 & E).
  injection E as -> _.
  assert (Hlen1 : (length idxs <= length spis1)%nat).
  { destruct (negb (newIdx =? -1)); [|by injection E1 as <- _].
    apply bind_inv in E1 as (k & ? & _ & E1). injection E1 as <- _.
    rewrite length_app. lia. }
  assert (Hlen2 : length spis2 = length spis1).
  { destruct (priIdx >? 0); [|by injection E5 as <- _].
    apply bind_inv in E5 as (swp & ? & _ & E5).
    apply bind_inv in E5 as (sp & ? & _ & E5). injection E5 as <- _.
    by rewrite !length_insert. }
  destruct (Z.eqb_spec delIdx (-1)) as [Hd|Hd]; cbn [negb] in E2, E6.
  - injection E6 as Hnil _. subst spis2.
    destruct idxs; [done|]. simpl in *. lia.
  - apply remove_at_inv in E6 as (_ & Hrange & Hlen).
    apply bind_inv in E2 as (s & ? & (_ & Hdel & _)%index_inv & _).
    simpl in Hlen. exfalso.
    destruct (Z.eqb_spec delIdx 0) as [->|?]; lia.
Qed.

End PeerFacts.

(** ** Rotation: the loop over the peers *)

Section LoopFacts.
Context {K : Type} {NL : Netlink K} {MR : MapRange}.

Lemma range_NoDup (m : encrMap) : NoDup (range m).*1.
Proof. rewrite range_perm. apply NoDup_fst_map_to_list. Qed.

Lemma elem_of_range (m : encrMap) r n : (r, n) ∈ range m <-> m !! r = Some n.
Proof. rewrite range_perm. apply elem_of_map_to_list. Qed.

Lemma foldl_insert_lookup_notin (g : Addr * encrNode -> encrNode) l :
  forall (m : encrMap) r, r ∉ l.*1 ->
  foldl (fun m e => <[e.1 := g e]> m) m l !! r = m !! r.
Proof.
  induction l as [|e l IH]; intros m r Hr; [done|].
  cbn [foldl]. rewrite IH.
  - apply lookup_insert_ne. intros E. apply Hr. rewrite <- E. cbn. constructor.
  - intros Hin. apply Hr. cbn. by constructor.
Qed.

Lemma foldl_insert_lookup_in (g : Addr * encrNode -> encrNode) l :
  NoDup l.*1 ->
  forall (m : encrMap) r n, (r, n) ∈ l ->
  foldl (fun m e => <[e.1 := g e]> m) m l !! r = Some (g (r, n)).
Proof.
  induction l as [|e l IH]; intros Hnd m r n Hin.
  - by apply elem_of_nil in Hin.
  - cbn in Hnd. apply NoDup_cons in Hnd as [Hhd Hnd].
    apply elem_of_cons in Hin as [<-|Hin]; cbn [foldl].
    + rewrite foldl_insert_lookup_notin by done. apply lookup_insert_eq.
    + by apply IH.
Qed.

Lemma updateKeys_peer_Done lIP aIP ni pi di (e : Addr * encrNode)
    (d : driver K) res :
  res <> [] ->
  returns (updateNodeKey (AsSlice lIP) (AsSlice aIP) (AsSlice e.1)
             (node_spi e.2) (keys d) ni pi di) (fun x => x = res) ->
  exists w',
    updateKeys_peer lIP aIP ni pi di e d
    = Done (tt, mkDriver (keys d)
                  (<[e.1 := mkEncrNode res (node_count e.2)]> (secMap d))
                  (bindAddress d) (advertiseAddress d) w').
Proof.
  intros Hne Hr. destruct (Hr (host d)) as (x & w' & E & ->). exists w'.
  unfold updateKeys_peer. unfold bind at 1. unfold get at 1.
  rewrite (bind_Done _ _ _ _ _ (liftW_Done _ _ _ _ E)).
  by destruct res.
Qed.

Lemma updateKeys_loop_Done lIP aIP ni pi di (f : Addr * encrNode -> list spi) l :
  forall d : driver K,
  (forall e, e ∈ l ->
     f e <> [] /\
     returns (updateNodeKey (AsSlice lIP) (AsSlice aIP) (AsSlice e.1)
                (node_spi e.2) (keys d) ni pi di) (fun x => x = f e)) ->
  exists w',
    forM_ l (updateKeys_peer lIP aIP ni pi di) d
    = Done (tt, mkDriver (keys d)
                  (foldl (fun m e => <[e.1 := mkEncrNode (f e) (node_count e.2)]> m)
                         (secMap d) l)
                  (bindAddress d) (advertiseAddress d) w').
Proof.
  induction l as [|e l IH]; intros d Hall.
  - exists (host d). cbn [forM_ foldl]. by rewrite driver_eta.
  - destruct (Hall e) as [Hne Hr]; [constructor|].
    destruct (updateKeys_peer_Done _ _ _ _ _ _ _ _ Hne Hr) as [w1 E1].
    cbn [forM_ foldl]. rewrite (bind_Done _ _ _ _ _ E1).
    match goal with |- context [forM_ l _ ?d1] => destruct (IH d1) as [w' E'] end.
    { intros e' He'. apply Hall. by constructor. }
    exists w'. by rewrite E'.
Qed.

(** Every peer is rewritten once, whatever the order of the visit. *)
Lemma rotate_peers lIP aIP ni pi di (f : Addr * encrNode -> list spi)
    (d : driver K) :
  (forall r n, secMap d !! r = Some n ->
     f (r, n) <> [] /\
     returns (updateNodeKey (AsSlice lIP) (AsSlice aIP) (AsSlice r)
                (node_spi n) (keys d) ni pi di) (fun x => x = f (r, n))) ->
  exists m' w',
    forM_ (range (secMap d)) (updateKeys_peer lIP aIP ni pi di) d
    = Done (tt, mkDriver (keys d) m' (bindAddress d) (advertiseAddress d) w')
    /\ forall r, m' !! r
                 = (fun n => mkEncrNode (f (r, n)) (node_count n)) <$> secMap d !! r.
Proof.
  intros Hall.
  destruct (updateKeys_loop_Done lIP aIP ni pi di f (range (secMap d)) d) as [w' E].
  { intros [r n] He. apply elem_of_range in He. by apply Hall. }
  eexists _, w'. split; [exact E|].
  intros r. destruct (secMap d !! r) as [n|] eqn:Hr; cbn [fmap option_fmap option_map].
  - rewrite (foldl_insert_lookup_in
               (fun e => mkEncrNode (f e) (node_count e.2)) _ (range_NoDup _) _ r n);
      [done|by apply elem_of_range].
  - rewrite foldl_insert_lookup_notin; [done|].
    intros Hin. apply list_elem_of_fmap in Hin as ([r' n] & -> & Hin).
    apply elem_of_range in Hin. cbn in Hr. congruence.
Qed.

End LoopFacts.

(** ** The objects looked up in the kernel *)

Section LookupFacts.
Context {K : Type} {NL : Netlink K}.

Lemma looks_up_unchanged {St A} (view : St -> world K) (m : ST St A) :
  (forall s a s', m s = Done (a, s') -> view s' = view s) -> looks_up view m [].
Proof. intros Hm s a s' E. by rewrite (Hm _ _ _ E), app_nil_r. Qed.

Lemma looks_up_ret {St A} (view : St -> world K) (a : A) : looks_up view (ret a) [].
Proof. apply looks_up_unchanged. by intros s ? s' [= _ ->]. Qed.

Lemma looks_up_raise {St A} (view : St -> world K) p xs :
  looks_up view (raise (A:=A) p) xs.
Proof. by intros s a s' E. Qed.

Lemma looks_up_bind {St A B} (view : St -> world K) (m : ST St A)
    (k : A -> ST St B) xs ys zs :
  looks_up view m xs -> (forall a, looks_up view (k a) ys) -> zs = xs ++ ys ->
  looks_up view (bind m k) zs.
Proof.
  intros Hm Hk -> s b s'' E. apply bind_inv in E as (a & s' & E1 & E2).
  by rewrite (Hk a _ _ _ E2), (Hm _ _ _ E1), app_assoc.
Qed.

Lemma looks_up_log_warn (m : logmsg) : looks_up (K:=K) id (log_warn m) [].
Proof. intros w a w' [= _ <-]. cbn [id trace]. by rewrite app_nil_r. Qed.

Lemma looks_up_warn_if (e : option error) : looks_up (K:=K) id (warn_if e) [].
Proof. destruct e; [apply looks_up_log_warn|apply looks_up_ret]. Qed.

Lemma looks_up_nl (req : nlreq) :
  looks_up id (nl req) (match lookup_target (req, None) with
                        | Some x => [x]
                        | None => []
                        end).
Proof.
  intros w a w' E. unfold nl in E.
  destruct (perform req (kern w)) as [e k']. injection E as _ <-.
  cbn [id trace]. by rewrite omap_snoc.
Qed.

(** A change of the kernel, and the line for its failure, look nothing up. *)
Lemma looks_up_change (req : nlreq) (line : errno -> logmsg) :
  lookup_target (req, None) = None ->
  looks_up id (err <- nl req ;;
               match err with
               | Some e => log_warn (line e)
               | None => ret tt
               end) [].
Proof.
  intros Hreq. eapply looks_up_bind with (ys := []);
    [apply looks_up_nl| |by rewrite Hreq].
  intros [e|]; [apply looks_up_log_warn|apply looks_up_ret].
Qed.

Lemma looks_up_saExists (sa : XfrmState) :
  looks_up id (saExists sa) [TState (sa_Src sa) (sa_Dst sa) (sa_Spi sa)].
Proof.
  unfold saExists. eapply looks_up_bind with (ys := []);
    [apply looks_up_nl| |reflexivity].
  intros [[| |c]|]; try apply looks_up_ret;
    (eapply looks_up_bind;
       [apply looks_up_log_warn|intros; apply looks_up_ret|reflexivity]).
Qed.

Lemma looks_up_programSA_block which src dst spiv k add lastErr :
  looks_up id (programSA_block which src dst spiv k add lastErr)
           [TState src dst spiv].
Proof.
  unfold programSA_block. eapply looks_up_bind with (xs := []); [| |reflexivity].
  { destruct add; [|apply looks_up_ret].
    eapply looks_up_bind with (xs := []) (ys := []);
      [|intros; apply looks_up_ret|reflexivity].
    unfold buildAeadAlgo. destruct k; [apply looks_up_ret|apply looks_up_raise]. }
  intros aead. eapply looks_up_bind with (ys := []);
    [apply looks_up_saExists| |reflexivity].
  intros x. eapply looks_up_bind with (xs := []) (ys := []);
    [|intros; apply looks_up_ret|reflexivity].
  destruct (negb _); [|apply looks_up_ret].
  destruct add; by apply looks_up_change.
Qed.

Lemma looks_up_spExists (sp : XfrmPolicy) :
  looks_up id (spExists sp) (match lookup_target (ReqPolicyGet sp, None) with
                             | Some x => [x]
                             | None => []
                             end).
Proof.
  unfold spExists. eapply looks_up_bind with (ys := []);
    [apply looks_up_nl| |by rewrite app_nil_r].
  intros [[| |c]|]; try apply looks_up_ret;
    (eapply looks_up_bind;
       [apply looks_up_log_warn|intros; apply looks_up_ret|reflexivity]).
Qed.

Lemma looks_up_programSP (fsa : XfrmState) rSAp add :
  looks_up id (programSP (Some fsa) rSAp add)
           [TPolicy (sa_Src fsa) (sa_Dst fsa) (sa_Spi fsa)].
Proof.
  unfold programSP. eapply looks_up_bind with (xs := []); [| |reflexivity].
  { apply looks_up_unchanged. by intros w ? w' [= _ ->]. }
  intros port.
  eapply looks_up_bind with (ys := []);
    [apply looks_up_spExists| |reflexivity].
  intros x. eapply looks_up_bind with (xs := []) (ys := []);
    [|intros; apply looks_up_ret|reflexivity].
  destruct (negb _); [|apply looks_up_ret].
  destruct add; by apply looks_up_change.
Qed.

Lemma programSA_block_result which src dst spiv k add lastErr (w : world K) x w' :
  programSA_block which src dst spiv k add lastErr w = Done (x, w') ->
  sa_Src x.1 = src /\ sa_Dst x.1 = dst /\ sa_Spi x.1 = spiv.
Proof.
  intros E. unfold programSA_block in E.
  apply bind_inv in E as (aead & w1 & _ & E).
  apply bind_inv in E as (y & w2 & _ & E).
  apply bind_inv in E as ([] & w3 & _ & E).
  by injection E as <- _.
Qed.

Lemma looks_up_setup_key localIP advIP remoteIP primary k :
  looks_up id (setup_key (K:=K) localIP advIP remoteIP primary k)
           (if primary then primary_targets localIP advIP remoteIP k
            else secondary_targets localIP advIP remoteIP k).
Proof.
  unfold setup_key. destruct primary.
  - intros w a w' E.
    apply bind_inv in E as (r & w1 & E1 & E).
    apply bind_inv in E as (f & w2 & E2 & E).
    apply bind_inv in E as ([] & w3 & E3 & E).
    apply bind_inv in E as (e & w4 & E4 & E5).
    destruct (programSA_block_result _ _ _ _ _ _ _ _ _ _ E2) as (Hs & Hd & Hspi).
    rewrite (looks_up_warn_if _ _ _ _ E5), (looks_up_programSP _ _ _ _ _ _ E4),
      (looks_up_warn_if _ _ _ _ E3), (looks_up_programSA_block _ _ _ _ _ _ _ _ _ _ E2),
      (looks_up_programSA_block _ _ _ _ _ _ _ _ _ _ E1).
    rewrite Hs, Hd, Hspi. unfold primary_targets. cbn [id].
    by rewrite !app_nil_r, <- !app_assoc.
  - eapply looks_up_bind with (ys := []);
      [apply looks_up_programSA_block|intros; apply looks_up_warn_if|reflexivity].
Qed.

Lemma looks_up_forM_ {St A} (view : St -> world K) (l : list A)
    (body : A -> ST St unit) (f : A -> list target) :
  (forall x, looks_up view (body x) (f x)) ->
  looks_up view (forM_ l body) (concat (f <$> l)).
Proof.
  intros Hb. induction l as [|x l IH]; cbn [forM_ fmap list_fmap concat].
  - apply looks_up_ret.
  - eapply looks_up_bind; [apply Hb|intros _; apply IH|reflexivity].
Qed.

Lemma looks_up_setup_plan localIP advIP remoteIP ks :
  looks_up id (setup_plan (K:=K) localIP advIP remoteIP ks)
           (setup_targets localIP advIP remoteIP ks).
Proof.
  destruct ks as [|k0 rest]; unfold setup_plan, setup_targets; [apply looks_up_ret|].
  eapply looks_up_bind;
    [apply (looks_up_setup_key _ _ _ true)| |reflexivity].
  intros _. apply looks_up_forM_. intros k.
  apply (looks_up_setup_key _ _ _ false).
Qed.

End LookupFacts.

(** ** Failed kernel operations are logged *)

Section AuditFacts.
Context {K : Type} {NL : Netlink K} {MR : MapRange}.

Lemma audited_unchanged {St A} (view : St -> world K) (m : ST St A) :
  (forall s a s', m s = Done (a, s') -> view s' = view s) -> audited view m.
Proof.
  intros Hm s a s' E. exists []. by rewrite (Hm _ _ _ E), !app_nil_r.
Qed.

Lemma audited_ret {St A} (view : St -> world K) (a : A) : audited view (ret a).
Proof. apply audited_unchanged. by intros s ? s' [= _ ->]. Qed.

Lemma audited_raise {St A} (view : St -> world K) p : audited view (raise (A:=A) p).
Proof. by intros s a s' E. Qed.

Lemma audited_get {St} (view : St -> world K) : audited view get.
Proof. apply audited_unchanged. by intros s ? s' [= _ ->]. Qed.

Lemma audited_bind {St A B} (view : St -> world K) (m : ST St A) (k : A -> ST St B) :
  audited view m -> (forall a, audited view (k a)) -> audited view (bind m k).
Proof.
  intros Hm Hk s b s'' E. apply bind_inv in E as (a & s' & E1 & E2).
  destruct (Hm _ _ _ E1) as (f1 & T1 & L1).
  destruct (Hk a _ _ _ E2) as (f2 & T2 & L2).
  exists (f1 ++ f2). by rewrite T2, T1, L2, L1, !app_assoc.
Qed.

Lemma audited_if {St A} (view : St -> world K) (b : bool) (m1 m2 : ST St A) :
  audited view m1 -> audited view m2 -> audited view (if b then m1 else m2).
Proof. by destruct b. Qed.

Lemma audited_index {St A} (view : St -> world K) (l : list A) i :
  audited view (index l i).
Proof.
  unfold index. destruct (i <? 0); [apply audited_raise|].
  destruct (l !! Z.to_nat i); [apply audited_ret|apply audited_raise].
Qed.

Lemma audited_remove_at {St A} (view : St -> world K) (l : list A) i :
  audited view (remove_at l i).
Proof.
  unfold remove_at. destruct (_ || _); [apply audited_raise|apply audited_ret].
Qed.

Lemma audited_forM_ {St A} (view : St -> world K) (l : list A) (body : A -> ST St unit) :
  (forall x, audited view (body x)) -> audited view (forM_ l body).
Proof.
  intros Hb. induction l as [|x l IH]; cbn [forM_]; [apply audited_ret|].
  apply audited_bind; [apply Hb|]. intros _. apply IH.
Qed.

(** A line that reports no failed change. *)
Lemma audited_log_other (m : logmsg) :
  failure_of_line m = None -> audited (K:=K) id (log_warn m).
Proof.
  intros Hm w a w' [= _ <-]. exists []. cbn [id logs trace].
  by rewrite omap_snoc, Hm, !app_nil_r.
Qed.

(** A request that is no change, or one whose failure is no failure of a
    change. *)
Lemma audited_nl_query (req : nlreq) :
  (forall e, failure_of_event (req, e) = None) -> audited id (nl req).
Proof.
  intros Hq w a w' E. unfold nl in E.
  destruct (perform req (kern w)) as [e k']. injection E as _ <-.
  exists []. cbn [id logs trace]. by rewrite omap_snoc, Hq, !app_nil_r.
Qed.

(** A change, followed by the line for its failure. *)
Lemma audited_nl_change (req : nlreq) (line : errno -> logmsg) :
  failure_of_event (req, None) = None ->
  (forall e, failure_of_event (req, Some e) = failure_of_line (line e)) ->
  audited id (err <- nl req ;;
              match err with
              | Some e => log_warn (line e)
              | None => ret tt
              end).
Proof.
  intros Hok Hfail w a w' E. unfold bind, nl in E.
  destruct (perform req (kern w)) as [[e|] k'].
  - injection E as _ <-. cbn [id logs trace]. rewrite !omap_snoc, Hfail.
    by eexists.
  - injection E as _ <-. exists []. cbn [id logs trace].
    by rewrite omap_snoc, Hok, !app_nil_r.
Qed.

Lemma audited_warn_if (e : option error) : audited (K:=K) id (warn_if e).
Proof. destruct e; [by apply audited_log_other|apply audited_ret]. Qed.

Lemma audited_vxlanUDPPort : audited (K:=K) id vxlanUDPPort.
Proof. apply audited_unchanged. by intros w ? w' [= _ ->]. Qed.

Lemma audited_saExists (sa : XfrmState) : audited id (saExists sa).
Proof.
  unfold saExists. apply audited_bind; [by apply audited_nl_query|].
  intros [[| |c]|]; try apply audited_ret;
    (apply audited_bind; [by apply audited_log_other|intros; apply audited_ret]).
Qed.

Lemma audited_spExists (sp : XfrmPolicy) : audited id (spExists sp).
Proof.
  unfold spExists. apply audited_bind; [by apply audited_nl_query|].
  intros [[| |c]|]; try apply audited_ret;
    (apply audited_bind; [by apply audited_log_other|intros; apply audited_ret]).
Qed.

Lemma audited_programSA_block which src dst spiv k add lastErr :
  audited id (programSA_block which src dst spiv k add lastErr).
Proof.
  unfold programSA_block. apply audited_bind.
  { apply audited_if; [|apply audited_ret].
    apply audited_bind; [|intros; apply audited_ret].
    unfold buildAeadAlgo. destruct k; [apply audited_ret|apply audited_raise]. }
  intros aead. apply audited_bind; [apply audited_saExists|]. intros x.
  apply audited_bind; [|intros; apply audited_ret].
  apply audited_if; [|apply audited_ret].
  destruct add; by apply audited_nl_change.
Qed.

Lemma audited_programSA localIP remoteIP s k dir add :
  audited id (programSA localIP remoteIP s k dir add).
Proof.
  unfold programSA. apply audited_bind.
  { apply audited_if; [|apply audited_ret].
    apply audited_bind; [apply audited_programSA_block|intros; apply audited_ret]. }
  intros r. apply audited_bind; [|intros; apply audited_ret].
  apply audited_if; [|apply audited_ret].
  apply audited_bind; [apply audited_programSA_block|intros; apply audited_ret].
Qed.

Lemma audited_programSP fSAp rSAp add : audited id (programSP fSAp rSAp add).
Proof.
  unfold programSP. destruct fSAp as [fsa|]; [|apply audited_raise].
  apply audited_bind; [apply audited_vxlanUDPPort|]. intros port.
  apply audited_bind; [apply audited_spExists|]. intros x.
  apply audited_bind; [|intros; apply audited_ret].
  apply audited_if; [|apply audited_ret].
  destruct add; by apply audited_nl_change.
Qed.

Lemma audited_updateNodeKey lIP aIP rIP idxs curKeys newIdx priIdx delIdx :
  audited id (updateNodeKey lIP aIP rIP idxs curKeys newIdx priIdx delIdx).
Proof.
  unfold updateNodeKey.
  apply audited_bind.
  { apply audited_if; [|apply audited_ret].
    apply audited_bind; [apply audited_index|intros; apply audited_ret]. }
  intros spis. apply audited_bind.
  { apply audited_if; [|apply audited_ret].
    apply audited_bind; [apply audited_index|]. intros s.
    apply audited_bind; [apply audited_programSA|intros; apply audited_ret]. }
  intros _. apply audited_bind.
  { apply audited_if; [|apply audited_ret].
    apply audited_bind; [apply audited_index|]. intros s.
    apply audited_bind; [apply audited_index|]. intros k.
    apply audited_bind; [apply audited_programSA|intros; apply audited_ret]. }
  intros _. apply audited_bind.
  { apply audited_if; [|apply audited_ret].
    apply audited_bind; [apply audited_index|]. intros s.
    apply audited_bind; [apply audited_index|]. intros k.
    apply audited_bind; [apply audited_programSA|]. intros r.
    destruct r.1.1 as [fSA2|]; [|apply audited_raise].
    apply audited_bind; [apply audited_vxlanUDPPort|]. intros port.
    pose proof (audited_nl_change (ReqPolicyUpdate (outboundPolicy port fSA2))
                  (Warnf_FailedUpdateSP (outboundPolicy port fSA2))
                  eq_refl (fun e => eq_refl)) as Hupd.
    intros w a w' E. apply bind_inv in E as (err & w1 & E1 & E2).
    apply bind_inv in E2 as ([] & w2 & E2 & E3).
    assert (Epivot : (err <- nl (ReqPolicyUpdate (outboundPolicy port fSA2)) ;;
                      match err with
                      | Some e => log_warn (Warnf_FailedUpdateSP (outboundPolicy port fSA2) e)
                      | None => ret tt
                      end) w = Done (tt, w2)).
    { by rewrite (bind_Done _ _ _ _ _ E1). }
    destruct (Hupd _ _ _ Epivot) as (f1 & T1 & L1).
    assert (Hrest : audited id (s0 <- index spis 0 ;;
                                programSA lIP rIP s0 None forward false ;;; ret tt)).
    { apply audited_bind; [apply audited_index|]. intros s0.
      apply audited_bind; [apply audited_programSA|intros; apply audited_ret]. }
    destruct (Hrest _ _ _ E3) as (f2 & T2 & L2).
    exists (f1 ++ f2). by rewrite T2, T1, L2, L1, !app_assoc. }
  intros _. apply audited_bind.
  { apply audited_if; [|apply audited_ret].
    apply audited_bind; [apply audited_index|]. intros swp.
    apply audited_bind; [apply audited_index|intros; apply audited_ret]. }
  intros spis'. apply audited_bind; [|intros; apply audited_ret].
  apply audited_if; [apply audited_remove_at|apply audited_ret].
Qed.

Lemma audited_liftW {A} (m : ST (world K) A) :
  audited id m -> audited host (liftW m).
Proof.
  intros Hm d a d' E. unfold liftW in E.
  destruct (m (host d)) as [[a' w]|] eqn:Em; [|done].
  injection E as _ <-. exact (Hm _ _ _ Em).
Qed.

Lemma audited_set_keys (ks : list key) : audited (K:=K) host (set_keys ks).
Proof. apply audited_unchanged. by intros d ? d' [= _ <-]. Qed.

Lemma audited_set_secMap (m : encrMap) : audited (K:=K) host (set_secMap m).
Proof. apply audited_unchanged. by intros d ? d' [= _ <-]. Qed.

Lemma audited_setupEncryption_loop localIP advIP remoteIP ks :
  forall i acc, audited id (setupEncryption_loop localIP advIP remoteIP i ks acc).
Proof.
  induction ks as [|k ks IH]; intros i acc; cbn [setupEncryption_loop].
  - apply audited_ret.
  - apply audited_bind; [apply audited_programSA|]. intros r.
    apply audited_bind; [apply audited_warn_if|]. intros _.
    apply audited_bind; [|intros; apply IH].
    apply audited_if; [apply audited_ret|].
    apply audited_bind; [apply audited_programSP|intros; apply audited_warn_if].
Qed.

Lemma audited_setupEncryption (r : Addr) : audited host (setupEncryption r).
Proof.
  unfold setupEncryption. apply audited_bind; [apply audited_get|]. intros d.
  destruct (decide _); [apply audited_ret|].
  apply audited_bind; [apply audited_liftW, audited_setupEncryption_loop|].
  intros indices. apply audited_bind; [apply audited_get|]. intros d'.
  apply audited_bind; [apply audited_set_secMap|intros; apply audited_ret].
Qed.

Lemma audited_removeEncryption_loop localIP remoteIP spis :
  forall i, audited id (removeEncryption_loop localIP remoteIP i spis).
Proof.
  induction spis as [|s spis IH]; intros i; cbn [removeEncryption_loop].
  - apply audited_ret.
  - apply audited_bind; [apply audited_programSA|]. intros r.
    apply audited_bind; [apply audited_warn_if|]. intros _.
    apply audited_bind; [|intros; apply IH].
    apply audited_if; [apply audited_ret|].
    apply audited_bind; [apply audited_programSP|intros; apply audited_warn_if].
Qed.

Lemma audited_removeEncryption (r : Addr) : audited host (removeEncryption r).
Proof.
  unfold removeEncryption. apply audited_bind; [apply audited_get|]. intros d.
  apply audited_bind.
  { apply audited_if;
      (apply audited_bind; [apply audited_set_secMap|intros; apply audited_ret]). }
  intros spis.
  apply audited_bind; [apply audited_liftW, audited_removeEncryption_loop|].
  intros; apply audited_ret.
Qed.

Lemma audited_updateKeys_peer lIP aIP newIdx priIdx delIdx e :
  audited host (updateKeys_peer lIP aIP newIdx priIdx delIdx e).
Proof.
  unfold updateKeys_peer. apply audited_bind; [apply audited_get|]. intros d.
  apply audited_bind; [apply audited_liftW, audited_updateNodeKey|].
  intros [|s l]; [apply audited_ret|apply audited_set_secMap].
Qed.

Lemma audited_updateKeys newKey primary pruneKey :
  audited host (updateKeys newKey primary pruneKey).
Proof.
  unfold updateKeys. apply audited_bind; [apply audited_get|]. intros d.
  apply audited_bind.
  { destruct newKey; [|apply audited_ret].
    apply audited_bind; [apply audited_set_keys|intros; apply audited_ret]. }
  intros newIdx. apply audited_bind; [apply audited_get|]. intros d'.
  cbv zeta. apply audited_if; [apply audited_ret|].
  apply audited_if; [apply audited_ret|].
  apply audited_bind.
  { apply audited_forM_. intros e. apply audited_updateKeys_peer. }
  intros _. apply audited_bind.
  { apply audited_if; [|apply audited_ret].
    apply audited_bind; [apply audited_get|]. intros d2.
    apply audited_bind; [apply audited_index|]. intros kp.
    apply audited_bind; [apply audited_index|]. intros k0.
    apply audited_set_keys. }
  intros _. apply audited_bind; [|intros; apply audited_ret].
  apply audited_if; [|apply audited_ret].
  apply audited_bind; [apply audited_get|]. intros d2.
  apply audited_bind; [apply audited_remove_at|]. intros ks.
  apply audited_set_keys.
Qed.

End AuditFacts.

(** ** The requests made to the kernel *)

Section RequestFacts.
Context {K : Type} {NL : Netlink K}.

Lemma requests_conseq {St A} (view : St -> world K) (m : ST St A)
    (Q Q' : A -> list nlevent -> Prop) :
  requests view m Q -> (forall a evs, Q a evs -> Q' a evs) -> requests view m Q'.
Proof.
  intros Hm HQ s a s' E. destruct (Hm _ _ _ E) as (evs & T & H).
  exists evs. auto.
Qed.

Lemma requests_unchanged {St A} (view : St -> world K) (m : ST St A)
    (Q : A -> list nlevent -> Prop) :
  (forall s a s', m s = Done (a, s') -> view s' = view s /\ Q a []) ->
  requests view m Q.
Proof.
  intros Hm s a s' E. destruct (Hm _ _ _ E) as [-> H].
  exists []. by rewrite app_nil_r.
Qed.

Lemma requests_ret {St A} (view : St -> world K) (a : A)
    (Q : A -> list nlevent -> Prop) :
  Q a [] -> requests view (ret a) Q.
Proof. intros H. apply requests_unchanged. by intros s ? s' [= <- <-]. Qed.

Lemma requests_raise {St A} (view : St -> world K) p
    (Q : A -> list nlevent -> Prop) :
  requests view (raise p) Q.
Proof. by intros s a s' E. Qed.

Lemma requests_bind {St A B} (view : St -> world K) (m : ST St A)
    (k : A -> ST St B) (Q1 : A -> list nlevent -> Prop)
    (Q2 : A -> B -> list nlevent -> Prop) (Q : B -> list nlevent -> Prop) :
  requests view m Q1 ->
  (forall a, requests view (k a) (Q2 a)) ->
  (forall a b e1 e2, Q1 a e1 -> Q2 a b e2 -> Q b (e1 ++ e2)) ->
  requests view (bind m k) Q.
Proof.
  intros Hm Hk HQ s b s'' E. apply bind_inv in E as (a & s' & E1 & E2).
  destruct (Hm _ _ _ E1) as (e1 & T1 & H1).
  destruct (Hk a _ _ _ E2) as (e2 & T2 & H2).
  exists (e1 ++ e2). split; [by rewrite T2, T1, app_assoc|eauto].
Qed.

Lemma requests_nl (req : nlreq) :
  requests id (nl req) (fun e evs => evs = [(req, e)]).
Proof.
  intros w e w' E. unfold nl in E.
  destruct (perform req (kern w)) as [e0 k']. injection E as <- <-.
  by eexists.
Qed.

Lemma requests_log_warn (m : logmsg) (Q : unit -> list nlevent -> Prop) :
  Q tt [] -> requests (K:=K) id (log_warn m) Q.
Proof.
  intros H w [] w' [= <-]. exists []. cbn [id trace]. by rewrite app_nil_r.
Qed.

Lemma requests_warn_if (e : option error) (Q : unit -> list nlevent -> Prop) :
  Q tt [] -> requests (K:=K) id (warn_if e) Q.
Proof. destruct e; [apply requests_log_warn|apply requests_ret]. Qed.

Lemma requests_liftW {A} (m : ST (world K) A) (Q : A -> list nlevent -> Prop) :
  requests id m Q -> requests host (liftW m) Q.
Proof.
  intros Hm d a d' E. unfold liftW in E.
  destruct (m (host d)) as [[a' w]|] eqn:Em; [|done].
  injection E as <- <-. exact (Hm _ _ _ Em).
Qed.

(** A change, followed by the line for its failure. *)
Lemma requests_change (req : nlreq) (line : errno -> logmsg) :
  requests id (err <- nl req ;;
               match err with
               | Some e => log_warn (line e)
               | None => ret tt
               end)
           (fun _ evs => exists e, evs = [(req, e)]).
Proof.
  eapply requests_bind with (Q2 := fun _ _ evs => evs = []);
    [apply requests_nl| |].
  - intros [e|]; [by apply requests_log_warn|by apply requests_ret].
  - intros e [] e1 e2 -> ->. by exists e.
Qed.

Lemma requests_saExists (sa : XfrmState) :
  requests id (saExists sa)
    (fun x evs => exists found,
       evs = [(ReqStateGet sa, found)]
       /\ x.2 = lookup_error ESRCH ErrSAExistence found
       /\ x.1 = bool_decide (found = None)).
Proof.
  intros w x w' E. unfold saExists in E.
  apply bind_inv in E as (found & w1 & E1 & E2).
  destruct (requests_nl _ _ _ _ E1) as (evs & T & ->).
  exists [(ReqStateGet sa, found)].
  destruct found as [[| |c]|]; unfold bind, log_warn, ret in E2;
    injection E2 as <- <-; cbn [id trace] in *; (split; [done|eexists; split; [reflexivity|split; reflexivity]]).
Qed.

Lemma requests_spExists (sp : XfrmPolicy) :
  requests id (spExists sp)
    (fun x evs => exists found,
       evs = [(ReqPolicyGet sp, found)]
       /\ x.2 = lookup_error ENOENT ErrSPExistence found
       /\ x.1 = bool_decide (found = None)).
Proof.
  intros w x w' E. unfold spExists in E.
  apply bind_inv in E as (found & w1 & E1 & E2).
  destruct (requests_nl _ _ _ _ E1) as (evs & T & ->).
  exists [(ReqPolicyGet sp, found)].
  destruct found as [[| |c]|]; unfold bind, log_warn, ret in E2;
    injection E2 as <- <-; cbn [id trace] in *; (split; [done|eexists; split; [reflexivity|split; reflexivity]]).
Qed.

Lemma change_wanted_spec add absent wrap found (x : bool * option error) :
  x.2 = lookup_error absent wrap found ->
  x.1 = bool_decide (found = None) ->
  negb (eqb add (match x.2 with Some _ => negb add | None => x.1 end))
  = change_wanted add absent found.
Proof.
  destruct x as [b e]. cbn [fst snd]. intros -> ->.
  destruct found as [e|]; cbn [lookup_error change_wanted].
  - unfold change_wanted.
    destruct (decide (e = absent)) as [->|Hne], add; cbn;
      repeat case_bool_decide; try done; congruence.
  - by destruct add.
Qed.

Lemma requests_programSA_block which src dst spiv k add lastErr :
  requests id (programSA_block which src dst spiv k add lastErr)
    (fun x evs =>
       x.1 = sa_built src dst spiv k add
       /\ exists found,
            programmed add ESRCH (ReqStateGet x.1)
              (if add then ReqStateAdd x.1 else ReqStateDel x.1) found evs
            /\ x.2 = match lookup_error ESRCH ErrSAExistence found with
                     | Some e => Some e
                     | None => lastErr
                     end).
Proof.
  intros w x w' E. unfold programSA_block in E.
  apply bind_inv in E as (aead & w1 & Ea & E).
  assert (Ha : w1 = w
               /\ mkXfrmState src dst XFRM_PROTO_ESP spiv XFRM_MODE_TRANSPORT mark aead
                  = sa_built src dst spiv k add).
  { unfold sa_built. destruct add, k as [k|]; cbn in Ea; try done;
      by injection Ea as <- <-. }
  destruct Ha as [-> Hsa]. rewrite Hsa in E. clear Ea Hsa aead.
  set (sa := sa_built src dst spiv k add) in *.
  apply bind_inv in E as (y & w2 & Ey & E).
  destruct (requests_saExists _ _ _ _ Ey) as (evs1 & T1 & found & -> & Hy2 & Hy1).
  rewrite (change_wanted_spec add ESRCH ErrSAExistence found y Hy2 Hy1) in E.
  apply bind_inv in E as ([] & w3 & Ec & E). injection E as <- <-.
  cbn [fst snd]. unfold programmed.
  destruct (change_wanted add ESRCH found) eqn:Hc.
  - assert (Hchg : exists e, trace w3
                   = trace w2 ++ [(if add then ReqStateAdd sa else ReqStateDel sa, e)]).
    { destruct add;
        destruct (requests_change _ _ _ _ _ Ec) as (evs2 & T2 & e & ->); by exists e. }
    destruct Hchg as [e T2].
    exists [(ReqStateGet sa, found);
            (if add then ReqStateAdd sa else ReqStateDel sa, e)].
    cbn [id] in *. split; [by rewrite T2, T1, <- app_assoc|].
    split; [done|]. exists found. rewrite Hc, Hy2. split; [by exists e|done].
  - injection Ec as <-. exists [(ReqStateGet sa, found)].
    split; [done|]. split; [done|]. exists found. by rewrite Hc, Hy2.
Qed.

Lemma requests_programSA localIP remoteIP s k dir add :
  requests id (programSA localIP remoteIP s k dir add)
    (fun x evs => exists evr evf fr ff,
       evs = evr ++ evf
       /\ sa_requests add (Z.land dir reverse >? 0) remoteIP localIP
            (spi_reverse s) k x.1.2 fr evr
       /\ sa_requests add (Z.land dir forward >? 0) localIP remoteIP
            (spi_forward s) k x.1.1 ff evf
       /\ x.2 = match ff ≫= lookup_error ESRCH ErrSAExistence with
                | Some e => Some e
                | None => fr ≫= lookup_error ESRCH ErrSAExistence
                end).
Proof.
  intros w x w' E. unfold programSA in E.
  apply bind_inv in E as (r & w1 & Er & E).
  apply bind_inv in E as (f & w2 & Ef & E). injection E as <- <-.
  cbn [fst snd].
  assert (Hr : exists evr fr,
             trace w1 = trace w ++ evr
             /\ sa_requests add (Z.land dir reverse >? 0) remoteIP localIP
                  (spi_reverse s) k r.1 fr evr
             /\ r.2 = fr ≫= lookup_error ESRCH ErrSAExistence).
  { unfold sa_requests. destruct (Z.land dir reverse >? 0).
    - apply bind_inv in Er as (x & w0 & Ex & Er). injection Er as <- <-.
      destruct (requests_programSA_block _ _ _ _ _ _ _ _ _ _ Ex)
        as (evs & T & Hsa & found & Hp & He).
      exists evs, (Some found). cbn [fst snd id] in *. rewrite Hsa in *.
      split; [done|]. split; [split; [done|by exists found]|].
      rewrite He. cbn. by destruct (lookup_error _ _ _).
    - injection Er as <- <-. exists [], None. by rewrite app_nil_r. }
  destruct Hr as (evr & fr & Tr & Hr & Her).
  assert (Hf : exists evf ff,
             trace w2 = trace w1 ++ evf
             /\ sa_requests add (Z.land dir forward >? 0) localIP remoteIP
                  (spi_forward s) k f.1 ff evf
             /\ f.2 = match ff ≫= lookup_error ESRCH ErrSAExistence with
                      | Some e => Some e
                      | None => r.2
                      end).
  { unfold sa_requests. destruct (Z.land dir forward >? 0).
    - apply bind_inv in Ef as (x & w0 & Ex & Ef). injection Ef as <- <-.
      destruct (requests_programSA_block _ _ _ _ _ _ _ _ _ _ Ex)
        as (evs & T & Hsa & found & Hp & He).
      exists evs, (Some found). cbn [fst snd id] in *. rewrite Hsa in *.
      split; [done|]. split; [split; [done|by exists found]|].
      by rewrite He.
    - injection Ef as <- <-. exists [], None. by rewrite app_nil_r. }
  destruct Hf as (evf & ff & Tf & Hf & Hef).
  exists (evr ++ evf). cbn [id]. split; [by rewrite Tf, Tr, app_assoc|].
  exists evr, evf, fr, ff. by rewrite Hef, Her.
Qed.

Lemma programSP_Done (fsa : XfrmState) rSAp add (w w' : world K) x :
  programSP (Some fsa) rSAp add w = Done (x, w') ->
  let sp := outboundPolicy (VXLANUDPPort (kern w)) fsa in
  x = None
  /\ exists found evs,
       trace w' = trace w ++ evs
       /\ programmed add ENOENT (ReqPolicyGet sp)
            (if add then ReqPolicyAdd sp else ReqPolicyDel sp) found evs.
Proof.
  intros E sp. unfold programSP in E.
  apply bind_inv in E as (port & w1 & Ep & E). injection Ep as <- <-.
  fold sp in E.
  apply bind_inv in E as (y & w2 & Ey & E).
  destruct (requests_spExists _ _ _ _ Ey) as (evs1 & T1 & found & -> & Hy2 & Hy1).
  rewrite (change_wanted_spec add ENOENT ErrSPExistence found y Hy2 Hy1) in E.
  apply bind_inv in E as ([] & w3 & Ec & E). injection E as <- <-.
  split; [done|]. exists found. unfold programmed.
  destruct (change_wanted add ENOENT found) eqn:Hc.
  - assert (Hchg : exists e, trace w3
                   = trace w2 ++ [(if add then ReqPolicyAdd sp else ReqPolicyDel sp, e)]).
    { destruct add;
        destruct (requests_change _ _ _ _ _ Ec) as (evs2 & T2 & e & ->); by exists e. }
    destruct Hchg as [e T2].
    exists [(ReqPolicyGet sp, found);
            (if add then ReqPolicyAdd sp else ReqPolicyDel sp, e)].
    cbn [id] in *. split; [by rewrite T2, T1, <- app_assoc|]. by exists e.
  - injection Ec as <-. by exists [(ReqPolicyGet sp, found)].
Qed.

Lemma requests_programSP (fsa : XfrmState) rSAp add :
  requests id (programSP (Some fsa) rSAp add)
    (fun x evs => x = None /\ exists port found,
       let sp := outboundPolicy port fsa in
       programmed add ENOENT (ReqPolicyGet sp)
         (if add then ReqPolicyAdd sp else ReqPolicyDel sp) found evs).
Proof.
  intros w x w' E.
  destruct (programSP_Done _ _ _ _ _ _ E) as (-> & found & evs & T & Hp).
  exists evs. split; [done|]. split; [done|]. by exists (VXLANUDPPort (kern w)), found.
Qed.

Lemma programSA_bidir_states lIP rIP s k add (w w' : world K) x :
  programSA lIP rIP s k bidir add w = Done (x, w') ->
  x.1.1 = Some (sa_built lIP rIP (spi_forward s) k add)
  /\ x.1.2 = Some (sa_built rIP lIP (spi_reverse s) k add).
Proof.
  intros E. destruct (requests_programSA _ _ _ _ _ _ _ _ _ E)
    as (evs & T & evr & evf & fr & ff & -> & Hr & Hf & _).
  change (Z.land bidir reverse >? 0) with true in Hr.
  change (Z.land bidir forward >? 0) with true in Hf.
  destruct Hr as (Hr & _), Hf as (Hf & _). done.
Qed.

(** The requests of [setupEncryption]'s loop. *)
Lemma requests_setup_key localIP advIP remoteIP (primary : bool) (k : key) :
  requests id (setup_key localIP advIP remoteIP primary k)
    (fun _ evs => key_programmed localIP advIP remoteIP primary k evs).
Proof.
  intros w [] w' E. unfold setup_key in E. unfold key_programmed.
  destruct primary.
  - apply bind_inv in E as (r & w1 & Er & E).
    apply bind_inv in E as (f & w2 & Ef & E).
    apply bind_inv in E as ([] & w3 & Ew & E).
    apply bind_inv in E as (err & w4 & Ep & E).
    destruct (requests_programSA_block _ _ _ _ _ _ _ _ _ _ Er)
      as (evr & Tr & Hr & fr & Hpr & _).
    destruct (requests_programSA_block _ _ _ _ _ _ _ _ _ _ Ef)
      as (evf & Tf & Hf & ff & Hpf & _).
    destruct (requests_warn_if f.2 (fun _ evs => evs = []) eq_refl _ _ _ Ew)
      as (e0 & T0 & ->).
    destruct (requests_programSP _ _ _ _ _ _ Ep) as (evp & Tp & _ & port & fp & Hpp).
    destruct (requests_warn_if err (fun _ evs => evs = []) eq_refl _ _ _ E)
      as (e1 & T1 & ->).
    cbn [id] in *. rewrite Hr in Hpr. rewrite Hf in Hpf, Hpp.
    exists (evr ++ evf ++ evp). split.
    + by rewrite T1, Tp, T0, Tf, Tr, !app_nil_r, <- !app_assoc.
    + exists fr, evr. split; [done|]. by exists ff, evf, port, fp, evp.
  - apply bind_inv in E as (r & w1 & Er & E).
    destruct (requests_programSA_block _ _ _ _ _ _ _ _ _ _ Er)
      as (evr & Tr & Hr & fr & Hpr & _).
    destruct (requests_warn_if r.2 (fun _ evs => evs = []) eq_refl _ _ _ E)
      as (e1 & T1 & ->).
    cbn [id] in *. rewrite Hr in Hpr.
    exists evr. split; [by rewrite T1, Tr, app_nil_r|]. by exists fr, evr.
Qed.

Lemma requests_setup_rest localIP advIP remoteIP (ks : list key) :
  requests id (forM_ ks (setup_key localIP advIP remoteIP false))
    (fun _ evs => keys_programmed localIP advIP remoteIP false ks evs).
Proof.
  induction ks as [|k ks IH]; [by apply requests_ret|].
  cbn [forM_ keys_programmed].
  eapply requests_bind
    with (Q2 := fun _ _ evs => keys_programmed localIP advIP remoteIP false ks evs);
    [apply requests_setup_key|intros ?; apply IH|].
  intros [] [] e1 e2 H1 H2. by exists e1, e2.
Qed.

Lemma requests_setup_plan localIP advIP remoteIP (ks : list key) :
  requests id (setup_plan localIP advIP remoteIP ks)
    (fun _ evs => keys_programmed localIP advIP remoteIP true ks evs).
Proof.
  destruct ks as [|k ks]; [by apply requests_ret|].
  cbn [setup_plan keys_programmed].
  eapply requests_bind
    with (Q2 := fun _ _ evs => keys_programmed localIP advIP remoteIP false ks evs);
    [apply requests_setup_key|intros ?; apply requests_setup_rest|].
  intros [] [] e1 e2 H1 H2. by exists e1, e2.
Qed.

End RequestFacts.

(** * The properties of the specification *)

(** ** MTU accounting *)

(** C9.  With the link MTU configured as 1500, or left unset, and without
    encryption [maxMTU] is 1500 minus the overlay encapsulation overhead;
    with encryption it is that value minus the ESP expansion constant 26,
    rounded down to a multiple of 4.  The overhead is a constant declared
    outside the file; it is taken to leave room for the ESP expansion. *)
Theorem maxMTU_default_link (vxlanEncap : Z) :
  0 <= vxlanEncap <= 1474 ->
  let plain := 1500 - vxlanEncap in
  maxMTU vxlanEncap (mkNetwork 1500 false) = plain
  /\ maxMTU vxlanEncap (mkNetwork 0 false) = plain
  /\ maxMTU vxlanEncap (mkNetwork 1500 true) = 4 * ((plain - 26) / 4)
  /\ maxMTU vxlanEncap (mkNetwork 0 true) = 4 * ((plain - 26) / 4)
  /\ plain - 26 - 4 < 4 * ((plain - 26) / 4) <= plain - 26.
Proof.
  intros Hv plain.
  assert (Hsec : int_wrap (int_wrap (int_wrap plain - pktExpansion)
                           - Z.rem (int_wrap (int_wrap plain - pktExpansion)) 4)
                 = 4 * ((plain - 26) / 4)).
  { unfold pktExpansion, plain.
    rewrite (int_wrap_small (1500 - vxlanEncap)) by lia.
    rewrite (int_wrap_small (1500 - vxlanEncap - 26)) by lia.
    rewrite Z.rem_mod_nonneg by lia.
    pose proof (Z.div_mod (1500 - vxlanEncap - 26) 4 ltac:(lia)).
    pose proof (Z.mod_pos_bound (1500 - vxlanEncap - 26) 4 ltac:(lia)).
    rewrite int_wrap_small by lia. lia. }
  unfold maxMTU. cbn [mtu secure]. change (1500 =? 0) with false.
  change (0 =? 0) with true. cbn [negb]. fold plain.
  rewrite Hsec. rewrite (int_wrap_small plain) by (unfold plain; lia).
  repeat split; try done.
  - pose proof (Z.div_mod (plain - 26) 4 ltac:(lia)).
    pose proof (Z.mod_pos_bound (plain - 26) 4 ltac:(lia)). lia.
  - pose proof (Z.div_mod (plain - 26) 4 ltac:(lia)).
    pose proof (Z.mod_pos_bound (plain - 26) 4 ltac:(lia)). lia.
Qed.

Lemma maxMTU_vxlan_50 :
  maxMTU 50 (mkNetwork 1500 false) = 1450
  /\ maxMTU 50 (mkNetwork 0 false) = 1450
  /\ maxMTU 50 (mkNetwork 1500 true) = 1424
  /\ maxMTU 50 (mkNetwork 0 true) = 1424
  /\ 1420 < 1424 <= 1424.
Proof. apply (maxMTU_default_link 50). lia. Defined.

(** ** Setup and teardown *)

Section LifecycleClaims.
Context {K : Type} {NL : Netlink K} {MR : MapRange}.

(** C1 (the code departs from it).  Every entry of the Peer Security Map is
    specified to have a count of at least 1, and [removeEncryption] for an
    address without an entry to leave the map without one.  The code reads
    the zero node of the absent address, finds a count other than 1,
    decrements it and stores the node: whatever the map [m], after the call
    on [m] without [r] the address [r] has an entry with no SpiPair and the
    count -1. *)
Theorem removeEncryption_absent_peer ks (m : encrMap) (b a r : Addr) (w : world K) :
  removeEncryption r (mkDriver ks (delete r m) b a w)
  = Done (None, mkDriver ks (<[r := mkEncrNode [] (-1)]> (delete r m)) b a w).
Proof.
  rewrite removeEncryption_other.
  - cbn [keys secMap bindAddress advertiseAddress host].
    unfold secMap_get. by rewrite lookup_delete_eq.
  - cbn [secMap]. unfold secMap_get. by rewrite lookup_delete_eq.
Qed.

(** C4.  [setupEncryption] returns an error exactly when the Key Store is
    empty.  Otherwise it succeeds whatever the kernel answers, having
    programmed, in Key Store order, the reverse and the forward SA and the
    outbound SP of the key at index 0 and the reverse SA only of every later
    key.  The requests it made to the kernel are exactly these: each of the
    objects, built from the key's SpiPair and carrying the salted key, is
    looked up and, whenever the lookup did not find it, added, whether or
    not an earlier request failed; these, in this order, are the objects it
    looked up.  It leaves the peer with the SpiPairs of all keys and its
    count incremented. *)
Theorem setupEncryption_programs_keys (d : driver K) (r : Addr) :
  (keys d = []
   /\ setupEncryption r d
      = Done (Some (ForbiddenError "encryption key is not present"), d))
  \/ (keys d <> []
      /\ exists w',
           setupEncryption r d = Done (None, setup_state d r w')
           /\ setup_plan (AsSlice (bindAddress d)) (AsSlice (advertiseAddress d))
                (AsSlice r) (keys d) (host d) = Done (tt, w')
           /\ (exists evs,
                 trace w' = trace (host d) ++ evs
                 /\ keys_programmed (AsSlice (bindAddress d))
                      (AsSlice (advertiseAddress d)) (AsSlice r) true (keys d) evs)
           /\ omap lookup_target (trace w')
              = omap lookup_target (trace (host d))
                ++ setup_targets (AsSlice (bindAddress d))
                     (AsSlice (advertiseAddress d)) (AsSlice r) (keys d)).
Proof.
  destruct (decide (keys d = [])) as [E|E].
  - left. split; [done|]. by apply setupEncryption_no_key.
  - right. split; [done|].
    destruct (setupEncryption_Done d r E) as (w' & Hplan & Hrun).
    exists w'. split; [done|]. split; [done|]. split.
    + exact (requests_setup_plan _ _ _ _ _ _ _ Hplan).
    + exact (looks_up_setup_plan _ _ _ _ _ _ _ Hplan).
Qed.

(** C7.  For a peer [r] without an entry and a non-empty Key Store,
    [setupEncryption r] followed by [removeEncryption r] leaves the map as
    it was, without an entry for [r]; and after two [setupEncryption r] the
    count is 2, and one [removeEncryption r] only brings it to 1: the entry
    and its SpiPairs stay, and nothing is sent to the kernel. *)
Theorem setup_remove_refcount (d : driver K) (r : Addr) :
  secMap d !! r = None ->
  keys d <> [] ->
  (exists d1 d2,
     setupEncryption r d = Done (None, d1)
     /\ removeEncryption r d1 = Done (None, d2)
     /\ secMap d2 !! r = None
     /\ secMap d2 = secMap d)
  /\ (exists d1 d2 d3 n2,
        setupEncryption r d = Done (None, d1)
        /\ setupEncryption r d1 = Done (None, d2)
        /\ secMap d2 !! r = Some n2
        /\ node_count n2 = 2
        /\ removeEncryption r d2 = Done (None, d3)
        /\ secMap d3 !! r = Some (mkEncrNode (node_spi n2) 1)
        /\ host d3 = host d2).
Proof.
  intros Hr Hk.
  destruct (setupEncryption_Done d r Hk) as (w1 & _ & E1).
  assert (Hc1 : node_count (secMap_get (secMap (setup_state d r w1)) r) = 1).
  { cbn [setup_state secMap]. unfold secMap_get at 1. rewrite lookup_insert_eq.
    cbn [default node_count]. unfold secMap_get. by rewrite Hr. }
  split.
  - destruct (removeEncryption_last (setup_state d r w1) r Hc1) as (w2 & E2).
    eexists _, _. split; [exact E1|]. split; [exact E2|].
    cbn [secMap setup_state]. rewrite delete_insert_eq.
    split; [by rewrite lookup_delete_eq|]. by apply delete_id.
  - destruct (setupEncryption_Done (setup_state d r w1) r Hk) as (w2 & _ & E2).
    set (d2 := setup_state (setup_state d r w1) r w2) in *.
    assert (Hn2 : secMap d2 !! r
                  = Some (mkEncrNode
                            (spiPair (AsSlice (advertiseAddress d)) (AsSlice r) <$> keys d) 2)).
    { unfold d2. cbn [setup_state secMap keys advertiseAddress].
      rewrite lookup_insert_eq. do 2 f_equal.
      unfold secMap_get at 1. rewrite lookup_insert_eq. cbn [default node_count].
      unfold secMap_get. by rewrite Hr. }
    eexists _, d2, _, _. split; [exact E1|]. split; [exact E2|].
    split; [exact Hn2|]. split; [done|].
    rewrite removeEncryption_other.
    + split; [reflexivity|]. cbn [secMap host]. split; [|done].
      rewrite lookup_insert_eq. unfold secMap_get. rewrite Hn2. done.
    + unfold secMap_get. rewrite Hn2. done.
Qed.

End LifecycleClaims.

(** ** Key rotation *)

Section RotationClaims.
Context {K : Type} {NL : Netlink K} {MR : MapRange}.

(** C2 (the code departs from it).  A call of [updateKeys] whose arguments
    fail validation is specified to change nothing.  The code appends
    [newKey] to the Key Store before it validates and returns the error
    without taking it out again: with the key tagged 1 in the store, adding
    the key tagged 2 and promoting an unknown key tagged 3 is rejected, and
    the store is left holding both keys.  (The peers, the kernel and the log
    are untouched.) *)
Theorem updateKeys_rejected_keeps_new_key v1 v2 v3 (m : encrMap) (b a : Addr)
    (w : world K) :
  updateKeys (Some (mkKey v2 2)) (Some (mkKey v3 3)) None
    (mkDriver [mkKey v1 1] m b a w)
  = Done (Some (InvalidParameter_indices 1 (-1) (-1)),
          mkDriver [mkKey v1 1; mkKey v2 2] m b a w).
Proof. by rewrite updateKeys_eq. Qed.

(** C3.  In every state and for every key [k], and whether or not a new key
    is passed along, [updateKeys(primary = k, pruneKey = k)] returns a
    validation error, and the kernel, the log and the history of netlink
    requests are as before the call: no request was made, so no SA or SP was
    added, removed or updated. *)
Theorem updateKeys_promote_and_prune_rejected (d : driver K) (newKey : option key)
    (k : key) :
  exists e d',
    updateKeys newKey (Some k) (Some k) d = Done (Some e, d')
    /\ is_InvalidParameter e = true
    /\ host d' = host d
    /\ secMap d' = secMap d.
Proof.
  rewrite updateKeys_eq. cbv zeta. rewrite <- scan_same.
  destruct (validation_same newKey k (newIdx_of (keys d) newKey)
              (updateKeys_scan (Some k) (Some k) 0
                 (keys (with_keys d (keys_with (keys d) newKey))) (-1) (-1)).1)
    as (e & -> & He).
  by eexists _, _.
Qed.

(** C8 as amended.  No failure of a kernel operation reaches the caller,
    the in-place update of the outbound policy during the pivot included:
    whatever the kernel answers, the error [updateKeys] returns is the
    outcome of the validation of its arguments against the Key Store, the
    error [setupEncryption] returns is that of the empty Key Store, and
    [removeEncryption] returns none.  The failures are logged: whenever one
    of the three calls returns, the failed additions, removals and updates it
    requested of the kernel are the ones its log lines report, one line per
    failure and in the same order. *)
Theorem kernel_failures_not_returned (d : driver K) (r : Addr)
    (newKey primary pruneKey : option key) :
  returned_error (updateKeys newKey primary pruneKey d)
  = (let idx := updateKeys_scan primary pruneKey 0 (keys_with (keys d) newKey) (-1) (-1) in
     validation newKey primary pruneKey (newIdx_of (keys d) newKey) idx.1 idx.2)
  /\ returned_error (setupEncryption r d)
     = (if decide (keys d = [])
        then Some (ForbiddenError "encryption key is not present") else None)
  /\ returned_error (removeEncryption r d) = None
  /\ audited host (updateKeys newKey primary pruneKey)
  /\ audited (K:=K) host (setupEncryption r)
  /\ audited (K:=K) host (removeEncryption r).
Proof.
  split; [apply updateKeys_returned_error|].
  split; [apply setupEncryption_returned_error|].
  split; [apply removeEncryption_returned_error|].
  split; [apply audited_updateKeys|].
  split; [apply audited_setupEncryption|apply audited_removeEncryption].
Qed.

(** A call that only adds a key passes the checks. *)
Lemma updateKeys_add_eq (d : driver K) (k : key) :
  updateKeys (Some k) None None d
  = rotate (bindAddress d) (advertiseAddress d) (Z.of_nat (length (keys d))) (-1) (-1)
      (with_keys d (keys d ++ [k])).
Proof.
  rewrite updateKeys_eq. cbv zeta. cbn [keys_with newIdx_of with_keys keys].
  rewrite scan_no_primary, scan_no_prune.
  replace (-1 + Z.of_nat (length (keys d ++ [k]))) with (Z.of_nat (length (keys d)))
    by (rewrite length_app; simpl; lia).
  unfold validation.
  by destruct (Z.eqb_spec (Z.of_nat (length (keys d))) (-1)) as [?|_]; [lia|].
Qed.

(** So does a call that only promotes a key found behind the first. *)
Lemma updateKeys_promote_eq (d : driver K) (i : nat) (k : key) :
  (0 < i)%nat ->
  keys d !! i = Some k ->
  (forall j k', keys d !! j = Some k' -> tag k' = tag k -> j = i) ->
  updateKeys None (Some k) None d
  = rotate (bindAddress d) (advertiseAddress d) (-1) (Z.of_nat i) (-1) d.
Proof.
  intros Hi Hk Huniq.
  rewrite updateKeys_eq. cbv zeta. cbn [keys_with newIdx_of].
  replace (with_keys d (keys d)) with d by (by destruct d).
  rewrite (scan_primary_unique k None (keys d) i 0 (-1) (-1) Hk Huniq), scan_no_prune.
  replace (0 + Z.of_nat i) with (Z.of_nat i) by lia.
  unfold validation.
  by destruct (Z.eqb_spec (Z.of_nat i) (-1)) as [?|_]; [lia|].
Qed.

Lemma rotate_add (d : driver K) (k : key) :
  covers d ->
  exists m' w',
    rotate (bindAddress d) (advertiseAddress d) (Z.of_nat (length (keys d))) (-1) (-1)
      (with_keys d (keys d ++ [k]))
    = Done (None, mkDriver (keys d ++ [k]) m' (bindAddress d) (advertiseAddress d) w')
    /\ forall r, m' !! r
         = (fun n => mkEncrNode
                       (node_spi n ++ [spiPair (AsSlice (advertiseAddress d)) (AsSlice r) k])
                       (node_count n)) <$> secMap d !! r.
Proof.
  intros Hcov.
  destruct (rotate_peers (bindAddress d) (advertiseAddress d)
              (Z.of_nat (length (keys d))) (-1) (-1)
              (fun e => node_spi e.2 ++ [spiPair (AsSlice (advertiseAddress d)) (AsSlice e.1) k])
              (with_keys d (keys d ++ [k]))) as (m' & w' & E & Hm').
  { intros r n Hn. cbn [fst snd with_keys keys secMap] in *. split.
    - by destruct (node_spi n).
    - apply updateNodeKey_add; [|by apply (Hcov r)].
      rewrite lookup_app_r by done. by rewrite Nat.sub_diag. }
  exists m', w'. split; [|exact Hm'].
  unfold rotate. unfold bind at 1. unfold get at 1.
  rewrite (bind_Done _ _ _ _ _ E). done.
Qed.

(** C5 as amended.  In every state with a non-empty Key Store in which every
    peer has at least as many SpiPairs as the store has keys,
    [updateKeys(newKey = k)] succeeds, [k] is appended at the end of the Key
    Store, at an index other than 0, and every peer's SpiPair sequence is one
    element longer than before. *)
Theorem updateKeys_add_key (d : driver K) (k : key) :
  keys d <> [] ->
  covers d ->
  key_added d k.
Proof.
  intros Hk Hcov. unfold key_added.
  destruct (rotate_add d k Hcov) as (m' & w' & E & Hm').
  eexists. split; [|split; [|split]].
  - by rewrite updateKeys_add_eq.
  - done.
  - cbn [keys]. split; [|by destruct (keys d)].
    rewrite lookup_app_r by done. by rewrite Nat.sub_diag.
  - intros r n Hn. rewrite Hm', Hn. eexists. split; [done|].
    cbn [node_spi]. rewrite length_app. simpl. lia.
Qed.

Lemma rotate_promote (d : driver K) (i : nat) (k k0 : key) :
  (0 < i)%nat ->
  keys d !! i = Some k ->
  keys d !! 0%nat = Some k0 ->
  mirrors d ->
  exists m' w',
    rotate (bindAddress d) (advertiseAddress d) (-1) (Z.of_nat i) (-1) d
    = Done (None, mkDriver (<[i := k0]> (<[0%nat := k]> (keys d))) m'
                    (bindAddress d) (advertiseAddress d) w')
    /\ forall r, m' !! r
         = (fun n => mkEncrNode
                       (<[i := spiPair (AsSlice (advertiseAddress d)) (AsSlice r) k0]>
                          (<[0%nat := spiPair (AsSlice (advertiseAddress d)) (AsSlice r) k]>
                             (node_spi n)))
                       (node_count n)) <$> secMap d !! r.
Proof.
  intros Hi Hk Hk0 Hmir.
  destruct (rotate_peers (bindAddress d) (advertiseAddress d) (-1) (Z.of_nat i) (-1)
              (fun e => <[i := spiPair (AsSlice (advertiseAddress d)) (AsSlice e.1) k0]>
                          (<[0%nat := spiPair (AsSlice (advertiseAddress d)) (AsSlice e.1) k]>
                             (node_spi e.2)))
              d) as (m' & w' & E & Hm').
  { intros r n Hn. cbn [fst snd]. pose proof (Hmir r n Hn) as Hspi. split.
    - intros Hnil. apply (f_equal length) in Hnil.
      rewrite !length_insert, Hspi, length_fmap in Hnil.
      apply lookup_lt_Some in Hk0. simpl in Hnil. lia.
    - apply updateNodeKey_promote with (kp := k); try done.
      + by rewrite Hspi, list_lookup_fmap, Hk0.
      + by rewrite Hspi, list_lookup_fmap, Hk. }
  exists m', w'. split; [|exact Hm'].
  unfold rotate. unfold bind at 1. unfold get at 1.
  rewrite (bind_Done _ _ _ _ _ E).
  destruct (Z.eqb_spec (Z.of_nat i) (-1)) as [?|_]; [lia|]. cbn [negb].
  match goal with |- bind ?m _ ?s = _ =>
    assert (Eswap : m s = Done (tt, mkDriver (<[i := k0]> (<[0%nat := k]> (keys d))) m'
                                     (bindAddress d) (advertiseAddress d) w'))
  end.
  { unfold bind at 1. unfold get. cbn [keys].
    rewrite (bind_Done _ _ _ _ _ (index_lookup _ _ _ _ Hk)).
    rewrite (bind_Done _ _ _ _ _ (index_lookup _ 0%nat _ _ Hk0)).
    by rewrite Nat2Z.id. }
  by rewrite (bind_Done _ _ _ _ _ Eswap).
Qed.

(** C6 as amended.  In every state that satisfies the PeerState invariant
    (every peer's sequence holds the SpiPairs of the keys, in Key Store
    order) and in which [k] sits at index [i > 0] of the Key Store and no
    other key carries its tag, [updateKeys(primary = k)] succeeds, [k] is at
    index 0 of the Key Store and its SpiPair at index 0 of every peer's
    sequence, and the Key Store and every sequence are as long as before. *)
Theorem updateKeys_promote_key (d : driver K) (i : nat) (k : key) :
  (0 < i)%nat ->
  keys d !! i = Some k ->
  (forall j k', keys d !! j = Some k' -> tag k' = tag k -> j = i) ->
  mirrors d ->
  key_promoted d k.
Proof.
  intros Hi Hk Huniq Hmir. unfold key_promoted.
  destruct (lookup_lt_is_Some_2 (keys d) 0%nat) as [k0 Hk0].
  { apply lookup_lt_Some in Hk. lia. }
  destruct (rotate_promote d i k k0 Hi Hk Hk0 Hmir) as (m' & w' & E & Hm').
  eexists. split; [|split; [|split]].
  - by rewrite (updateKeys_promote_eq d i k Hi Hk Huniq).
  - cbn [keys]. rewrite list_lookup_insert_ne by lia.
    apply list_lookup_insert_eq. apply lookup_lt_Some in Hk0. done.
  - cbn [keys]. by rewrite !length_insert.
  - intros r n Hn. rewrite Hm', Hn. eexists. split; [done|].
    cbn [node_spi]. rewrite !length_insert. split; [|done].
    rewrite list_lookup_insert_ne by lia.
    apply list_lookup_insert_eq.
    rewrite (Hmir r n Hn), length_fmap. apply lookup_lt_Some in Hk0. done.
Qed.

(** C10 (the code departs from it).  A call of [updateKeys] that passes
    validation is specified to index the Key Store and the SpiPair sequences
    in range only, also when it prunes the key at index 0 with no primary
    argument.  The prune step replaces an index of 0 by [priIdx], which is
    -1 when no primary was passed, and slices with it: whenever the first
    key of the Key Store is the only one with its tag, pruning it without a
    primary argument panics, in [updateNodeKey] if there is a peer and in
    [updateKeys] otherwise. *)
Theorem updateKeys_prune_first_panics (d : driver K) (k0 : key) (ks : list key) :
  keys d = k0 :: ks ->
  Forall (fun k' => tag k' <> tag k0) ks ->
  exists p, updateKeys None None (Some k0) d = Panic p.
Proof.
  intros Hk Hno. rewrite updateKeys_eq. cbv zeta. cbn [keys_with newIdx_of].
  replace (with_keys d (keys d)) with d by (by destruct d).
  rewrite scan_no_primary. rewrite Hk. cbn [updateKeys_scan].
  rewrite Z.eqb_refl.
  rewrite scan_prune_absent by (by apply Forall_forall).
  cbn [validation]. unfold validation. cbn.
  unfold rotate. unfold bind at 1. unfold get at 1. unfold bind at 1.
  destruct (forM_ _ _ d) as [[[] d2]|p]; [|by exists p].
  cbn. eexists. reflexivity.
Qed.

(** *** The PeerState invariant is kept

    The calls that succeed keep every peer's sequence the SpiPairs of the
    keys: the rotation relies on it and restores it. *)

Lemma mirrors_covers (d : driver K) : mirrors d -> covers d.
Proof. intros Hmir r n Hn. cbn. by rewrite (Hmir r n Hn), length_fmap. Qed.

Lemma mirrors_setupEncryption (d : driver K) (r : Addr) w' :
  mirrors d -> mirrors (setup_state d r w').
Proof.
  intros Hmir r' n'. cbn [setup_state secMap keys advertiseAddress].
  rewrite lookup_insert. case_decide as E.
  - intros [= <-]. by subst r'.
  - apply Hmir.
Qed.

Lemma mirrors_add_key (d : driver K) (k : key) :
  mirrors d ->
  exists d', updateKeys (Some k) None None d = Done (None, d') /\ mirrors d'.
Proof.
  intros Hmir.
  destruct (rotate_add d k (mirrors_covers d Hmir)) as (m' & w' & E & Hm').
  eexists. split.
  - by rewrite updateKeys_add_eq.
  - intros r n'. cbn [secMap keys advertiseAddress]. rewrite Hm'.
    destruct (secMap d !! r) as [n|] eqn:Hn; [|done]. intros [= <-].
    cbn [node_spi]. by rewrite (Hmir r n Hn), fmap_app.
Qed.

Lemma mirrors_promote_key (d : driver K) (i : nat) (k : key) :
  (0 < i)%nat ->
  keys d !! i = Some k ->
  (forall j k', keys d !! j = Some k' -> tag k' = tag k -> j = i) ->
  mirrors d ->
  exists d', updateKeys None (Some k) None d = Done (None, d') /\ mirrors d'.
Proof.
  intros Hi Hk Huniq Hmir.
  destruct (lookup_lt_is_Some_2 (keys d) 0%nat) as [k0 Hk0].
  { apply lookup_lt_Some in Hk. lia. }
  destruct (rotate_promote d i k k0 Hi Hk Hk0 Hmir) as (m' & w' & E & Hm').
  eexists. split.
  - by rewrite (updateKeys_promote_eq d i k Hi Hk Huniq).
  - intros r n'. cbn [secMap keys advertiseAddress]. rewrite Hm'.
    destruct (secMap d !! r) as [n|] eqn:Hn; [|done]. intros [= <-].
    cbn [node_spi]. by rewrite (Hmir r n Hn), !list_fmap_insert.
Qed.

End RotationClaims.

(** * The properties on the reference kernel *)

(** C7 at a node with one key: the peer [node2] is set up and removed, and
    set up twice and removed once. *)
Lemma setup_remove_refcount_node2 :
  let d := sim_keyed [] [key1] in
  (exists d1 d2,
     setupEncryption node2 d = Done (None, d1)
     /\ removeEncryption node2 d1 = Done (None, d2)
     /\ secMap d2 !! node2 = None
     /\ secMap d2 = secMap d)
  /\ (exists d1 d2 d3 n2,
        setupEncryption node2 d = Done (None, d1)
        /\ setupEncryption node2 d1 = Done (None, d2)
        /\ secMap d2 !! node2 = Some n2
        /\ node_count n2 = 2
        /\ removeEncryption node2 d2 = Done (None, d3)
        /\ secMap d3 !! node2 = Some (mkEncrNode (node_spi n2) 1)
        /\ host d3 = host d2).
Proof.
  apply (setup_remove_refcount (sim_keyed [] [key1]) node2).
  - vm_compute. reflexivity.
  - vm_compute. discriminate.
Defined.

(** C5 at a node with two keys and the peer [node2]: a third key is
    added. *)
Lemma add_key_joined_node :
  key_added (MR:=MapRange_default) (sim_joined [] [key1; key2]) key3.
Proof.
  apply (updateKeys_add_key (sim_joined [] [key1; key2]) key3).
  - vm_compute. discriminate.
  - unfold covers. apply map_Forall_to_list.
    match goal with |- Forall _ ?l =>
      let l' := eval vm_compute in l in change l with l' end.
    constructor; [vm_compute; repeat constructor | constructor].
Defined.

(** C5 as stated fails: after a [removeEncryption] for a peer that was never
    set up the peer has an entry without SpiPairs, and adding a key to the
    non-empty Key Store panics on [spis[newIdx]]. *)
Lemma add_key_stray_entry :
  keys (sim_stray_remove [key1]) <> []
  /\ updateKeys (MR:=MapRange_default) (Some key2) None None (sim_stray_remove [key1])
     = Panic (IndexOutOfRange 1 1)
  /\ ~ key_added (MR:=MapRange_default) (sim_stray_remove [key1]) key2.
Proof.
  split; [vm_compute; discriminate|]. split; [by vm_compute|].
  intros (d' & E & _). vm_compute in E. discriminate.
Qed.

(** C6 at a node with two keys and the peer [node2]: the second key is
    promoted. *)
Lemma promote_key_joined_node :
  key_promoted (MR:=MapRange_default) (sim_joined [] [key1; key2]) key2.
Proof.
  apply (updateKeys_promote_key (sim_joined [] [key1; key2]) 1 key2).
  - lia.
  - vm_compute. reflexivity.
  - intros j k' Hj Ht. vm_compute in Hj.
    destruct j as [|[|j]]; [|reflexivity|discriminate Hj].
    injection Hj as <-. vm_compute in Ht. discriminate Ht.
  - unfold mirrors. apply map_Forall_to_list.
    match goal with |- Forall _ ?l =>
      let l' := eval vm_compute in l in change l with l' end.
    constructor; [vm_compute; reflexivity | constructor].
Defined.

(** C6 as stated fails: with [key2] at index 1 and the entry a stray
    [removeEncryption] left, promoting [key2] panics on [spis[priIdx]]. *)
Lemma promote_key_stray_entry :
  keys (sim_stray_remove [key1; key2]) !! 1%nat = Some key2
  /\ updateKeys (MR:=MapRange_default) None (Some key2) None
       (sim_stray_remove [key1; key2])
     = Panic (IndexOutOfRange 1 0)
  /\ ~ key_promoted (MR:=MapRange_default) (sim_stray_remove [key1; key2]) key2.
Proof.
  split; [vm_compute; reflexivity|]. split; [by vm_compute|].
  intros (d' & E & _). vm_compute in E. discriminate.
Qed.

(** C8 as stated fails: on a kernel that refuses [XfrmPolicyUpdate], the
    promotion of [key2] for the peer [node2] requests the update of the
    policy, which fails, logs the failure and returns no error. *)
Lemma pivot_update_failure_only_logged :
  exists d' sp,
    updateKeys (MR:=MapRange_default) None (Some key2) None
      (sim_joined [OpPolicyUpdate] [key1; key2])
    = Done (None, d')
    /\ omap failure_of_event (trace (host d')) = [FailedUpdate sp EIO]
    /\ logs (host d') = [Warnf_FailedUpdateSP sp EIO].
Proof.
  eexists _, _. split; [|split].
  - vm_compute. reflexivity.
  - vm_compute. reflexivity.
  - vm_compute. reflexivity.
Qed.

(** C10 at a node with two keys and no peer: the first key is pruned. *)
Lemma prune_first_key_two_keys :
  exists p, updateKeys (MR:=MapRange_default) None None (Some key1)
              (sim_keyed [] [key1; key2]) = Panic p.
Proof.
  apply (updateKeys_prune_first_panics (sim_keyed [] [key1; key2]) key1 [key2]).
  - vm_compute. reflexivity.
  - repeat constructor. vm_compute. discriminate.
Defined.

(** C4 on an empty kernel, with two keys: the requests [setupEncryption]
    makes for the peer [node2].  Each object is looked up and, as it is not
    there, added: the reverse and the forward state and the policy of the
    first key, the reverse state of the second. *)
Example setup_requests_two_keys :
  let s1 := spiPair (AsSlice node1) (AsSlice node2) key1 in
  let s2 := spiPair (AsSlice node1) (AsSlice node2) key2 in
  (fun ev : nlevent => (req_op ev.1, req_spis ev.1, ev.2))
    <$> trace (host (sim_joined [] [key1; key2]))
  = [ (OpPolicyList, [], None); (OpStateList, [], None);
      (OpStateGet, [spi_reverse s1], Some ESRCH);
      (OpStateAdd, [spi_reverse s1], None);
      (OpStateGet, [spi_forward s1], Some ESRCH);
      (OpStateAdd, [spi_forward s1], None);
      (OpPolicyGet, [spi_forward s1], Some ENOENT);
      (OpPolicyAdd, [spi_forward s1], None);
      (OpStateGet, [spi_reverse s2], Some ESRCH);
      (OpStateAdd, [spi_reverse s2], None) ].
Proof. vm_compute. reflexivity. Qed.

(** The promotion of [key2] after it: the forward state of [key2] is added,
    the policy is updated in place, the forward state of [key1] is removed,
    and the SpiPairs of the peer change places. *)
Example promote_requests_two_keys :
  let s1 := spiPair (AsSlice node1) (AsSlice node2) key1 in
  let s2 := spiPair (AsSlice node1) (AsSlice node2) key2 in
  exists d',
    updateKeys (MR:=MapRange_default) None (Some key2) None
      (sim_joined [] [key1; key2]) = Done (None, d')
    /\ (fun ev : nlevent => (req_op ev.1, req_spis ev.1, ev.2))
         <$> drop 10 (trace (host d'))
       = [ (OpStateGet, [spi_forward s2], Some ESRCH);
           (OpStateAdd, [spi_forward s2], None);
           (OpPolicyUpdate, [spi_forward s2], None);
           (OpStateGet, [spi_forward s1], None);
           (OpStateDel, [spi_forward s1], None) ]
    /\ keys d' = [key2; key1]
    /\ secMap d' !! node2 = Some (mkEncrNode [s2; s1] 1).
Proof.
  eexists. split; [vm_compute; reflexivity|].
  split; [vm_compute; reflexivity|]. split; vm_compute; reflexivity.
Qed.

(** C6: the key looked up by tag is the last one carrying it.  With [key2]
    at index 1 and another key with its tag behind it, the promotion of
    [key2] succeeds and puts the other key first. *)
Lemma promote_key_duplicate_tag :
  keys (sim_joined [] [key1; key2; key2']) !! 1%nat = Some key2
  /\ (exists d',
        updateKeys (MR:=MapRange_default) None (Some key2) None
          (sim_joined [] [key1; key2; key2']) = Done (None, d')
        /\ keys d' = [key2'; key2; key1])
  /\ ~ key_promoted (MR:=MapRange_default) (sim_joined [] [key1; key2; key2']) key2.
Proof.
  split; [vm_compute; reflexivity|]. split.
  - eexists. split; vm_compute; reflexivity.
  - intros (d' & E & H0 & _). vm_compute in E. injection E as <-.
    vm_compute in H0. discriminate.
Qed.

(** C10: the panic is the slice expression of the prune step, in
    [updateKeys] when there is no peer and in [updateNodeKey] when there is
    one. *)
Example prune_first_key_slice_bounds :
  updateKeys (MR:=MapRange_default) None None (Some key1) (sim_keyed [] [key1; key2])
  = Panic (SliceBoundsOutOfRange (-1) 2)
  /\ updateKeys (MR:=MapRange_default) None None (Some key1) (sim_joined [] [key1; key2])
     = Panic (SliceBoundsOutOfRange (-1) 2).
Proof. split; vm_compute; reflexivity. Qed.

(** C1: the entry a stray [removeEncryption] leaves. *)
Example stray_remove_entry :
  secMap (sim_stray_remove [key1]) !! node2 = Some (mkEncrNode [] (-1)).
Proof. vm_compute. reflexivity. Qed.

(** * Further properties of the code *)

(** ** Bytes, hashes and addresses *)

Lemma testbit_byte (x n : Z) :
  Z.testbit (Z.land x 255) n = (n <? 8) && Z.testbit x n.
Proof.
  change 255 with (Z.ones 8). rewrite Z.land_ones by lia.
  apply Z.testbit_mod_pow2. lia.
Qed.

Lemma Uint32_PutUint32 (v : Z) : Uint32 (PutUint32 v) = Some (uint32 v).
Proof.
  unfold Uint32, PutUint32, uint32. f_equal.
  apply Z.bits_inj'. intros n Hn.
  rewrite Z.testbit_mod_pow2 by lia.
  rewrite !Z.lor_spec.
  destruct (Z.ltb_spec n 8).
  { rewrite !(Z.shiftl_spec_low) by lia. rewrite testbit_byte.
    destruct (Z.ltb_spec n 8), (Z.ltb_spec n 32); try lia.
    by rewrite !orb_false_r. }
  destruct (Z.ltb_spec n 16).
  { rewrite (Z.shiftl_spec_low _ 16), (Z.shiftl_spec_low _ 24) by lia.
    rewrite Z.shiftl_spec by lia. rewrite !testbit_byte.
    rewrite Z.shiftr_spec by lia.
    destruct (Z.ltb_spec n 8), (Z.ltb_spec (n - 8) 8), (Z.ltb_spec n 32); try lia.
    cbn. rewrite !orb_false_r. f_equal. lia. }
  destruct (Z.ltb_spec n 24).
  { rewrite (Z.shiftl_spec_low _ 24) by lia.
    rewrite !Z.shiftl_spec by lia. rewrite !testbit_byte.
    rewrite !Z.shiftr_spec by lia.
    destruct (Z.ltb_spec n 8), (Z.ltb_spec (n - 8) 8), (Z.ltb_spec (n - 16) 8),
      (Z.ltb_spec n 32); try lia.
    cbn. rewrite !orb_false_r. f_equal. lia. }
  rewrite !Z.shiftl_spec by lia. rewrite !testbit_byte.
  rewrite !Z.shiftr_spec by lia.
  destruct (Z.ltb_spec n 8), (Z.ltb_spec (n - 8) 8), (Z.ltb_spec (n - 16) 8),
    (Z.ltb_spec (n - 24) 8), (Z.ltb_spec n 32); try lia.
  cbn. f_equal. lia.
Qed.

Lemma fnv32a_write_app (h : Z) (a b : list byte) :
  fnv32a_write (fnv32a_write h a) b = fnv32a_write h (a ++ b).
Proof. unfold fnv32a_write. by rewrite fold_left_app. Qed.

Lemma fnv32a_write_range (h : Z) (bs : list byte) :
  0 <= h < 2 ^ 32 -> 0 <= fnv32a_write h bs < 2 ^ 32.
Proof.
  revert h. induction bs as [|c bs IH]; intros h Hh; [done|].
  cbn [fnv32a_write fold_left]. apply IH. unfold uint32.
  apply Z.mod_pos_bound. lia.
Qed.

Lemma buildSPI_range (src dst : IP) (st : Z) : 0 <= buildSPI src dst st < 2 ^ 32.
Proof.
  unfold buildSPI. cbv zeta. do 3 apply fnv32a_write_range.
  unfold fnv32a_offset. lia.
Qed.

(** X1.  The SPI [buildSPI] returns is the 32-bit FNV-1a hash of the source
    address, the four bytes of the tag (most significant first) and the
    destination address, in this order, read back from the big-endian sum of
    the hash: a value below 2^32, which the conversion to [int] and a later
    conversion to [uint32] leave as it is. *)
Theorem buildSPI_sum (src dst : IP) (st : Z) :
  let h := fnv32a_write fnv32a_offset (src ++ PutUint32 st ++ dst) in
  Uint32 (fnv32a_Sum h []) = Some (buildSPI src dst st)
  /\ 0 <= buildSPI src dst st < 2 ^ 32
  /\ int_wrap (buildSPI src dst st) = buildSPI src dst st
  /\ uint32 (buildSPI src dst st) = buildSPI src dst st.
Proof.
  intros h. pose proof (buildSPI_range src dst st) as Hr.
  assert (Eh : h = buildSPI src dst st).
  { unfold h, buildSPI. cbv zeta. by rewrite !fnv32a_write_app. }
  split; [|split; [done|split]].
  - rewrite Eh. change (fnv32a_Sum ?x []) with (PutUint32 x).
    rewrite Uint32_PutUint32. f_equal. unfold uint32. apply Z.mod_small. done.
  - apply int_wrap_small. lia.
  - unfold uint32. by apply Z.mod_small.
Qed.

Section AeadClaims.
Context {K : Type} {NL : Netlink K}.

(** X2.  [buildAeadAlgo] panics on a nil key.  On any other key it returns,
    changing nothing, an algorithm whose key material is the value of the
    key followed by four bytes of salt: the salt decodes, most significant
    byte first, to the SPI truncated to 32 bits, which for an SPI made by
    [buildSPI] is the SPI itself. *)
Theorem buildAeadAlgo_salted_key (k : option key) (s : Z) (w : world K) :
  match k with
  | None => buildAeadAlgo k s w = Panic NilDereference
  | Some k' =>
      exists a,
        buildAeadAlgo k s w = Done (a, w)
        /\ length (algo_Key a) = (length (value k') + 4)%nat
        /\ take (length (value k')) (algo_Key a) = value k'
        /\ Uint32 (drop (length (value k')) (algo_Key a)) = Some (uint32 s)
        /\ (forall src dst st, s = buildSPI src dst st ->
            Uint32 (drop (length (value k')) (algo_Key a)) = Some s)
  end.
Proof.
  destruct k as [k'|]; [|done]. eexists. split; [reflexivity|].
  cbn [algo_Key]. rewrite length_app, take_app_length, drop_app_length.
  rewrite Uint32_PutUint32. repeat split; try done.
  - unfold uint32. by rewrite Z.mod_mod.
  - intros src dst st ->. unfold uint32. rewrite Z.mod_mod by done.
    f_equal. apply Z.mod_small. apply buildSPI_range.
Qed.

End AeadClaims.

Lemma To4_length (ip ip4 : IP) : To4 ip = Some ip4 -> length ip4 = 4%nat.
Proof.
  unfold To4. destruct (decide (length ip = 4%nat)) as [H4|_]; [by intros [= <-]|].
  destruct (decide (length ip = 16%nat)) as [H16|_]; [|done].
  destruct (bool_decide _); [|done]. intros [= <-]. rewrite length_drop. lia.
Qed.

Lemma To4_four (ip : IP) : length ip = 4%nat -> To4 ip = Some ip.
Proof. intros H. unfold To4. by rewrite decide_True. Qed.

(** X3.  [getMinimalIP] is idempotent and never lengthens an address.  An
    address of 4 bytes, and one that has neither 4 nor 16 bytes (nil
    included), comes back unchanged; an address of 16 bytes is cut to its
    last 4 bytes exactly when it starts with the IPv4-mapped prefix. *)
Theorem getMinimalIP_shortest (ip : IP) :
  getMinimalIP (getMinimalIP ip) = getMinimalIP ip
  /\ (length (getMinimalIP ip) <= length ip)%nat
  /\ (length ip = 4%nat -> getMinimalIP ip = ip)
  /\ (length ip = 16%nat -> take 12 ip = v4InV6Prefix -> getMinimalIP ip = drop 12 ip)
  /\ (length ip = 16%nat -> take 12 ip <> v4InV6Prefix -> getMinimalIP ip = ip)
  /\ (length ip <> 4%nat -> length ip <> 16%nat -> getMinimalIP ip = ip).
Proof.
  assert (Hmin : forall ip : IP,
            getMinimalIP ip = match To4 ip with Some ip4 => ip4 | None => ip end).
  { intros [|b l]; [done|done]. }
  rewrite !Hmin. repeat split.
  - destruct (To4 ip) as [ip4|] eqn:E; [|by rewrite E].
    by rewrite (To4_four ip4 (To4_length _ _ E)).
  - destruct (To4 ip) as [ip4|] eqn:E; [|done].
    rewrite (To4_length _ _ E). unfold To4 in E.
    destruct (decide (length ip = 4%nat)) as [H4|_]; [lia|].
    destruct (decide (length ip = 16%nat)) as [H16|_]; [lia|done].
  - intros H. by rewrite To4_four.
  - intros H16 Hpre. unfold To4. rewrite decide_False by lia.
    rewrite decide_True by done. by rewrite bool_decide_eq_true_2.
  - intros H16 Hpre. unfold To4. rewrite decide_False by lia.
    rewrite decide_True by done. by rewrite bool_decide_eq_false_2.
  - intros H4 H16. unfold To4. by rewrite !decide_False.
Qed.

Lemma CIDRMask_full (l : nat) :
  CIDRMask (8 * Z.of_nat l) (8 * Z.of_nat l)
  = if bool_decide (l = 4%nat \/ l = 16%nat) then replicate l 255 else [].
Proof.
  destruct (decide (l = 4%nat)) as [->|H4]; [done|].
  destruct (decide (l = 16%nat)) as [->|H16]; [done|].
  rewrite bool_decide_eq_false_2 by lia. unfold CIDRMask.
  destruct (Z.eqb_spec (8 * Z.of_nat l) 32) as [?|_]; [lia|].
  destruct (Z.eqb_spec (8 * Z.of_nat l) 128) as [?|_]; [lia|]. done.
Qed.

(** X4.  The outbound policy built by [programSP] and by the pivot of
    [updateNodeKey] selects on the shortest forms of the two addresses of
    the forward state, both under one mask, made from the length of the
    shortest source: all ones over that length (a host route) when it is 4
    or 16, and no mask at all otherwise.  The template keeps the addresses
    as the state has them, and the policy passes the test by which
    [clearEncryptionStates] recognises the driver's policies. *)
Theorem outboundPolicy_host_selectors (port : Z) (fsa : XfrmState) :
  let p := outboundPolicy port fsa in
  let s := getMinimalIP (sa_Src fsa) in
  net_IP (sp_Src p) = s
  /\ net_IP (sp_Dst p) = getMinimalIP (sa_Dst fsa)
  /\ net_Mask (sp_Dst p) = net_Mask (sp_Src p)
  /\ net_Mask (sp_Src p)
     = (if bool_decide (length s = 4%nat \/ length s = 16%nat)
        then replicate (length s) 255 else [])
  /\ (tmpl_Src <$> sp_Tmpls p) = [sa_Src fsa]
  /\ (tmpl_Dst <$> sp_Tmpls p) = [sa_Dst fsa]
  /\ stale_sp p = true.
Proof.
  intros p s. unfold p, outboundPolicy. cbn [sp_Src sp_Dst net_IP net_Mask sp_Tmpls].
  fold s. repeat split; try done. apply CIDRMask_full.
Qed.

Lemma sub_rem_quot (a : Z) :
  a - Z.rem a 4 = 4 * Z.quot a 4
  /\ Z.abs (4 * Z.quot a 4) <= Z.abs a < Z.abs (4 * Z.quot a 4) + 4.
Proof.
  pose proof (Z.quot_rem' a 4) as Hqr.
  assert (Hr : (0 <= a -> 0 <= Z.rem a 4 < 4) /\ (a <= 0 -> - 4 < Z.rem a 4 <= 0)).
  { split; intros H.
    - apply Z.rem_bound_pos; lia.
    - exact (Z.rem_bound_pos_neg a 4 ltac:(lia) H). }
  revert Hqr Hr. generalize (Z.rem a 4). generalize (Z.quot a 4). intros q r Hqr Hr.
  lia.
Qed.

(** X5.  For every configured link MTU (0 standing for 1500) and every
    encapsulation overhead, both within 2^61, [maxMTU] without encryption is
    the MTU minus the overhead; with encryption it is that value minus 26,
    rounded to a multiple of 4 toward zero (Go's [%] truncates): never
    further from zero than the value, and less than 4 away from it.  Nothing
    keeps the result positive. *)
Theorem maxMTU_rounds_toward_zero (vxlanEncap : Z) (n : network) :
  - 2 ^ 61 <= vxlanEncap <= 2 ^ 61 ->
  - 2 ^ 61 <= mtu n <= 2 ^ 61 ->
  let plain := (if mtu n =? 0 then 1500 else mtu n) - vxlanEncap in
  maxMTU vxlanEncap n = (if secure n then 4 * Z.quot (plain - 26) 4 else plain)
  /\ (secure n = true ->
      Z.abs (maxMTU vxlanEncap n) <= Z.abs (plain - 26) < Z.abs (maxMTU vxlanEncap n) + 4).
Proof.
  intros Hv Hm plain.
  assert (Hplain : - 2 ^ 63 + 26 + 4 <= plain < 2 ^ 63 - 4).
  { unfold plain. destruct (mtu n =? 0); lia. }
  destruct (sub_rem_quot (plain - 26)) as [Hsub Habs].
  assert (E : maxMTU vxlanEncap n
              = if secure n then 4 * Z.quot (plain - 26) 4 else plain).
  { unfold maxMTU. cbv zeta.
    replace (if negb (mtu n =? 0) then mtu n else 1500)
      with (if mtu n =? 0 then 1500 else mtu n) by (by destruct (mtu n =? 0)).
    fold plain. rewrite (int_wrap_small plain) by lia.
    destruct (secure n); [|done]. unfold pktExpansion.
    rewrite (int_wrap_small (plain - 26)) by lia.
    rewrite Hsub. apply int_wrap_small.
    revert Habs. generalize (Z.quot (plain - 26) 4). intros q Habs. lia. }
  split; [exact E|]. intros Hs. by rewrite E, Hs.
Qed.

Lemma EncodeToString_length (src : list byte) :
  String.length (EncodeToString src) = (2 * length src)%nat.
Proof. induction src as [|v rest IH]; [done|]. cbn. rewrite IH. lia. Qed.

(** X6.  [key.String] of a nil key is the empty string.  On a key whose
    value has fewer than 3 bytes the slice [[0:5]] of the hexadecimal form
    is out of range, and the call panics.  On every other key it returns a
    string that depends on the tag and on the first three bytes of the value
    only. *)
Theorem key_String_prefix :
  key_String None = Done ""
  /\ (forall k : key, (length (value k) < 3)%nat ->
        key_String (Some k)
        = Panic (SliceBoundsOutOfRange 5 (2 * length (value k))))
  /\ (forall k : key, (3 <= length (value k))%nat ->
        exists s, key_String (Some k) = Done s
                  /\ key_String (Some (mkKey (take 3 (value k)) (tag k))) = Done s).
Proof.
  split; [done|]. split.
  - intros [v t] Hv. cbn [value] in *. unfold key_String, slice_string. cbn [value].
    rewrite EncodeToString_length.
    destruct (Nat.leb_spec 5 (2 * length v)) as [?|_]; [lia|]. done.
  - intros [v t] Hv. cbn [value tag] in *.
    destruct v as [|b0 [|b1 [|b2 rest]]]; cbn in Hv; try lia.
    eexists. split; reflexivity.
Qed.

(** ** The requests of the transform primitives *)

Section TransformClaims.
Context {K : Type} {NL : Netlink K}.

(** X7.  Whatever the kernel answers, [programSA] returns (when it adds, it
    must be given a key).  For the reverse and then the forward direction,
    each if [dir] asks for it, it builds the state, with the mark as Reqid
    and, when adding, the salted key; looks the state up; and requests the
    change exactly when it is wanted: an addition whenever the lookup failed,
    with ESRCH or with any other error, a removal unless the lookup answered
    ESRCH.  It requests nothing else, and hands back nil for a direction not
    asked for.  The error it returns is that of the forward lookup if that
    failed with an error other than ESRCH, else that of the reverse
    lookup. *)
Theorem programSA_requests localIP remoteIP (s : spi) (k : option key) (dir : Z)
    (add : bool) (w : world K) :
  key_given k add ->
  exists fSAp rSAp lastErr w' evr evf fr ff,
    programSA localIP remoteIP s k dir add w = Done (fSAp, rSAp, lastErr, w')
    /\ trace w' = trace w ++ evr ++ evf
    /\ sa_requests add (Z.land dir reverse >? 0) remoteIP localIP
         (spi_reverse s) k rSAp fr evr
    /\ sa_requests add (Z.land dir forward >? 0) localIP remoteIP
         (spi_forward s) k fSAp ff evf
    /\ lastErr = match ff ≫= lookup_error ESRCH ErrSAExistence with
                 | Some e => Some e
                 | None => fr ≫= lookup_error ESRCH ErrSAExistence
                 end.
Proof.
  intros Hk.
  destruct (returns_programSA localIP remoteIP s k dir add Hk w)
    as ([[fSAp rSAp] lastErr] & w' & E & _).
  destruct (requests_programSA _ _ _ _ _ _ _ _ _ E)
    as (evs & T & evr & evf & fr & ff & -> & Hr & Hf & He).
  exists fSAp, rSAp, lastErr, w', evr, evf, fr, ff. done.
Qed.

(** X8.  [programSP] panics on a nil forward state.  On any other it returns
    nil, whatever the kernel answers: it looks the outbound policy up and
    requests the change exactly when it is wanted, an addition whenever the
    lookup failed, a removal unless the lookup answered ENOENT, and nothing
    else.  An error of the lookup is not returned. *)
Theorem programSP_requests (fSAp rSAp : option XfrmState) (add : bool) (w : world K) :
  match fSAp with
  | None => programSP fSAp rSAp add w = Panic NilDereference
  | Some fsa =>
      let sp := outboundPolicy (VXLANUDPPort (kern w)) fsa in
      exists w' found evs,
        programSP fSAp rSAp add w = Done (None, w')
        /\ trace w' = trace w ++ evs
        /\ programmed add ENOENT (ReqPolicyGet sp)
             (if add then ReqPolicyAdd sp else ReqPolicyDel sp) found evs
  end.
Proof.
  destruct fSAp as [fsa|]; [|done]. intros sp.
  destruct (returns_programSP (Some fsa) rSAp add (mk_is_Some _ _ eq_refl) w)
    as (x & w' & E & ->).
  destruct (programSP_Done _ _ _ _ _ _ E) as (_ & found & evs & T & Hp).
  by exists w', found, evs.
Qed.

(** X9.  Two nodes that hold the same key derive matching states without
    exchanging anything, whatever addresses they are bound to: the forward
    state node A programs for its peer B has the SPI and the salted key of
    the reverse state B programs for A, and the other way round.  When each
    node is bound to the address it advertises, the states are equal as a
    whole, addresses included. *)
Theorem peers_derive_matching_states (bindA advA bindB advB : IP) (k : key)
    (wA wB : world K) :
  exists fA rA eA wA' fB rB eB wB',
    programSA bindA advB (spiPair advA advB k) (Some k) bidir true wA
    = Done (Some fA, Some rA, eA, wA')
    /\ programSA bindB advA (spiPair advB advA k) (Some k) bidir true wB
       = Done (Some fB, Some rB, eB, wB')
    /\ sa_Spi fA = sa_Spi rB /\ sa_Aead fA = sa_Aead rB
    /\ sa_Spi rA = sa_Spi fB /\ sa_Aead rA = sa_Aead fB
    /\ (bindA = advA -> bindB = advB -> fA = rB /\ rA = fB).
Proof.
  destruct (returns_programSA bindA advB (spiPair advA advB k) (Some k) bidir true
              (key_given_Some _ _) wA) as ([[fA rA] eA] & wA' & EA & _).
  destruct (returns_programSA bindB advA (spiPair advB advA k) (Some k) bidir true
              (key_given_Some _ _) wB) as ([[fB rB] eB] & wB' & EB & _).
  destruct (programSA_bidir_states _ _ _ _ _ _ _ _ EA) as [HfA HrA].
  destruct (programSA_bidir_states _ _ _ _ _ _ _ _ EB) as [HfB HrB].
  cbn [fst snd] in *. subst fA rA fB rB.
  eexists _, _, eA, wA', _, _, eB, wB'. split; [exact EA|]. split; [exact EB|].
  split; [done|]. split; [done|]. split; [done|]. split; [done|].
  by intros -> ->.
Qed.

End TransformClaims.

(** ** What the driver asks of the kernel *)

Section OnlyFacts.
Context {K : Type} {NL : Netlink K} {MR : MapRange}.
Variable ok : nlreq -> Prop.

Lemma only_requests_of {St A} (view : St -> world K) (m : ST St A)
    (Q : A -> list nlevent -> Prop) :
  requests view m Q ->
  (forall a evs, Q a evs -> Forall (fun ev : nlevent => ok ev.1) evs) ->
  only_requests view m ok.
Proof. intros Hm HQ. eapply requests_conseq; [exact Hm|exact HQ]. Qed.

Lemma only_requests_ret {St A} (view : St -> world K) (a : A) :
  only_requests view (ret a) ok.
Proof. by apply requests_ret. Qed.

Lemma only_requests_raise {St A} (view : St -> world K) p :
  only_requests view (raise (A:=A) p) ok.
Proof. apply requests_raise. Qed.

Lemma only_requests_unchanged {St A} (view : St -> world K) (m : ST St A) :
  (forall s a s', m s = Done (a, s') -> view s' = view s) ->
  only_requests view m ok.
Proof. intros Hm. apply requests_unchanged. intros s a s' E. split; [eauto|done]. Qed.

Lemma only_requests_bind {St A B} (view : St -> world K) (m : ST St A)
    (k : A -> ST St B) :
  only_requests view m ok -> (forall a, only_requests view (k a) ok) ->
  only_requests view (bind m k) ok.
Proof.
  intros Hm Hk. eapply requests_bind; [exact Hm|exact Hk|].
  intros a b e1 e2 H1 H2. by apply Forall_app.
Qed.

Lemma only_requests_if {St A} (view : St -> world K) (b : bool) (m1 m2 : ST St A) :
  only_requests view m1 ok -> only_requests view m2 ok ->
  only_requests view (if b then m1 else m2) ok.
Proof. by destruct b. Qed.

Lemma only_requests_index {St A} (view : St -> world K) (l : list A) i :
  only_requests view (index l i) ok.
Proof.
  unfold index. destruct (i <? 0); [apply only_requests_raise|].
  destruct (l !! Z.to_nat i); [apply only_requests_ret|apply only_requests_raise].
Qed.

Lemma only_requests_remove_at {St A} (view : St -> world K) (l : list A) i :
  only_requests view (remove_at l i) ok.
Proof.
  unfold remove_at. destruct (_ || _); [apply only_requests_raise|apply only_requests_ret].
Qed.

Lemma only_requests_forM_ {St A} (view : St -> world K) (l : list A)
    (body : A -> ST St unit) :
  (forall x, only_requests view (body x) ok) -> only_requests view (forM_ l body) ok.
Proof.
  intros Hb. induction l as [|x l IH]; cbn [forM_]; [apply only_requests_ret|].
  apply only_requests_bind; [apply Hb|]. intros _. apply IH.
Qed.

Lemma only_requests_warn_if (e : option error) :
  only_requests (K:=K) id (warn_if e) ok.
Proof. by apply requests_warn_if. Qed.

Lemma only_requests_liftW {A} (m : ST (world K) A) :
  only_requests id m ok -> only_requests host (liftW m) ok.
Proof. apply requests_liftW. Qed.

Lemma only_requests_get {St} (view : St -> world K) : only_requests view get ok.
Proof. apply only_requests_unchanged. by intros s ? s' [= _ ->]. Qed.

Lemma only_requests_set_keys (ks : list key) :
  only_requests (K:=K) host (set_keys ks) ok.
Proof. apply only_requests_unchanged. by intros d ? d' [= _ <-]. Qed.

Lemma only_requests_set_secMap (m : encrMap) :
  only_requests (K:=K) host (set_secMap m) ok.
Proof. apply only_requests_unchanged. by intros d ? d' [= _ <-]. Qed.

Lemma programmed_Forall add absent get change found evs :
  ok get -> ok change -> programmed add absent get change found evs ->
  Forall (fun ev : nlevent => ok ev.1) evs.
Proof.
  intros Hg Hc. unfold programmed.
  destruct (change_wanted _ _ _); [intros [e ->]|intros ->]; repeat constructor; done.
Qed.

Lemma sa_requests_Forall (add : bool) wanted src dst spiv k sap found evs :
  (forall sa, sa_Reqid sa = mark ->
     ok (ReqStateGet sa) /\ ok (if add then ReqStateAdd sa else ReqStateDel sa)) ->
  sa_requests add wanted src dst spiv k sap found evs ->
  Forall (fun ev : nlevent => ok ev.1) evs.
Proof.
  intros Hok. unfold sa_requests. destruct wanted.
  - intros (_ & f & _ & Hp).
    destruct (Hok (sa_built src dst spiv k add) eq_refl) as [Hg Hc].
    exact (programmed_Forall _ _ _ _ _ _ Hg Hc Hp).
  - by intros (_ & _ & ->).
Qed.

Lemma only_requests_programSA localIP remoteIP s k dir (add : bool) :
  (forall sa, sa_Reqid sa = mark ->
     ok (ReqStateGet sa) /\ ok (if add then ReqStateAdd sa else ReqStateDel sa)) ->
  only_requests id (programSA localIP remoteIP s k dir add) ok.
Proof.
  intros Hok. eapply only_requests_of; [apply requests_programSA|].
  intros x evs (evr & evf & fr & ff & -> & Hr & Hf & _).
  apply Forall_app. split; by eapply sa_requests_Forall.
Qed.

Lemma only_requests_programSP fSAp rSAp (add : bool) :
  (forall sp, sp_Mark sp = Some spMark ->
     ok (ReqPolicyGet sp) /\ ok (if add then ReqPolicyAdd sp else ReqPolicyDel sp)) ->
  only_requests id (programSP fSAp rSAp add) ok.
Proof.
  intros Hok. destruct fSAp as [fsa|]; [|apply only_requests_raise].
  eapply only_requests_of; [apply requests_programSP|].
  intros x evs (_ & port & found & Hp). cbv zeta in Hp.
  destruct (Hok (outboundPolicy port fsa) eq_refl) as [Hg Hc].
  exact (programmed_Forall _ _ _ _ _ _ Hg Hc Hp).
Qed.

Lemma only_requests_setupEncryption (r : Addr) :
  (forall sa, sa_Reqid sa = mark -> ok (ReqStateGet sa) /\ ok (ReqStateAdd sa)) ->
  (forall sp, sp_Mark sp = Some spMark -> ok (ReqPolicyGet sp) /\ ok (ReqPolicyAdd sp)) ->
  only_requests host (setupEncryption r) ok.
Proof.
  intros Hsa Hsp.
  assert (Hloop : forall localIP advIP remoteIP ks i acc,
            only_requests id (setupEncryption_loop localIP advIP remoteIP i ks acc) ok).
  { intros localIP advIP remoteIP ks.
    induction ks as [|k ks IH]; intros i acc; cbn [setupEncryption_loop].
    - apply only_requests_ret.
    - apply only_requests_bind; [by apply only_requests_programSA|]. intros x.
      apply only_requests_bind; [apply only_requests_warn_if|]. intros _.
      apply only_requests_bind; [|intros; apply IH].
      apply only_requests_if; [apply only_requests_ret|].
      apply only_requests_bind;
        [by apply only_requests_programSP|intros; apply only_requests_warn_if]. }
  unfold setupEncryption. apply only_requests_bind; [apply only_requests_get|].
  intros d. destruct (decide _); [apply only_requests_ret|].
  apply only_requests_bind; [apply only_requests_liftW, Hloop|]. intros indices.
  apply only_requests_bind; [apply only_requests_get|]. intros d'.
  apply only_requests_bind; [apply only_requests_set_secMap|].
  intros; apply only_requests_ret.
Qed.

Lemma only_requests_removeEncryption (r : Addr) :
  (forall sa, sa_Reqid sa = mark -> ok (ReqStateGet sa) /\ ok (ReqStateDel sa)) ->
  (forall sp, sp_Mark sp = Some spMark -> ok (ReqPolicyGet sp) /\ ok (ReqPolicyDel sp)) ->
  only_requests host (removeEncryption r) ok.
Proof.
  intros Hsa Hsp.
  assert (Hloop : forall localIP remoteIP spis i,
            only_requests id (removeEncryption_loop localIP remoteIP i spis) ok).
  { intros localIP remoteIP spis.
    induction spis as [|s spis IH]; intros i; cbn [removeEncryption_loop].
    - apply only_requests_ret.
    - apply only_requests_bind; [by apply only_requests_programSA|]. intros x.
      apply only_requests_bind; [apply only_requests_warn_if|]. intros _.
      apply only_requests_bind; [|intros; apply IH].
      apply only_requests_if; [apply only_requests_ret|].
      apply only_requests_bind;
        [by apply only_requests_programSP|intros; apply only_requests_warn_if]. }
  unfold removeEncryption. apply only_requests_bind; [apply only_requests_get|].
  intros d. apply only_requests_bind.
  { apply only_requests_if;
      (apply only_requests_bind;
         [apply only_requests_set_secMap|intros; apply only_requests_ret]). }
  intros spis.
  apply only_requests_bind; [apply only_requests_liftW, Hloop|].
  intros; apply only_requests_ret.
Qed.

Lemma only_requests_updateNodeKey lIP aIP rIP idxs curKeys newIdx priIdx delIdx :
  (forall sa, sa_Reqid sa = mark ->
     ok (ReqStateGet sa) /\ ok (ReqStateAdd sa) /\ ok (ReqStateDel sa)) ->
  (forall sp, sp_Mark sp = Some spMark -> ok (ReqPolicyUpdate sp)) ->
  only_requests id (updateNodeKey lIP aIP rIP idxs curKeys newIdx priIdx delIdx) ok.
Proof.
  intros Hsa Hsp.
  assert (Hadd : forall l r s k dir, only_requests id (programSA l r s k dir true) ok).
  { intros. apply only_requests_programSA. intros sa H.
    destruct (Hsa sa H) as (? & ? & ?). done. }
  assert (Hdel : forall l r s k dir, only_requests id (programSA l r s k dir false) ok).
  { intros. apply only_requests_programSA. intros sa H.
    destruct (Hsa sa H) as (? & ? & ?). done. }
  unfold updateNodeKey.
  apply only_requests_bind.
  { apply only_requests_if; [|apply only_requests_ret].
    apply only_requests_bind; [apply only_requests_index|intros; apply only_requests_ret]. }
  intros spis. apply only_requests_bind.
  { apply only_requests_if; [|apply only_requests_ret].
    apply only_requests_bind; [apply only_requests_index|]. intros s.
    apply only_requests_bind; [apply Hdel|intros; apply only_requests_ret]. }
  intros _. apply only_requests_bind.
  { apply only_requests_if; [|apply only_requests_ret].
    apply only_requests_bind; [apply only_requests_index|]. intros s.
    apply only_requests_bind; [apply only_requests_index|]. intros k.
    apply only_requests_bind; [apply Hadd|intros; apply only_requests_ret]. }
  intros _. apply only_requests_bind.
  { apply only_requests_if; [|apply only_requests_ret].
    apply only_requests_bind; [apply only_requests_index|]. intros s.
    apply only_requests_bind; [apply only_requests_index|]. intros k.
    apply only_requests_bind; [apply Hadd|]. intros x.
    destruct x.1.1 as [fSA2|]; [|apply only_requests_raise].
    apply only_requests_bind; [by apply only_requests_unchanged; intros w ? w' [= _ ->]|].
    intros port.
    apply only_requests_bind.
    { eapply only_requests_of; [apply requests_nl|].
      intros e evs ->. repeat constructor. by apply Hsp. }
    intros err. apply only_requests_bind.
    { destruct err; [by apply requests_log_warn|apply only_requests_ret]. }
    intros _. apply only_requests_bind; [apply only_requests_index|]. intros s0.
    apply only_requests_bind; [apply Hdel|intros; apply only_requests_ret]. }
  intros _. apply only_requests_bind.
  { apply only_requests_if; [|apply only_requests_ret].
    apply only_requests_bind; [apply only_requests_index|]. intros swp.
    apply only_requests_bind; [apply only_requests_index|intros; apply only_requests_ret]. }
  intros spis'. apply only_requests_bind; [|intros; apply only_requests_ret].
  apply only_requests_if; [apply only_requests_remove_at|apply only_requests_ret].
Qed.

Lemma only_requests_updateKeys newKey primary pruneKey :
  (forall sa, sa_Reqid sa = mark ->
     ok (ReqStateGet sa) /\ ok (ReqStateAdd sa) /\ ok (ReqStateDel sa)) ->
  (forall sp, sp_Mark sp = Some spMark -> ok (ReqPolicyUpdate sp)) ->
  only_requests host (updateKeys newKey primary pruneKey) ok.
Proof.
  intros Hsa Hsp.
  unfold updateKeys. apply only_requests_bind; [apply only_requests_get|]. intros d.
  apply only_requests_bind.
  { destruct newKey; [|apply only_requests_ret].
    apply only_requests_bind; [apply only_requests_set_keys|intros; apply only_requests_ret]. }
  intros newIdx. apply only_requests_bind; [apply only_requests_get|]. intros d'.
  cbv zeta. apply only_requests_if; [apply only_requests_ret|].
  apply only_requests_if; [apply only_requests_ret|].
  apply only_requests_bind.
  { apply only_requests_forM_. intros e. unfold updateKeys_peer.
    apply only_requests_bind; [apply only_requests_get|]. intros d1.
    apply only_requests_bind;
      [by apply only_requests_liftW, only_requests_updateNodeKey|].
    intros [|s l]; [apply only_requests_ret|apply only_requests_set_secMap]. }
  intros _. apply only_requests_bind.
  { apply only_requests_if; [|apply only_requests_ret].
    apply only_requests_bind; [apply only_requests_get|]. intros d2.
    apply only_requests_bind; [apply only_requests_index|]. intros kp.
    apply only_requests_bind; [apply only_requests_index|]. intros k0.
    apply only_requests_set_keys. }
  intros _. apply only_requests_bind; [|intros; apply only_requests_ret].
  apply only_requests_if; [|apply only_requests_ret].
  apply only_requests_bind; [apply only_requests_get|]. intros d2.
  apply only_requests_bind; [apply only_requests_remove_at|]. intros ks.
  apply only_requests_set_keys.
Qed.

End OnlyFacts.

Section OnlyClaims.
Context {K : Type} {NL : Netlink K} {MR : MapRange}.

Lemma uses_state ops (sa : XfrmState) (req : XfrmState -> nlreq) :
  sa_Reqid sa = mark -> req_op (req sa) ∈ ops -> carries_mark (req sa) = stale_sa sa ->
  uses ops (req sa).
Proof.
  intros Hm Hop Hc. split; [done|]. rewrite Hc. unfold stale_sa. rewrite Hm.
  apply Z.eqb_refl.
Qed.

Lemma uses_policy ops (sp : XfrmPolicy) (req : XfrmPolicy -> nlreq) :
  sp_Mark sp = Some spMark -> req_op (req sp) ∈ ops ->
  carries_mark (req sp) = stale_sp sp -> uses ops (req sp).
Proof.
  intros Hm Hop Hc. split; [done|]. rewrite Hc. unfold stale_sp. rewrite Hm.
  apply Z.eqb_refl.
Qed.

(** X10.  Whenever [setupEncryption] returns, every request it made to the
    kernel was the lookup or the addition of a state or of a policy that
    carries the mark: it removes nothing, updates nothing and lists
    nothing. *)
Theorem setupEncryption_only_adds (r : Addr) :
  only_requests (K:=K) host (setupEncryption r)
    (uses [OpStateGet; OpStateAdd; OpPolicyGet; OpPolicyAdd]).
Proof.
  apply only_requests_setupEncryption.
  - intros sa H. split; apply (uses_state _ sa); try done; cbn; repeat constructor.
  - intros sp H. split; apply (uses_policy _ sp); try done; cbn; repeat constructor.
Qed.

(** X11.  Whenever [removeEncryption] returns, every request it made to the
    kernel was the lookup or the removal of a state or of a policy that
    carries the mark: it adds nothing, updates nothing and lists nothing. *)
Theorem removeEncryption_only_removes (r : Addr) :
  only_requests (K:=K) host (removeEncryption r)
    (uses [OpStateGet; OpStateDel; OpPolicyGet; OpPolicyDel]).
Proof.
  apply only_requests_removeEncryption.
  - intros sa H. split; apply (uses_state _ sa); try done; cbn; repeat constructor.
  - intros sp H. split; apply (uses_policy _ sp); try done; cbn; repeat constructor.
Qed.

(** X12.  Whenever [updateKeys] returns, every request it made to the kernel
    was the lookup, the addition or the removal of a state that carries the
    mark, or the update of a policy that carries it: a rotation neither
    looks up, adds nor removes a policy, so the outbound policy of a peer is
    only ever switched in place. *)
Theorem updateKeys_only_updates_policy newKey primary pruneKey :
  only_requests host (updateKeys newKey primary pruneKey)
    (uses [OpStateGet; OpStateAdd; OpStateDel; OpPolicyUpdate]).
Proof.
  apply only_requests_updateKeys.
  - intros sa H. split; [|split]; apply (uses_state _ sa); try done;
      cbn; repeat constructor.
  - intros sp H. apply (uses_policy _ sp); try done; cbn; repeat constructor.
Qed.

End OnlyClaims.

(** ** Teardown and the reference count *)

Section TeardownFacts.
Context {K : Type} {NL : Netlink K}.

Lemma requests_looks_up {St A} (view : St -> world K) (m : ST St A) xs :
  requests view m (fun _ evs => omap lookup_target evs = xs) -> looks_up view m xs.
Proof.
  intros Hm s a s' E. destruct (Hm _ _ _ E) as (evs & -> & <-). apply omap_app.
Qed.

Lemma omap_programmed get change x (add : bool) absent found evs :
  lookup_target (get, found) = Some x ->
  (forall e, lookup_target (change, e) = None) ->
  programmed add absent get change found evs ->
  omap lookup_target evs = [x].
Proof.
  intros Hg Hc. unfold programmed.
  destruct (change_wanted _ _ _); [intros [e ->]|intros ->]; cbn [omap list_omap].
  - change (lookup_target (get, found)) with (lookup_target (get, found)).
    by rewrite Hg, Hc.
  - by rewrite Hg.
Qed.

Lemma omap_sa_requests (add wanted : bool) src dst spiv k sap found evs :
  sa_requests add wanted src dst spiv k sap found evs ->
  omap lookup_target evs = if wanted then [TState src dst spiv] else [].
Proof.
  unfold sa_requests. destruct wanted.
  - intros (_ & f & _ & Hp). eapply omap_programmed; [| |exact Hp]; [done|].
    by destruct add.
  - by intros (_ & _ & ->).
Qed.

Lemma warn_if_trace (e : option error) (w w' : world K) a :
  warn_if e w = Done (a, w') -> trace w' = trace w.
Proof. destruct e; by intros [= _ <-]. Qed.

Lemma requests_removeEncryption_loop localIP remoteIP spis :
  forall i, 0 <= i ->
  requests id (removeEncryption_loop localIP remoteIP i spis)
    (fun _ evs =>
       omap lookup_target evs
       = if i =? 0 then teardown_targets localIP remoteIP spis
         else (fun s => TState remoteIP localIP (spi_reverse s)) <$> spis).
Proof.
  induction spis as [|s spis IH]; intros i Hi; cbn [removeEncryption_loop].
  { apply requests_ret. by destruct (i =? 0). }
  intros w a w' E. cbn [id].
  apply bind_inv in E as (x & w1 & Ex & E).
  destruct (requests_programSA _ _ _ _ _ _ _ _ _ Ex)
    as (evs1 & T1 & evr & evf & fr & ff & -> & Hr & Hf & _).
  apply omap_sa_requests in Hr as Or. apply omap_sa_requests in Hf as Of.
  apply bind_inv in E as ([] & w2 & Ew & E). apply warn_if_trace in Ew.
  apply bind_inv in E as ([] & w3 & Ep & E).
  destruct (IH (i + 1) ltac:(lia) _ _ _ E) as (evs3 & T3 & H3). cbn [id] in *.
  destruct (Z.eqb_spec (i + 1) 0) as [?|_]; [lia|].
  destruct (Z.eqb_spec i 0) as [->|Hne]; cbn [negb] in Ep.
  - change (Z.land bidir reverse >? 0) with true in *.
    change (Z.land bidir forward >? 0) with true in *.
    destruct Hf as (Hfsa & _). rewrite Hfsa in Ep.
    apply bind_inv in Ep as (err & w4 & Ep & Ew2). apply warn_if_trace in Ew2.
    destruct (programSP_Done _ _ _ _ _ _ Ep) as (_ & found & evs2 & T2 & Hp).
    eapply omap_programmed in Hp; [| |by destruct found]; [|reflexivity].
    exists ((evr ++ evf) ++ evs2 ++ evs3).
    split; [by rewrite T3, Ew2, T2, Ew, T1, <- !app_assoc|].
    rewrite !omap_app, Or, Of, Hp, H3. reflexivity.
  - change (Z.land reverse reverse >? 0) with true in *.
    change (Z.land reverse forward >? 0) with false in *.
    injection Ep as <-.
    exists ((evr ++ evf) ++ evs3).
    split; [by rewrite T3, Ew, T1, <- !app_assoc|].
    rewrite !omap_app, Or, Of, H3. reflexivity.
Qed.

Lemma teardown_setup_targets localIP advIP remoteIP (ks : list key) :
  teardown_targets localIP remoteIP (spiPair advIP remoteIP <$> ks)
  = setup_targets localIP advIP remoteIP ks.
Proof.
  destruct ks as [|k0 rest]; [done|].
  cbn [fmap list_fmap teardown_targets setup_targets primary_targets].
  do 3 f_equal. induction rest as [|k rest IH]; [done|].
  cbn [fmap list_fmap concat secondary_targets app]. by rewrite <- IH.
Qed.

End TeardownFacts.

Section RefcountFacts.
Context {K : Type} {NL : Netlink K} {MR : MapRange}.

Lemma liftW_inv {A} (m : ST (world K) A) (d d' : driver K) a :
  liftW m d = Done (a, d') ->
  exists w, m (host d) = Done (a, w)
            /\ d' = mkDriver (keys d) (secMap d) (bindAddress d) (advertiseAddress d) w.
Proof.
  unfold liftW. destruct (m (host d)) as [[a' w]|]; [|done].
  intros [= <- <-]. by exists w.
Qed.

(** The last user of a peer leaves: what is sent to the kernel is the
    teardown of the peer's SpiPairs. *)
Lemma removeEncryption_last_loop (d : driver K) (r : Addr) :
  node_count (secMap_get (secMap d) r) = 1 ->
  removeEncryption r d
  = match removeEncryption_loop (AsSlice (bindAddress d)) (AsSlice r) 0
            (node_spi (secMap_get (secMap d) r)) (host d) with
    | Done (_, w') =>
        Done (None, mkDriver (keys d) (delete r (secMap d)) (bindAddress d)
                      (advertiseAddress d) w')
    | Panic p => Panic p
    end.
Proof.
  intros Hc. unfold removeEncryption. unfold bind at 1. unfold get at 1.
  rewrite Hc. change (1 =? 1) with true. cbv iota.
  unfold bind, set_secMap, ret, liftW. cbn [host keys secMap bindAddress advertiseAddress].
  by destruct (removeEncryption_loop _ _ _ _ _) as [[[] w']|].
Qed.

Lemma updateKeys_peer_inv lIP aIP ni pi di (e : Addr * encrNode) (d d' : driver K) :
  updateKeys_peer lIP aIP ni pi di e d = Done (tt, d') ->
  keys d' = keys d /\ bindAddress d' = bindAddress d
  /\ advertiseAddress d' = advertiseAddress d
  /\ (secMap d' = secMap d
      \/ exists idxs, secMap d' = <[e.1 := mkEncrNode idxs (node_count e.2)]> (secMap d)).
Proof.
  intros E. unfold updateKeys_peer in E.
  apply bind_inv in E as (d0 & d1 & [= <- <-] & E).
  apply bind_inv in E as (idxs & d2 & (w & _ & ->)%liftW_inv & E).
  destruct idxs as [|s l]; injection E as <-; cbn; [by auto|].
  repeat split; try done. right. by eexists.
Qed.

Lemma updateKeys_loop_counts lIP aIP ni pi di (m0 : encrMap) l :
  (forall e, e ∈ l -> m0 !! e.1 = Some e.2) ->
  forall d d' : driver K,
  (forall r, node_count <$> secMap d !! r = node_count <$> m0 !! r) ->
  forM_ l (updateKeys_peer lIP aIP ni pi di) d = Done (tt, d') ->
  (forall r, node_count <$> secMap d' !! r = node_count <$> m0 !! r)
  /\ keys d' = keys d /\ bindAddress d' = bindAddress d
  /\ advertiseAddress d' = advertiseAddress d.
Proof.
  induction l as [|e l IH]; intros Hl d d' Hinv E; cbn [forM_] in E.
  { by injection E as <-. }
  apply bind_inv in E as ([] & d1 & E1 & E).
  apply updateKeys_peer_inv in E1 as (Hk & Hb & Ha & Hm).
  destruct (IH (fun e' He' => Hl e' (list_elem_of_further _ _ _ He')) d1 d') as (H1 & H2 & H3 & H4);
    [|done|].
  - intros r. destruct Hm as [->|[idxs ->]]; [done|].
    destruct (decide (r = e.1)) as [->|Hne].
    + rewrite lookup_insert_eq, (Hl e (list_elem_of_here _ _)). done.
    + by rewrite lookup_insert_ne.
  - repeat split; [done|congruence..].
Qed.

Lemma updateKeys_counts newKey primary pruneKey (d d' : driver K) e :
  updateKeys newKey primary pruneKey d = Done (e, d') ->
  (forall r, node_count <$> secMap d' !! r = node_count <$> secMap d !! r)
  /\ bindAddress d' = bindAddress d
  /\ advertiseAddress d' = advertiseAddress d.
Proof.
  rewrite updateKeys_eq. cbv zeta.
  destruct (validation _ _ _ _ _ _) as [err|]; [by intros [= _ <-]|].
  generalize (updateKeys_scan primary pruneKey 0
                (keys (with_keys d (keys_with (keys d) newKey))) (-1) (-1)).
  set (d1 := with_keys d (keys_with (keys d) newKey)).
  intros idx E. unfold rotate in E.
  apply bind_inv in E as (d0 & d1' & [= <- <-] & E).
  apply bind_inv in E as ([] & d2 & Eloop & E).
  apply (updateKeys_loop_counts _ _ _ _ _ (secMap d1)) in Eloop
    as (Hc & _ & Hb & Ha); [| |done].
  2:{ intros [r n] He. by apply elem_of_range in He. }
  apply bind_inv in E as ([] & d3 & Eswap & E).
  assert (H3 : secMap d3 = secMap d2 /\ bindAddress d3 = bindAddress d2
               /\ advertiseAddress d3 = advertiseAddress d2).
  { destruct (negb (idx.1 =? -1)); [|by injection Eswap as <-].
    apply bind_inv in Eswap as (d0 & ? & [= <- <-] & Eswap).
    apply bind_inv in Eswap as (kp & ? & (-> & _)%index_inv & Eswap).
    apply bind_inv in Eswap as (k0 & ? & (-> & _)%index_inv & Eswap).
    by injection Eswap as <-. }
  destruct H3 as (Hm3 & Hb3 & Ha3).
  apply bind_inv in E as ([] & d4 & Eprune & E). injection E as _ <-.
  assert (H4 : secMap d4 = secMap d3 /\ bindAddress d4 = bindAddress d3
               /\ advertiseAddress d4 = advertiseAddress d3).
  { destruct (negb (idx.2 =? -1)); [|by injection Eprune as <-].
    apply bind_inv in Eprune as (d0 & ? & [= <- <-] & Eprune).
    apply bind_inv in Eprune as (ks & ? & (-> & _)%remove_at_inv & Eprune).
    by injection Eprune as <-. }
  destruct H4 as (Hm4 & Hb4 & Ha4).
  rewrite Hm4, Hm3, Hb4, Hb3, Ha4, Ha3. done.
Qed.

End RefcountFacts.

Section CleanupFacts.
Context {K : Type} {NL : Netlink K}.

Lemma forM__ext {St A} (l : list A) (f g : A -> ST St unit) :
  (forall x s, f x s = g x s) -> forall s, forM_ l f s = forM_ l g s.
Proof.
  intros H. induction l as [|x l IH]; intros s; cbn [forM_]; [done|].
  unfold bind. rewrite H. destruct (g x s) as [[[] s']|]; [apply IH|done].
Qed.

(** A loop that removes the elements passing a test. *)
Lemma stale_loop {A} (p : A -> bool) (mk : A -> nlreq) (line : A -> errno -> logmsg)
    (l : list A) :
  forall w : world K,
  exists w',
    forM_ l (fun x => if p x
                      then err <- nl (mk x) ;;
                           match err with
                           | Some e => log_warn (line x e)
                           | None => ret tt
                           end
                      else ret tt) w = Done (tt, w')
    /\ (trace w').*1 = (trace w).*1 ++ (mk <$> List.filter p l).
Proof.
  induction l as [|x l IH]; intros w; cbn [forM_ List.filter].
  { exists w. by rewrite app_nil_r. }
  destruct (p x) eqn:Hp.
  - unfold bind at 1. unfold bind at 1. unfold nl at 1.
    destruct (perform (mk x) (kern w)) as [e k'].
    set (w1 := mkWorld k' (logs w) (trace w ++ [(mk x, e)])).
    assert (Hlog : exists w2, (match e with
                               | Some e0 => log_warn (line x e0)
                               | None => ret tt
                               end) w1 = Done (tt, w2) /\ trace w2 = trace w1).
    { destruct e; by eexists. }
    destruct Hlog as (w2 & -> & T2). destruct (IH w2) as (w' & E & T).
    exists w'. split; [done|]. rewrite T, T2. cbn [w1 trace].
    rewrite fmap_app. cbn. by rewrite <- app_assoc.
  - unfold bind at 1. cbn [ret]. apply IH.
Qed.

Lemma clearEncryptionStates_Done (w : world K) :
  let pl := XfrmPolicyList (kern w) in
  let sl := XfrmStateList pl.2 in
  exists w',
    clearEncryptionStates w = Done (tt, w')
    /\ (trace w').*1
       = (trace w).*1 ++ [ReqPolicyList; ReqStateList]
         ++ (ReqPolicyDel <$> List.filter stale_sp pl.1.1)
         ++ (ReqStateDel <$> List.filter stale_sa sl.1.1).
Proof.
  intros pl sl. unfold clearEncryptionStates.
  unfold bind at 1. unfold nl_PolicyList at 1.
  subst sl pl. destruct (XfrmPolicyList (kern w)) as [[sps e1] k1]. cbn [fst snd].
  set (w1 := mkWorld k1 (logs w) (trace w ++ [(ReqPolicyList, e1)])).
  assert (Hl1 : exists w2, (match e1 with
                            | Some e => log_warn (Warnf_ListSP e)
                            | None => ret tt
                            end) w1 = Done (tt, w2)
                /\ trace w2 = trace w1 /\ kern w2 = k1).
  { destruct e1; by eexists. }
  destruct Hl1 as (w2 & El1 & T2 & K2). rewrite (bind_Done _ _ _ _ _ El1).
  unfold bind at 1. unfold nl_StateList at 1. rewrite K2.
  destruct (XfrmStateList k1) as [[sas e2] k2]. cbn [fst snd].
  set (w3 := mkWorld k2 (logs w2) (trace w2 ++ [(ReqStateList, e2)])).
  assert (Hl2 : exists w4, (match e2 with
                            | Some e => log_warn (Warnf_ListSA e)
                            | None => ret tt
                            end) w3 = Done (tt, w4) /\ trace w4 = trace w3).
  { destruct e2; by eexists. }
  destruct Hl2 as (w4 & El2 & T4). rewrite (bind_Done _ _ _ _ _ El2).
  destruct (stale_loop stale_sp ReqPolicyDel Warnf_StaleSP sps w4) as (w5 & E5 & T5).
  destruct (stale_loop stale_sa ReqStateDel Warnf_StaleSA sas w5) as (w6 & E6 & T6).
  exists w6. split.
  - erewrite bind_Done; [exact E6|].
    rewrite <- E5. apply forM__ext. intros sp s. unfold stale_sp.
    by destruct (sp_Mark sp).
  - rewrite T6, T5, T4. cbn [w3 trace]. rewrite T2. cbn [w1 trace].
    rewrite !fmap_app. cbn. by rewrite <- !app_assoc.
Qed.

End CleanupFacts.

Section RefcountClaims.
Context {K : Type} {NL : Netlink K} {MR : MapRange}.

(** X13.  In every state [removeEncryption] returns nil and touches the
    entry of its peer only: the keys, the addresses and all other entries
    stay.  If the count of the entry was 1 the entry is deleted.  Otherwise
    (the count is another number, or the peer has no entry and the zero node
    is read) the count is decremented and stored with the SpiPairs as they
    were, and the kernel, the log and the history are untouched. *)
Theorem removeEncryption_refcount (d : driver K) (r : Addr) :
  let n := secMap_get (secMap d) r in
  exists d',
    removeEncryption r d = Done (None, d')
    /\ keys d' = keys d /\ bindAddress d' = bindAddress d
    /\ advertiseAddress d' = advertiseAddress d
    /\ (forall r', r' <> r -> secMap d' !! r' = secMap d !! r')
    /\ (if decide (node_count n = 1)
        then secMap d' !! r = None
        else secMap d' !! r
             = Some (mkEncrNode (node_spi n) (int_wrap (node_count n - 1)))
             /\ host d' = host d).
Proof.
  intros n. destruct (decide (node_count n = 1)) as [Hc|Hc].
  - destruct (removeEncryption_last d r Hc) as (w' & E).
    eexists. split; [exact E|]. cbn. repeat split.
    + intros r' Hr'. by apply lookup_delete_ne.
    + apply lookup_delete_eq.
  - eexists. split; [exact (removeEncryption_other d r Hc)|]. cbn. repeat split.
    + intros r' Hr'. by apply lookup_insert_ne.
    + apply lookup_insert_eq.
Qed.

(** X14.  When the last user of a peer leaves, [removeEncryption] deletes
    the entry, and the objects it looks up in the kernel are those of the
    teardown of the peer's SpiPairs: for the first pair the SA of both
    directions and the outbound SP, for every other pair the reverse SA, in
    this order.  If the pairs are those of the Key Store, as
    [setupEncryption] stored them, these are the objects [setupEncryption]
    looked up, in the same order. *)
Theorem removeEncryption_last_user (d : driver K) (r : Addr) (n : encrNode) :
  secMap d !! r = Some n ->
  node_count n = 1 ->
  exists w',
    removeEncryption r d
    = Done (None, mkDriver (keys d) (delete r (secMap d)) (bindAddress d)
                    (advertiseAddress d) w')
    /\ omap lookup_target (trace w')
       = omap lookup_target (trace (host d))
         ++ teardown_targets (AsSlice (bindAddress d)) (AsSlice r) (node_spi n)
    /\ (node_spi n = spiPair (AsSlice (advertiseAddress d)) (AsSlice r) <$> keys d ->
        teardown_targets (AsSlice (bindAddress d)) (AsSlice r) (node_spi n)
        = setup_targets (AsSlice (bindAddress d)) (AsSlice (advertiseAddress d))
            (AsSlice r) (keys d)).
Proof.
  intros Hn Hc.
  assert (Hget : secMap_get (secMap d) r = n) by (unfold secMap_get; by rewrite Hn).
  rewrite removeEncryption_last_loop by (by rewrite Hget). rewrite Hget.
  destruct (returns_removeEncryption_loop (AsSlice (bindAddress d)) (AsSlice r)
              (node_spi n) 0 (host d)) as ([] & w' & E & _).
  rewrite E. exists w'. split; [done|]. split.
  - destruct (requests_removeEncryption_loop _ _ _ 0 ltac:(lia) _ _ _ E)
      as (evs & T & H). cbn [id] in T. rewrite T, omap_app. by rewrite H.
  - intros ->. apply teardown_setup_targets.
Qed.

(** X15.  [setKeys] returns nil whatever the kernel answers, installs the
    keys, empties the Peer Security Map and leaves the addresses.  Its
    requests are the list of the policies, the list of the states, and then
    one removal for every listed policy whose mark has the driver's value
    and one for every listed state whose Reqid is the mark, in list order,
    policies first; nothing that fails the test is removed.  Both lists are
    read before the first removal. *)
Theorem setKeys_cleanup (ks : list key) (d : driver K) :
  let pl := XfrmPolicyList (kern (host d)) in
  let sl := XfrmStateList pl.2 in
  exists d',
    setKeys ks d = Done (None, d')
    /\ keys d' = ks
    /\ secMap d' = ∅
    /\ bindAddress d' = bindAddress d
    /\ advertiseAddress d' = advertiseAddress d
    /\ (trace (host d')).*1
       = (trace (host d)).*1 ++ [ReqPolicyList; ReqStateList]
         ++ (ReqPolicyDel <$> List.filter stale_sp pl.1.1)
         ++ (ReqStateDel <$> List.filter stale_sa sl.1.1).
Proof.
  intros pl sl. destruct (clearEncryptionStates_Done (host d)) as (w' & E & T).
  eexists. split.
  - unfold setKeys. rewrite (bind_Done _ _ _ _ _ (liftW_Done _ _ _ _ E)). reflexivity.
  - cbn. done.
Qed.

(** X16.  Whenever [updateKeys] returns, with or without an error, every
    peer has the count it had, no peer was added to or dropped from the Peer
    Security Map, and the two addresses of the node are unchanged. *)
Theorem updateKeys_keeps_counts newKey primary pruneKey (d d' : driver K) e :
  updateKeys newKey primary pruneKey d = Done (e, d') ->
  (forall r, node_count <$> secMap d' !! r = node_count <$> secMap d !! r)
  /\ dom (secMap d') = dom (secMap d)
  /\ bindAddress d' = bindAddress d
  /\ advertiseAddress d' = advertiseAddress d.
Proof.
  intros E. destruct (updateKeys_counts _ _ _ _ _ _ E) as (Hc & Hb & Ha).
  repeat split; try done.
  apply set_eq. intros r. rewrite !elem_of_dom.
  specialize (Hc r). destruct (secMap d' !! r), (secMap d !! r); cbn in Hc;
    split; intros [? ?]; try done; by eexists.
Qed.

(** X17.  The intended calls keep the counts of the Peer Security Map at 1
    or more: from a state where every entry has a count between 1 and the
    largest [int], [removeEncryption] for a peer that has an entry,
    [setupEncryption] for any peer (with a key to program, and room to
    count one more user), any [updateKeys] that returns and any [setKeys]
    lead to such a state again. *)
Theorem refcount_invariant (d : driver K) :
  well_counted d ->
  (forall r, is_Some (secMap d !! r) ->
     exists d', removeEncryption r d = Done (None, d') /\ well_counted d')
  /\ (forall r, keys d <> [] -> node_count (secMap_get (secMap d) r) < 2 ^ 63 - 1 ->
        exists d', setupEncryption r d = Done (None, d') /\ well_counted d')
  /\ (forall newKey primary pruneKey e d',
        updateKeys newKey primary pruneKey d = Done (e, d') -> well_counted d')
  /\ (forall ks, exists d', setKeys ks d = Done (None, d') /\ well_counted d').
Proof.
  intros Hwc. split; [|split; [|split]].
  - intros r [n Hn]. pose proof (Hwc r n Hn) as Hc. cbn in Hc.
    assert (Hget : secMap_get (secMap d) r = n) by (unfold secMap_get; by rewrite Hn).
    destruct (decide (node_count n = 1)) as [H1|H1].
    + destruct (removeEncryption_last d r) as (w' & E); [by rewrite Hget|].
      eexists. split; [exact E|]. unfold well_counted. cbn [secMap].
      by apply map_Forall_delete.
    + eexists. split; [apply removeEncryption_other; by rewrite Hget|].
      unfold well_counted. cbn [secMap]. apply map_Forall_insert_2; [|done].
      rewrite Hget. cbn [node_count]. rewrite int_wrap_small; lia.
  - intros r Hk Hmax. destruct (setupEncryption_Done d r Hk) as (w' & _ & E).
    eexists. split; [exact E|]. unfold well_counted. cbn [setup_state secMap].
    apply map_Forall_insert_2; [|done]. cbn [node_count].
    assert (0 <= node_count (secMap_get (secMap d) r)).
    { unfold secMap_get. destruct (secMap d !! r) as [n|] eqn:Hn; cbn; [|done].
      pose proof (Hwc r n Hn) as Hc. cbn in Hc. lia. }
    rewrite int_wrap_small; lia.
  - intros newKey primary pruneKey e d' E.
    destruct (updateKeys_counts _ _ _ _ _ _ E) as (Hc & _).
    intros r n' Hn'. specialize (Hc r). rewrite Hn' in Hc.
    destruct (secMap d !! r) as [n|] eqn:Hn; [|done].
    injection Hc as Hc. cbn. rewrite Hc. exact (Hwc r n Hn).
  - intros ks. destruct (clearEncryptionStates_Done (host d)) as (w' & E & _).
    eexists. split.
    + unfold setKeys. rewrite (bind_Done _ _ _ _ _ (liftW_Done _ _ _ _ E)). reflexivity.
    + unfold well_counted. cbn [secMap]. apply map_Forall_empty.
Qed.

(** X28.  A removal for a peer that has no entry costs the peer its
    teardown.  With a non-empty Key Store: the removal records the count
    -1, the next [setupEncryption] programs the peer and brings the count
    to 0 only, and the [removeEncryption] that should then take the states
    out again finds a count other than 1, makes no request to the kernel
    and leaves the count at -1. *)
Theorem stray_removal_leaks (d : driver K) (r : Addr) :
  secMap d !! r = None ->
  keys d <> [] ->
  exists d1 d2 d3,
    removeEncryption r d = Done (None, d1)
    /\ setupEncryption r d1 = Done (None, d2)
    /\ secMap d2 !! r
       = Some (mkEncrNode (spiPair (AsSlice (advertiseAddress d)) (AsSlice r) <$> keys d) 0)
    /\ removeEncryption r d2 = Done (None, d3)
    /\ secMap d3 !! r
       = Some (mkEncrNode (spiPair (AsSlice (advertiseAddress d)) (AsSlice r) <$> keys d)
                 (-1))
    /\ host d3 = host d2.
Proof.
  intros Hr Hk.
  assert (Hget : secMap_get (secMap d) r = encrNode_zero).
  { unfold secMap_get. by rewrite Hr. }
  pose proof (removeEncryption_other d r) as E1. rewrite Hget in E1.
  specialize (E1 ltac:(done)). cbn [encrNode_zero node_spi node_count] in E1.
  change (int_wrap (0 - 1)) with (-1) in E1.
  set (d1 := mkDriver (keys d) (<[r := mkEncrNode [] (-1)]> (secMap d)) (bindAddress d)
               (advertiseAddress d) (host d)) in *.
  destruct (setupEncryption_Done d1 r Hk) as (w2 & _ & E2).
  assert (Hn2 : secMap (setup_state d1 r w2) !! r
                = Some (mkEncrNode
                          (spiPair (AsSlice (advertiseAddress d)) (AsSlice r) <$> keys d) 0)).
  { cbn [setup_state secMap d1 keys advertiseAddress]. rewrite lookup_insert_eq.
    unfold secMap_get. by rewrite lookup_insert_eq. }
  pose proof (removeEncryption_other (setup_state d1 r w2) r) as E3.
  unfold secMap_get in E3 at 1. rewrite Hn2 in E3. specialize (E3 ltac:(done)).
  exists d1, (setup_state d1 r w2). eexists.
  split; [exact E1|]. split; [exact E2|]. split; [exact Hn2|]. split; [exact E3|].
  split; [|done]. cbn [secMap]. rewrite lookup_insert_eq.
  unfold secMap_get. by rewrite Hn2.
Qed.

End RefcountClaims.

(** ** Rotation *)

Lemma scan_swap primary pruneKey ks :
  forall i p q,
  (updateKeys_scan primary pruneKey i ks p q).2
  = (updateKeys_scan pruneKey primary i ks q p).1.
Proof.
  induction ks as [|k ks IH]; intros i p q; cbn [updateKeys_scan]; [done|]. apply IH.
Qed.

Lemma scan_primary_last (k : key) pruneKey ks :
  forall i p q,
  let r := (updateKeys_scan (Some k) pruneKey i ks p q).1 in
  (r = p /\ Forall (fun k' => tag k' <> tag k) ks)
  \/ (exists (n : nat) k', r = i + Z.of_nat n /\ ks !! n = Some k' /\ tag k' = tag k
        /\ forall (m : nat) k'', ks !! m = Some k'' -> tag k'' = tag k -> (m <= n)%nat).
Proof.
  induction ks as [|k1 ks IH]; intros i p q; cbn [updateKeys_scan]; [by left|].
  cbv zeta.
  match goal with |- context [updateKeys_scan _ _ _ _ ?p' ?q'] =>
    destruct (IH (i + 1) p' q') as [[Hr Hno]|(n & k' & Hr & Hn & Ht & Hlast)] end.
  - rewrite Hr. destruct (Z.eqb_spec (tag k1) (tag k)) as [E|E].
    + right. exists 0%nat, k1. split; [lia|]. split; [done|]. split; [done|].
      intros [|m] k'' Hm Hk''; [lia|]. cbn in Hm.
      rewrite Forall_forall in Hno. exfalso. eapply Hno; [|done].
      by eapply list_elem_of_lookup_2.
    + left. split; [done|]. by constructor.
  - right. exists (S n), k'. split; [lia|]. split; [done|]. split; [done|].
    intros [|m] k'' Hm Hk''; [lia|]. cbn in Hm. specialize (Hlast m k'' Hm Hk''). lia.
Qed.

Lemma scan_same_tag (k k' : key) ks :
  tag k = tag k' ->
  forall i p, (updateKeys_scan (Some k) (Some k') i ks p p).1
              = (updateKeys_scan (Some k) (Some k') i ks p p).2.
Proof.
  intros Ht. induction ks as [|k1 ks IH]; intros i p; cbn [updateKeys_scan]; [done|].
  rewrite <- Ht. destruct (tag k1 =? tag k); apply IH.
Qed.

Lemma exchanged_fmap {A B} (f : A -> B) (l : list A) (p : nat) :
  exchanged (f <$> l) p = f <$> exchanged l p.
Proof.
  unfold exchanged. rewrite !list_lookup_fmap.
  destruct (l !! 0%nat), (l !! p); cbn; [|done..].
  by rewrite !list_fmap_insert.
Qed.

Lemma rotated_fmap {A B} (f : A -> B) (l : list A) (p q : Z) :
  rotated (f <$> l) p q = f <$> rotated l p q.
Proof.
  unfold rotated. cbv zeta. rewrite exchanged_fmap.
  destruct (p >? 0), (q =? -1); try done; by rewrite list_fmap_delete.
Qed.

Lemma exchanged_length {A} (l : list A) (p : nat) : length (exchanged l p) = length l.
Proof.
  unfold exchanged. destruct (l !! 0%nat), (l !! p); try done.
  by rewrite !length_insert.
Qed.

Section RotationFacts2.
Context {K : Type} {NL : Netlink K} {MR : MapRange}.

Lemma returns_index_Z {St A} (l : list A) (i : Z) :
  0 <= i < Z.of_nat (length l) ->
  returns (St:=St) (index l i) (fun y => l !! Z.to_nat i = Some y).
Proof.
  intros Hi. destruct (lookup_lt_is_Some_2 l (Z.to_nat i)) as [x Hx]; [lia|].
  intros s. exists x, s. split; [|done].
  rewrite <- (Z2Nat.id i) at 1 by lia. by apply index_lookup.
Qed.

Lemma returns_remove_at {St A} (l : list A) (i : Z) :
  0 <= i < Z.of_nat (length l) ->
  returns (St:=St) (remove_at l i) (fun x => x = delete (Z.to_nat i) l).
Proof.
  intros Hi s. unfold remove_at.
  destruct (Z.ltb_spec i 0), (Z.leb_spec (Z.of_nat (length l)) i); try lia.
  cbn. eexists _, s. split; [done|]. by rewrite delete_take_drop.
Qed.

(** What [updateNodeKey] hands back when its indices are in range: the
    sequence with the new SpiPair appended, rotated. *)
Lemma updateNodeKey_rotated lIP aIP rIP idxs curKeys (nk : option key)
    (newIdx priIdx delIdx : Z) :
  let spis1 := idxs ++ match nk with
                       | Some k => [spiPair aIP rIP k]
                       | None => []
                       end in
  newIdx = match nk with Some _ => Z.of_nat (length idxs) | None => -1 end ->
  (forall k, nk = Some k -> curKeys !! length idxs = Some k) ->
  length curKeys = length spis1 ->
  priIdx = -1 \/ 0 <= priIdx < Z.of_nat (length spis1) ->
  delIdx = -1 \/ 0 <= delIdx < Z.of_nat (length spis1) ->
  (delIdx = 0 -> priIdx <> -1) ->
  returns (updateNodeKey (K:=K) lIP aIP rIP idxs curKeys newIdx priIdx delIdx)
          (fun x => x = rotated spis1 priIdx delIdx).
Proof.
  intros spis1 Hnew Hnk Hlen Hpri Hdel Hfirst. unfold updateNodeKey.
  (* add new *)
  eapply returns_bind with (P := fun x => x = spis1).
  { unfold spis1. destruct nk as [k|]; subst newIdx.
    - destruct (Z.eqb_spec (Z.of_nat (length idxs)) (-1)) as [?|_]; [lia|]. cbn [negb].
      eapply returns_bind; [apply returns_index; by apply Hnk|].
      intros ? ->. by apply returns_ret.
    - change (-1 =? -1) with true. cbn [negb]. apply returns_ret. by rewrite app_nil_r. }
  intros ? ->.
  (* -rSA0 *)
  eapply returns_bind with (P := fun _ => True).
  { destruct (Z.eqb_spec delIdx (-1)) as [?|Hd]; cbn [negb]; [by apply returns_ret|].
    eapply returns_bind; [apply returns_index_Z; lia|]. intros s _.
    apply returns_programSA_any. auto with returns. }
  intros _ _.
  (* +rSA2 *)
  eapply returns_bind with (P := fun _ => True).
  { destruct (Z.gtb_spec newIdx (-1)) as [Hn|Hn]; [|by apply returns_ret].
    assert (Hr : 0 <= newIdx < Z.of_nat (length spis1)).
    { subst newIdx. destruct nk; [|lia]. unfold spis1. rewrite length_app. simpl. lia. }
    eapply returns_bind; [by apply returns_index_Z|]. intros s _.
    eapply returns_bind; [apply returns_index_Z; lia|]. intros k _.
    apply returns_programSA_any. auto with returns. }
  intros _ _.
  (* +fSA2, +fSP2/-fSP1, -fSA1 *)
  eapply returns_bind with (P := fun _ => True).
  { destruct (Z.gtb_spec priIdx 0) as [Hp|Hp]; [|by apply returns_ret].
    eapply returns_bind; [apply returns_index_Z; lia|]. intros s _.
    eapply returns_bind; [apply returns_index_Z; lia|]. intros k _.
    eapply returns_bind; [apply returns_programSA; auto with returns|].
    intros r Hr. destruct (Hr eq_refl) as [fSA2 ->].
    eapply returns_bind; [apply returns_vxlanUDPPort|]. intros port _.
    eapply returns_bind; [apply returns_nl|]. intros err _.
    eapply returns_bind with (P := fun _ => True).
    { destruct err; [apply returns_log_warn|by apply returns_ret]. }
    intros _ _.
    eapply returns_bind; [apply returns_index_Z; lia|]. intros s0 _.
    apply returns_programSA_any. auto with returns. }
  intros _ _.
  (* swap *)
  eapply returns_bind
    with (P := fun x => x = if priIdx >? 0 then exchanged spis1 (Z.to_nat priIdx) else spis1).
  { destruct (Z.gtb_spec priIdx 0) as [Hp|Hp]; [|by apply returns_ret].
    eapply returns_bind; [apply returns_index_Z; lia|]. intros swp Hswp.
    eapply returns_bind; [apply returns_index_Z; lia|]. intros sp Hsp.
    apply returns_ret. unfold exchanged. change (Z.to_nat 0) with 0%nat in Hswp.
    by rewrite Hswp, Hsp. }
  intros ? ->.
  (* prune *)
  eapply returns_bind with (P := fun x => x = rotated spis1 priIdx delIdx);
    [|intros ? ->; by apply returns_ret].
  unfold rotated. cbv zeta.
  destruct (Z.eqb_spec delIdx (-1)) as [?|Hd]; cbn [negb]; [by apply returns_ret|].
  apply returns_remove_at.
  assert (Hl : length (if priIdx >? 0 then exchanged spis1 (Z.to_nat priIdx) else spis1)
               = length spis1).
  { destruct (priIdx >? 0); [apply exchanged_length|done]. }
  rewrite Hl. destruct (Z.eqb_spec delIdx 0) as [->|?]; [|lia].
  specialize (Hfirst eq_refl). lia.
Qed.

(** One peer of the loop, whether or not the sequence that comes back is
    empty. *)
Lemma updateKeys_peer_any lIP aIP ni pi di (e : Addr * encrNode) (d : driver K) res :
  secMap d !! e.1 = Some e.2 ->
  (res = [] -> node_spi e.2 = []) ->
  returns (updateNodeKey (AsSlice lIP) (AsSlice aIP) (AsSlice e.1)
             (node_spi e.2) (keys d) ni pi di) (fun x => x = res) ->
  exists m1 w1,
    updateKeys_peer lIP aIP ni pi di e d
    = Done (tt, mkDriver (keys d) m1 (bindAddress d) (advertiseAddress d) w1)
    /\ m1 !! e.1 = Some (mkEncrNode res (node_count e.2))
    /\ forall r, r <> e.1 -> m1 !! r = secMap d !! r.
Proof.
  intros He Hempty Hr. destruct res as [|s res].
  - destruct (Hr (host d)) as (x & w1 & E & ->). exists (secMap d), w1.
    unfold updateKeys_peer. unfold bind at 1. unfold get at 1.
    rewrite (bind_Done _ _ _ _ _ (liftW_Done _ _ _ _ E)).
    split; [done|]. split; [|done].
    rewrite He. destruct e.2 as [sp c]. cbn in *. by rewrite Hempty.
  - destruct (updateKeys_peer_Done lIP aIP ni pi di e d (s :: res)) as [w1 E];
      [done|done|].
    eexists _, w1. split; [exact E|].
    split; [apply lookup_insert_eq|]. intros r Hne. by apply lookup_insert_ne.
Qed.

Lemma updateKeys_loop_any lIP aIP ni pi di (f : Addr * encrNode -> list spi) l :
  NoDup l.*1 ->
  forall d : driver K,
  (forall e, e ∈ l ->
     secMap d !! e.1 = Some e.2
     /\ (f e = [] -> node_spi e.2 = [])
     /\ returns (updateNodeKey (AsSlice lIP) (AsSlice aIP) (AsSlice e.1)
                   (node_spi e.2) (keys d) ni pi di) (fun x => x = f e)) ->
  exists m' w',
    forM_ l (updateKeys_peer lIP aIP ni pi di) d
    = Done (tt, mkDriver (keys d) m' (bindAddress d) (advertiseAddress d) w')
    /\ (forall r, r ∉ l.*1 -> m' !! r = secMap d !! r)
    /\ (forall e, e ∈ l -> m' !! e.1 = Some (mkEncrNode (f e) (node_count e.2))).
Proof.
  induction l as [|e l IH]; intros Hnd d Hall.
  { exists (secMap d), (host d). cbn [forM_]. rewrite driver_eta.
    split; [done|]. split; [done|]. intros e He. by apply elem_of_nil in He. }
  cbn in Hnd. apply NoDup_cons in Hnd as [Hhd Hnd].
  destruct (Hall e (list_elem_of_here _ _)) as (He & Hempty & Hr).
  destruct (updateKeys_peer_any _ _ _ _ _ _ _ _ He Hempty Hr) as (m1 & w1 & E1 & H1 & Hrest).
  cbn [forM_]. rewrite (bind_Done _ _ _ _ _ E1).
  destruct (IH Hnd (mkDriver (keys d) m1 (bindAddress d) (advertiseAddress d) w1))
    as (m' & w' & E' & Hout & Hin).
  { intros e' He'. destruct (Hall e' (list_elem_of_further _ _ _ He')) as (H1' & H2' & H3').
    cbn [secMap keys]. split; [|done]. rewrite Hrest; [done|].
    intros Heq. apply Hhd. rewrite <- Heq. apply list_elem_of_fmap. by exists e'. }
  exists m', w'. split; [exact E'|]. cbn [secMap] in Hout. split.
  - intros r Hr'. rewrite Hout.
    + apply Hrest. intros ->. apply Hr'. cbn. constructor.
    + intros Hin'. apply Hr'. cbn. by constructor.
  - intros e' [->|He']%elem_of_cons; [|by apply Hin].
    by rewrite Hout.
Qed.

Lemma rotate_peers_any lIP aIP ni pi di (f : Addr * encrNode -> list spi)
    (d : driver K) :
  (forall r n, secMap d !! r = Some n ->
     (f (r, n) = [] -> node_spi n = [])
     /\ returns (updateNodeKey (AsSlice lIP) (AsSlice aIP) (AsSlice r)
                   (node_spi n) (keys d) ni pi di) (fun x => x = f (r, n))) ->
  exists m' w',
    forM_ (range (secMap d)) (updateKeys_peer lIP aIP ni pi di) d
    = Done (tt, mkDriver (keys d) m' (bindAddress d) (advertiseAddress d) w')
    /\ forall r, m' !! r
                 = (fun n => mkEncrNode (f (r, n)) (node_count n)) <$> secMap d !! r.
Proof.
  intros Hall.
  destruct (updateKeys_loop_any lIP aIP ni pi di f (range (secMap d))
              (range_NoDup _) d) as (m' & w' & E & Hout & Hin).
  { intros [r n] He. apply elem_of_range in He. destruct (Hall r n He). done. }
  exists m', w'. split; [exact E|].
  intros r. destruct (secMap d !! r) as [n|] eqn:Hr; cbn [fmap option_fmap option_map].
  - apply (Hin (r, n)). by apply elem_of_range.
  - rewrite Hout; [done|].
    intros Hin'. apply list_elem_of_fmap in Hin' as ([r' n] & -> & Hin').
    apply elem_of_range in Hin'. cbn in Hr. congruence.
Qed.

Lemma scan_range primary pruneKey ks :
  forall i p q,
  let r := updateKeys_scan primary pruneKey i ks p q in
  (r.1 = p \/ i <= r.1 < i + Z.of_nat (length ks))
  /\ (r.2 = q \/ i <= r.2 < i + Z.of_nat (length ks)).
Proof.
  induction ks as [|k ks IH]; intros i p q; cbn [updateKeys_scan]; [by auto|].
  cbv zeta.
  match goal with |- context [updateKeys_scan _ _ _ _ ?p' ?q'] =>
    destruct (IH (i + 1) p' q') as [H1 H2] end.
  cbn [length]. split.
  - destruct H1 as [H1|H1]; [|right; lia]. rewrite H1.
    destruct primary as [pk|]; [|by left].
    destruct (tag k =? tag pk); [right; lia|by left].
  - destruct H2 as [H2|H2]; [|right; lia]. rewrite H2.
    destruct pruneKey as [pk|]; [|by left].
    destruct (tag k =? tag pk); [right; lia|by left].
Qed.

Lemma index_Z_lookup {St A} (l : list A) (i : Z) (x : A) (s : St) :
  0 <= i -> l !! Z.to_nat i = Some x -> index l i s = Done (x, s).
Proof.
  intros Hi Hx. rewrite <- (Z2Nat.id i) at 1 by lia. by apply index_lookup.
Qed.

Lemma remove_at_Done {St A} (l : list A) (i : Z) (s : St) :
  0 <= i < Z.of_nat (length l) ->
  remove_at l i s = Done (delete (Z.to_nat i) l, s).
Proof.
  intros Hi. unfold remove_at.
  destruct (Z.ltb_spec i 0), (Z.leb_spec (Z.of_nat (length l)) i); try lia.
  cbn. by rewrite delete_take_drop.
Qed.

Lemma validation_None newKey primary pruneKey newIdx priIdx delIdx :
  validation newKey primary pruneKey newIdx priIdx delIdx = None ->
  priIdx = -1 \/ priIdx <> delIdx.
Proof.
  unfold validation. destruct (_ || _ || _); [done|].
  destruct (Z.eqb_spec priIdx (-1)) as [?|Hp]; [by left|]. cbn [negb andb].
  destruct (Z.eqb_spec priIdx delIdx); [done|by right].
Qed.

Lemma scan_prune_unique primary (k : key) ks :
  forall (n : nat) i p q,
  ks !! n = Some k ->
  (forall m k', ks !! m = Some k' -> tag k' = tag k -> m = n) ->
  (updateKeys_scan primary (Some k) i ks p q).2 = i + Z.of_nat n.
Proof.
  induction ks as [|k1 ks IH]; intros n i p q Hn Hu; [done|].
  cbn [updateKeys_scan]. destruct n as [|n].
  - injection Hn as ->. rewrite Z.eqb_refl.
    rewrite scan_prune_absent; [lia|].
    intros k' Hk' E. apply list_elem_of_lookup in Hk' as [m Hm].
    specialize (Hu (S m) k' Hm E). discriminate.
  - destruct (Z.eqb_spec (tag k1) (tag k)) as [E|_].
    { specialize (Hu 0%nat k1 eq_refl E). discriminate. }
    rewrite (IH n); [lia|done|].
    intros m k' Hm E. specialize (Hu (S m) k' Hm E). lia.
Qed.

(** A call that passes the checks and does not prune the first key without
    naming a primary, in a state where every peer's sequence mirrors the
    Key Store. *)
Lemma updateKeys_rotated (d : driver K) (newKey primary pruneKey : option key) :
  mirrors d ->
  let ks1 := keys_with (keys d) newKey in
  let idx := updateKeys_scan primary pruneKey 0 ks1 (-1) (-1) in
  validation newKey primary pruneKey (newIdx_of (keys d) newKey) idx.1 idx.2 = None ->
  (idx.2 = 0 -> idx.1 <> -1) ->
  exists m' w',
    updateKeys newKey primary pruneKey d
    = Done (None, mkDriver (rotated ks1 idx.1 idx.2) m' (bindAddress d)
                    (advertiseAddress d) w')
    /\ forall r, m' !! r
         = (fun n => mkEncrNode
                       (spiPair (AsSlice (advertiseAddress d)) (AsSlice r)
                          <$> rotated ks1 idx.1 idx.2)
                       (node_count n)) <$> secMap d !! r.
Proof.
  intros Hmir ks1 idx Hval Hfirst.
  pose proof (scan_range primary pruneKey ks1 0 (-1) (-1)) as Hrange.
  cbv zeta in Hrange. fold idx in Hrange. destruct Hrange as [Hp Hq].
  pose proof (validation_None _ _ _ _ _ _ Hval) as Hdist.
  rewrite updateKeys_eq. cbv zeta. cbn [with_keys keys]. fold ks1 idx. rewrite Hval.
  set (d1 := with_keys d ks1).
  destruct (rotate_peers_any (bindAddress d) (advertiseAddress d)
              (newIdx_of (keys d) newKey) idx.1 idx.2
              (fun e => rotated (spiPair (AsSlice (advertiseAddress d)) (AsSlice e.1)
                                   <$> ks1) idx.1 idx.2) d1)
    as (m' & w' & Eloop & Hm').
  { intros r n Hn. cbn [fst snd d1 with_keys secMap keys] in *.
    pose proof (Hmir r n Hn) as Hspi. split.
    - intros Hnil. apply (f_equal length) in Hnil. rewrite rotated_fmap in Hnil.
      rewrite length_fmap in Hnil. cbn [length] in Hnil. rewrite Hspi.
      assert (keys d = []) as ->; [|done].
      unfold rotated in Hnil. cbv zeta in Hnil.
      assert (Hl : length (if idx.1 >? 0 then exchanged ks1 (Z.to_nat idx.1) else ks1)
                   = length ks1).
      { destruct (idx.1 >? 0); [apply exchanged_length|done]. }
      destruct (Z.eqb_spec idx.2 (-1)) as [Hd|Hd].
      + rewrite Hl in Hnil. unfold ks1, keys_with in Hnil.
        destruct newKey; [rewrite length_app in Hnil; simpl in Hnil; lia|].
        by destruct (keys d).
      + exfalso. rewrite length_delete in Hnil.
        * rewrite Hl in Hnil. destruct (Z.eqb_spec idx.2 0) as [Hz|Hz]; [|lia].
          specialize (Hfirst Hz). lia.
        * apply lookup_lt_is_Some_2. rewrite Hl.
          destruct (Z.eqb_spec idx.2 0) as [Hz|Hz]; [|lia].
          specialize (Hfirst Hz). lia.
    - rewrite Hspi.
      pose proof (updateNodeKey_rotated (AsSlice (bindAddress d))
                    (AsSlice (advertiseAddress d)) (AsSlice r)
                    (spiPair (AsSlice (advertiseAddress d)) (AsSlice r) <$> keys d)
                    ks1 newKey (newIdx_of (keys d) newKey) idx.1 idx.2) as Hrot.
      cbv zeta in Hrot.
      assert (Hs1 : (spiPair (AsSlice (advertiseAddress d)) (AsSlice r) <$> keys d)
                    ++ match newKey with
                       | Some k => [spiPair (AsSlice (advertiseAddress d)) (AsSlice r) k]
                       | None => []
                       end
                    = spiPair (AsSlice (advertiseAddress d)) (AsSlice r) <$> ks1).
      { unfold ks1, keys_with. destruct newKey; [by rewrite fmap_app|by rewrite app_nil_r]. }
      rewrite Hs1 in Hrot. rewrite !length_fmap in Hrot. apply Hrot; try done.
      + unfold newIdx_of. destruct newKey; [|done]. rewrite length_app. simpl. lia.
      + intros k ->. unfold ks1, keys_with. rewrite lookup_app_r by done.
        by rewrite Nat.sub_diag. }
  exists m', w'. split.
  2:{ intros r. rewrite Hm'. cbn [d1 with_keys secMap fst].
      destruct (secMap d !! r); cbn; [|done]. by rewrite rotated_fmap. }
  unfold rotate. unfold bind at 1. unfold get at 1.
  rewrite (bind_Done _ _ _ _ _ Eloop).
  cbn [d1 with_keys keys bindAddress advertiseAddress].
  set (ks2 := if idx.1 >? 0 then exchanged ks1 (Z.to_nat idx.1) else ks1).
  assert (Eswap : (if negb (idx.1 =? -1)
                   then d0 <- get ;;
                        kp <- index (keys d0) idx.1 ;;
                        k0 <- index (keys d0) 0 ;;
                        set_keys (<[Z.to_nat idx.1 := k0]> (<[0%nat := kp]> (keys d0)))
                   else ret tt)
                    (mkDriver ks1 m' (bindAddress d) (advertiseAddress d) w')
                  = Done (tt, mkDriver ks2 m' (bindAddress d) (advertiseAddress d) w')).
  { unfold ks2. destruct (Z.eqb_spec idx.1 (-1)) as [Hn|Hn]; cbn [negb].
    { rewrite Hn. done. }
    destruct Hp as [?|Hp]; [done|].
    destruct (lookup_lt_is_Some_2 ks1 (Z.to_nat idx.1)) as [kp Hkp]; [clear -Hp; lia|].
    destruct (lookup_lt_is_Some_2 ks1 0%nat) as [k0 Hk0]; [clear -Hp; lia|].
    unfold bind at 1. unfold get at 1. cbn [keys].
    assert (H0p : 0 <= idx.1) by (clear -Hp; lia).
    rewrite (bind_Done _ _ _ _ _ (index_Z_lookup _ _ _ _ H0p Hkp)).
    rewrite (bind_Done _ _ _ _ _ (index_Z_lookup _ 0 _ _ (Z.le_refl 0) Hk0)).
    unfold set_keys. cbn. do 3 f_equal.
    destruct (Z.gtb_spec idx.1 0) as [Hpos|Hpos].
    - unfold exchanged. by rewrite Hk0, Hkp.
    - assert (idx.1 = 0) as Hz by (clear -Hp Hpos; lia).
      rewrite Hz in Hkp |- *. change (Z.to_nat 0) with 0%nat in *.
      rewrite Hk0 in Hkp. injection Hkp as <-.
      rewrite (list_insert_id ks1 0 k0 Hk0). by rewrite (list_insert_id ks1 0 k0 Hk0). }
  rewrite (bind_Done _ _ _ _ _ Eswap).
  assert (Hl2 : length ks2 = length ks1).
  { unfold ks2. destruct (idx.1 >? 0); [apply exchanged_length|done]. }
  assert (Eprune : (if negb (idx.2 =? -1)
                    then let delIdx := if idx.2 =? 0 then idx.1 else idx.2 in
                         d0 <- get ;;
                         ks <- remove_at (keys d0) delIdx ;;
                         set_keys ks
                    else ret tt)
                     (mkDriver ks2 m' (bindAddress d) (advertiseAddress d) w')
                   = Done (tt, mkDriver (rotated ks1 idx.1 idx.2) m' (bindAddress d)
                                 (advertiseAddress d) w')).
  { unfold rotated. cbv zeta. fold ks2.
    destruct (Z.eqb_spec idx.2 (-1)) as [Hn|Hn]; cbn [negb]; [done|].
    destruct Hq as [?|Hq]; [done|].
    unfold bind at 1. unfold get at 1. cbn [keys].
    assert (Hr : 0 <= (if idx.2 =? 0 then idx.1 else idx.2) < Z.of_nat (length ks2)).
    { rewrite Hl2. destruct (Z.eqb_spec idx.2 0) as [Hz|Hz]; [|clear -Hq Hz; lia].
      specialize (Hfirst Hz). clear -Hp Hfirst. lia. }
    by rewrite (bind_Done _ _ _ _ _ (remove_at_Done _ _ _ Hr)). }
  by rewrite (bind_Done _ _ _ _ _ Eprune).
Qed.

Lemma updateNodeKey_idle lIP aIP rIP idxs curKeys (w : world K) :
  updateNodeKey lIP aIP rIP idxs curKeys (-1) (-1) (-1) w = Done (idxs, w).
Proof. reflexivity. Qed.

Lemma updateKeys_peer_idle lIP aIP (e : Addr * encrNode) (d : driver K) :
  secMap d !! e.1 = Some e.2 ->
  updateKeys_peer lIP aIP (-1) (-1) (-1) e d = Done (tt, d).
Proof.
  intros He. unfold updateKeys_peer. unfold bind at 1. unfold get at 1.
  rewrite (bind_Done _ _ _ _ _
             (liftW_Done _ _ _ _ (updateNodeKey_idle _ _ _ _ _ (host d)))).
  destruct e as [r [spis c]]. cbn [fst snd node_spi node_count] in *.
  destruct spis as [|s spis]; cbn [ret set_secMap keys secMap bindAddress
                                    advertiseAddress host].
  - rewrite driver_eta. done.
  - unfold set_secMap. cbn [keys secMap bindAddress advertiseAddress host].
    rewrite insert_id by done. by rewrite driver_eta.
Qed.

Lemma updateKeys_loop_idle lIP aIP l (d : driver K) :
  (forall e, e ∈ l -> secMap d !! e.1 = Some e.2) ->
  forM_ l (updateKeys_peer lIP aIP (-1) (-1) (-1)) d = Done (tt, d).
Proof.
  induction l as [|e l IH]; intros Hl; cbn [forM_]; [done|].
  rewrite (bind_Done _ _ _ _ _ (updateKeys_peer_idle _ _ _ _ (Hl e (list_elem_of_here _ _)))).
  apply IH. intros e' He'. apply Hl. by constructor.
Qed.

End RotationFacts2.

Section PivotFacts.
Context {K : Type} {NL : Netlink K}.

Lemma programmed_state_Forall (P : nlreq -> Prop) (add : bool) sa found evs :
  P (ReqStateGet sa) -> P (ReqStateAdd sa) -> P (ReqStateDel sa) ->
  programmed add ESRCH (ReqStateGet sa)
    (if add then ReqStateAdd sa else ReqStateDel sa) found evs ->
  Forall (fun ev : nlevent => P ev.1) evs.
Proof.
  intros Hg Ha Hd. unfold programmed.
  destruct (change_wanted _ _ _); [intros [e ->]|intros ->];
    repeat constructor; try done. by destruct add.
Qed.

(** [programSA] for the reverse direction only. *)
Lemma programSA_reverse_Done lIP rIP s k add (w w' : world K) x :
  programSA lIP rIP s k reverse add w = Done (x, w') ->
  exists evs, trace w' = trace w ++ evs
              /\ Forall (fun ev : nlevent => on_reverse_state lIP rIP ev.1) evs.
Proof.
  intros E.
  destruct (requests_programSA _ _ _ _ _ _ _ _ _ E)
    as (evs & T & evr & evf & fr & ff & -> & Hr & Hf & _).
  change (Z.land reverse reverse >? 0) with true in Hr.
  change (Z.land reverse forward >? 0) with false in Hf.
  destruct Hr as (_ & f & _ & Hp). destruct Hf as (_ & _ & ->).
  exists (evr ++ []). split; [done|]. rewrite app_nil_r.
  by eapply programmed_state_Forall; [| | |exact Hp].
Qed.

(** [programSA] for the forward direction only. *)
Lemma programSA_forward_Done lIP rIP s k add (w w' : world K) x :
  programSA lIP rIP s k forward add w = Done (x, w') ->
  let sa := sa_built lIP rIP (spi_forward s) k add in
  x.1.1 = Some sa
  /\ exists found evs,
       trace w' = trace w ++ evs
       /\ programmed add ESRCH (ReqStateGet sa)
            (if add then ReqStateAdd sa else ReqStateDel sa) found evs.
Proof.
  intros E sa.
  destruct (requests_programSA _ _ _ _ _ _ _ _ _ E)
    as (evs & T & evr & evf & fr & ff & -> & Hr & Hf & _).
  change (Z.land forward reverse >? 0) with false in Hr.
  change (Z.land forward forward >? 0) with true in Hf.
  destruct Hf as (Hx & f & _ & Hp). destruct Hr as (_ & _ & ->).
  split; [done|]. by exists f, evf.
Qed.

(** The requests of [updateNodeKey] before the pivot concern reverse states
    only. *)
Lemma updateNodeKey_prefix lIP rIP (spis : list spi) (curKeys : list key)
    newIdx delIdx (w w' : world K) :
  ((if negb (delIdx =? -1)
    then s <- index spis delIdx ;;
         programSA lIP rIP s None reverse false ;;; ret tt
    else ret tt) ;;;
   (if newIdx >? -1
    then s <- index spis newIdx ;;
         k <- index curKeys newIdx ;;
         programSA lIP rIP s (Some k) reverse true ;;; ret tt
    else ret tt)) w = Done (tt, w') ->
  exists pre, trace w' = trace w ++ pre
              /\ Forall (fun ev : nlevent => on_reverse_state lIP rIP ev.1) pre.
Proof.
  intros E. apply bind_inv in E as ([] & w1 & E1 & E2).
  assert (H1 : exists evs, trace w1 = trace w ++ evs
                 /\ Forall (fun ev : nlevent => on_reverse_state lIP rIP ev.1) evs).
  { destruct (negb _).
    - apply bind_inv in E1 as (s & ? & (-> & _)%index_inv & E1).
      apply bind_inv in E1 as (x & w0 & E1 & [= <-]).
      by eapply programSA_reverse_Done.
    - injection E1 as <-. exists []. by rewrite app_nil_r. }
  assert (H2 : exists evs, trace w' = trace w1 ++ evs
                 /\ Forall (fun ev : nlevent => on_reverse_state lIP rIP ev.1) evs).
  { destruct (newIdx >? -1).
    - apply bind_inv in E2 as (s & ? & (-> & _)%index_inv & E2).
      apply bind_inv in E2 as (k & ? & (-> & _)%index_inv & E2).
      apply bind_inv in E2 as (x & w0 & E2 & [= <-]).
      by eapply programSA_reverse_Done.
    - injection E2 as <-. exists []. by rewrite app_nil_r. }
  destruct H1 as (ev1 & T1 & F1), H2 as (ev2 & T2 & F2).
  exists (ev1 ++ ev2). split; [by rewrite T2, T1, app_assoc|by apply Forall_app].
Qed.

End PivotFacts.

Section RotationClaims2.
Context {K : Type} {NL : Netlink K} {MR : MapRange}.

(** X18.  The loop of [updateKeys] that looks the primary and the pruned key
    up finds, for each of the two, the last key of the Key Store that
    carries the tag of the argument, and leaves the index at -1 exactly
    when the argument is nil or no key carries its tag. *)
Theorem updateKeys_scan_last_match (primary pruneKey : option key) (ks : list key) :
  let idx := updateKeys_scan primary pruneKey 0 ks (-1) (-1) in
  let found (arg : option key) (r : Z) :=
    match arg with
    | None => r = -1
    | Some k =>
        (r = -1 /\ Forall (fun k' => tag k' <> tag k) ks)
        \/ (exists (n : nat) k', r = Z.of_nat n /\ ks !! n = Some k' /\ tag k' = tag k
              /\ forall (m : nat) k'', ks !! m = Some k'' -> tag k'' = tag k -> (m <= n)%nat)
    end in
  found primary idx.1 /\ found pruneKey idx.2.
Proof.
  intros idx found. subst idx. split.
  - destruct primary as [k|]; cbn; [|apply scan_no_primary].
    destruct (scan_primary_last k pruneKey ks 0 (-1) (-1)) as [H|(n & k' & H & ?)];
      [by left|right]. exists n, k'. split; [lia|done].
  - rewrite scan_swap. destruct pruneKey as [k|]; cbn; [|apply scan_no_primary].
    destruct (scan_primary_last k primary ks 0 (-1) (-1)) as [H|(n & k' & H & ?)];
      [by left|right]. exists n, k'. split; [lia|done].
Qed.

(** X19.  [updateKeys] returns an error exactly when, in the Key Store with
    the new key appended, no key carries the tag of the primary argument, or
    none carries the tag of the prune argument, or the two arguments carry
    the same tag.  (The new key itself is never what is missing, and it may
    be the one promoted or pruned.) *)
Theorem updateKeys_rejects_iff (d : driver K) (newKey primary pruneKey : option key) :
  let ks1 := keys_with (keys d) newKey in
  (exists e d', updateKeys newKey primary pruneKey d = Done (Some e, d'))
  <-> (exists k, primary = Some k /\ Forall (fun k' => tag k' <> tag k) ks1)
      \/ (exists k, pruneKey = Some k /\ Forall (fun k' => tag k' <> tag k) ks1)
      \/ (exists k k', primary = Some k /\ pruneKey = Some k' /\ tag k = tag k').
Proof.
  intros ks1.
  assert (Hnew : bool_decide (is_Some newKey) && (newIdx_of (keys d) newKey =? -1) = false).
  { unfold newIdx_of. destruct newKey as [nk|]; [|done].
    destruct (Z.eqb_spec (-1 + Z.of_nat (length (keys d ++ [nk]))) (-1)) as [Hl|_];
      [|by rewrite andb_false_r].
    rewrite length_app in Hl. simpl in Hl. lia. }
  set (idx := updateKeys_scan primary pruneKey 0 ks1 (-1) (-1)).
  assert (Hrun : (exists e d', updateKeys newKey primary pruneKey d = Done (Some e, d'))
                 <-> is_Some (validation newKey primary pruneKey
                                (newIdx_of (keys d) newKey) idx.1 idx.2)).
  { rewrite updateKeys_eq. cbv zeta. cbn [with_keys keys]. fold ks1 idx.
    destruct (validation _ _ _ _ _ _) as [e|] eqn:Hv.
    - split; [by eexists|]. intros _. by eexists _, _.
    - split; [|by intros [? ?]]. intros (e & d' & E).
      pose proof (rotate_no_error (bindAddress d) (advertiseAddress d)
                    (newIdx_of (keys d) newKey) idx.1 idx.2 (with_keys d ks1)) as Hno.
      rewrite E in Hno. done. }
  rewrite Hrun. clear Hrun. unfold validation. rewrite Hnew. cbn [orb].
  split.
  - intros Hsome.
    destruct primary as [k|].
    2:{ (* no primary: only the prune tag can be missing *)
        assert (Hp : idx.1 = -1) by apply scan_no_primary.
        rewrite Hp in Hsome. cbn in Hsome.
        destruct pruneKey as [k'|].
        2:{ assert (Hq : idx.2 = -1) by apply scan_no_prune.
            rewrite Hq in Hsome. cbn in Hsome. by destruct Hsome. }
        right. left. exists k'. split; [done|].
        unfold idx in Hsome. rewrite scan_swap in Hsome.
        destruct (scan_primary_last k' None ks1 0 (-1) (-1))
          as [[Hr Hno]|(n & k'' & Hr & _)]; [done|].
        rewrite Hr in Hsome.
        destruct (Z.eqb_spec (0 + Z.of_nat n) (-1)) as [?|_]; [lia|].
        cbn in Hsome. by destruct Hsome. }
    destruct (scan_primary_last k pruneKey ks1 0 (-1) (-1))
      as [[Hr Hno]|(n & k1 & Hr & Hn & Ht & _)]; [left; by exists k|].
    fold idx in Hr. right.
    destruct pruneKey as [k'|].
    2:{ exfalso. assert (Hq : idx.2 = -1) by apply scan_no_prune.
        rewrite Hq, Hr in Hsome.
        destruct (Z.eqb_spec (0 + Z.of_nat n) (-1)) as [?|_]; [lia|].
        cbn in Hsome. by destruct Hsome. }
    pose proof (scan_swap (Some k) (Some k') ks1 0 (-1) (-1)) as Hsw. fold idx in Hsw.
    destruct (scan_primary_last k' (Some k) ks1 0 (-1) (-1))
      as [[Hr' Hno]|(n' & k2 & Hr' & Hn' & Ht' & _)]; [left; by exists k'|].
    rewrite <- Hsw in Hr'. right. exists k, k'. split; [done|]. split; [done|].
    rewrite Hr, Hr' in Hsome.
    destruct (Z.eqb_spec (0 + Z.of_nat n) (-1)) as [?|_]; [lia|].
    destruct (Z.eqb_spec (0 + Z.of_nat n') (-1)) as [?|_]; [lia|].
    cbn in Hsome.
    destruct (Z.eqb_spec (0 + Z.of_nat n) (0 + Z.of_nat n')) as [Heq|_];
      [|by destruct Hsome].
    assert (n = n') as -> by lia. congruence.
  - intros [(k & -> & Hno)|[(k & -> & Hno)|(k & k' & -> & -> & Ht)]].
    + assert (Hp : idx.1 = -1).
      { apply scan_primary_absent. by apply Forall_forall. }
      rewrite Hp. by cbn.
    + assert (Hq : idx.2 = -1).
      { apply scan_prune_absent. by apply Forall_forall. }
      rewrite Hq. cbn. rewrite orb_true_r. done.
    + pose proof (scan_same_tag k k' ks1 Ht 0 (-1)) as Hsame. fold idx in Hsame.
      rewrite <- Hsame. cbn.
      destruct (Z.eqb_spec idx.1 (-1)); cbn; [done|].
      rewrite Z.eqb_refl. done.
Qed.

(** X20.  [updateKeys] without any argument changes nothing: in every state
    it returns nil, and the Key Store, the Peer Security Map, the kernel,
    the log and the history are as before. *)
Theorem updateKeys_no_arguments (d : driver K) :
  updateKeys None None None d = Done (None, d).
Proof.
  rewrite updateKeys_eq. cbv zeta. cbn [keys_with newIdx_of].
  replace (with_keys d (keys d)) with d by (by destruct d).
  rewrite scan_no_primary, scan_no_prune. cbn [validation].
  change (validation None None None (-1) (-1) (-1)) with (@None error).
  unfold rotate. unfold bind at 1. unfold get at 1.
  assert (Hl : forall e, e ∈ range (secMap d) -> secMap d !! e.1 = Some e.2).
  { intros [r n] He. by apply elem_of_range in He. }
  by rewrite (bind_Done _ _ _ _ _ (updateKeys_loop_idle _ _ _ _ Hl)).
Qed.

(** X21.  In a state where every peer's sequence mirrors the Key Store, a
    call of [updateKeys] that passes the two checks, and does not prune the
    first key without naming a primary, succeeds whatever the kernel
    answers.  It leaves the Key Store rotated: the new key appended, the
    primary exchanged with the first key, the pruned key gone.  Every peer's
    sequence mirrors the new Key Store, and every count is as before. *)
Theorem updateKeys_rotates (d : driver K) (newKey primary pruneKey : option key) :
  mirrors d ->
  let ks1 := keys_with (keys d) newKey in
  let idx := updateKeys_scan primary pruneKey 0 ks1 (-1) (-1) in
  validation newKey primary pruneKey (newIdx_of (keys d) newKey) idx.1 idx.2 = None ->
  (idx.2 = 0 -> idx.1 <> -1) ->
  exists d',
    updateKeys newKey primary pruneKey d = Done (None, d')
    /\ keys d' = rotated ks1 idx.1 idx.2
    /\ mirrors d'
    /\ forall r, node_count <$> secMap d' !! r = node_count <$> secMap d !! r.
Proof.
  intros Hmir ks1 idx Hval Hfirst.
  destruct (updateKeys_rotated d newKey primary pruneKey Hmir Hval Hfirst)
    as (m' & w' & E & Hm').
  eexists. split; [exact E|]. split; [done|]. split.
  - intros r n'. cbn [secMap keys advertiseAddress]. rewrite Hm'.
    destruct (secMap d !! r); [|done]. by intros [= <-].
  - intros r. cbn [secMap]. rewrite Hm'. by destruct (secMap d !! r).
Qed.

(** X22.  The rotation of the steady state.  With the primary key [k0]
    first, its successor [k1] second, no tag carried twice and every peer's
    sequence mirroring the Key Store, the call that adds [new], makes [k1]
    primary and prunes [k0] succeeds whatever the kernel answers; the Key
    Store is then [k1], the keys behind it and [new], each peer's sequence
    mirrors it, and the counts are as before. *)
Theorem updateKeys_full_rotation (d : driver K) (k0 k1 new : key) (rest : list key) :
  keys d = k0 :: k1 :: rest ->
  NoDup (tag <$> (keys d ++ [new])) ->
  mirrors d ->
  exists d',
    updateKeys (Some new) (Some k1) (Some k0) d = Done (None, d')
    /\ keys d' = k1 :: rest ++ [new]
    /\ mirrors d'
    /\ forall r, node_count <$> secMap d' !! r = node_count <$> secMap d !! r.
Proof.
  intros Hk Hnd Hmir.
  assert (Huniq : forall (i : nat) (k : key), (keys d ++ [new]) !! i = Some k ->
            forall j k', (keys d ++ [new]) !! j = Some k' -> tag k' = tag k -> j = i).
  { intros i k Hi j k' Hj Ht.
    apply (NoDup_lookup _ j i (tag k) Hnd); rewrite list_lookup_fmap.
    - by rewrite Hj, <- Ht.
    - by rewrite Hi. }
  assert (H1 : (keys d ++ [new]) !! 1%nat = Some k1) by (by rewrite Hk).
  assert (H0 : (keys d ++ [new]) !! 0%nat = Some k0) by (by rewrite Hk).
  pose proof (scan_primary_unique k1 (Some k0) (keys d ++ [new]) 1 0 (-1) (-1) H1
                (Huniq _ _ H1)) as Ep.
  pose proof (scan_prune_unique (Some k1) k0 (keys d ++ [new]) 0 0 (-1) (-1) H0
                (Huniq _ _ H0)) as Eq.
  destruct (updateKeys_rotated d (Some new) (Some k1) (Some k0) Hmir)
    as (m' & w' & E & Hm').
  { cbn [keys_with newIdx_of]. rewrite Ep, Eq. unfold validation.
    destruct (Z.eqb_spec (-1 + Z.of_nat (length (keys d ++ [new]))) (-1)) as [Hl|_];
      [rewrite length_app in Hl; simpl in Hl; lia|].
    done. }
  { cbn [keys_with]. rewrite Ep. lia. }
  cbn [keys_with] in E, Hm'. rewrite Ep, Eq in E, Hm'.
  assert (Hrot : rotated (keys d ++ [new]) (0 + Z.of_nat 1) (0 + Z.of_nat 0)
                 = k1 :: rest ++ [new]) by (by rewrite Hk).
  rewrite Hrot in E, Hm'.
  eexists. split; [exact E|]. split; [done|]. split.
  - intros r n'. cbn [secMap keys advertiseAddress]. rewrite Hm'.
    destruct (secMap d !! r); [|done]. by intros [= <-].
  - intros r. cbn [secMap]. rewrite Hm'. by destruct (secMap d !! r).
Qed.

End RotationClaims2.

Section PivotClaims.
Context {K : Type} {NL : Netlink K}.

(** X23.  Whenever [updateNodeKey] returns, its requests come in the order
    of the comment above it.  First come requests about states of the flow
    from the peer only (the reverse state of the pruned key, then that of
    the new key).  If a key behind the first is promoted, there follow: the
    lookup of its forward state and, if wanted, its addition; the update of
    the outbound policy to that state; and only then the lookup of the
    forward state of the key that was first and, if wanted, its removal.
    If no key is promoted nothing follows: no forward state and no policy is
    touched. *)
Theorem updateNodeKey_pivot_order lIP aIP rIP (idxs : list spi) (curKeys : list key)
    (newIdx priIdx delIdx : Z) (w w' : world K) (res : list spi) :
  updateNodeKey lIP aIP rIP idxs curKeys newIdx priIdx delIdx w = Done (res, w') ->
  exists pre,
    Forall (fun ev : nlevent => on_reverse_state lIP rIP ev.1) pre
    /\ if priIdx >? 0
       then exists (s0 s : spi) (k : key) port fnew fold_ evnew e evold,
              curKeys !! Z.to_nat priIdx = Some k
              /\ with_new_spi aIP rIP idxs curKeys newIdx !! Z.to_nat priIdx = Some s
              /\ with_new_spi aIP rIP idxs curKeys newIdx !! 0%nat = Some s0
              /\ let fSA2 := sa_built lIP rIP (spi_forward s) (Some k) true in
                 let fSA1 := sa_built lIP rIP (spi_forward s0) None false in
                 trace w' = trace w ++ pre ++ evnew
                            ++ [(ReqPolicyUpdate (outboundPolicy port fSA2), e)] ++ evold
                 /\ programmed true ESRCH (ReqStateGet fSA2) (ReqStateAdd fSA2) fnew evnew
                 /\ programmed false ESRCH (ReqStateGet fSA1) (ReqStateDel fSA1) fold_ evold
       else trace w' = trace w ++ pre.
Proof.
  intros E. unfold updateNodeKey in E.
  apply bind_inv in E as (spis & w1 & E1 & E).
  assert (H1 : w1 = w /\ spis = with_new_spi aIP rIP idxs curKeys newIdx).
  { unfold with_new_spi. destruct (negb _).
    - apply bind_inv in E1 as (k & ? & (-> & _ & Hk)%index_inv & E1).
      injection E1 as <- <-. by rewrite Hk.
    - injection E1 as <- <-. by rewrite app_nil_r. }
  destruct H1 as [-> Hspis]. rewrite <- Hspis. clear E1.
  apply bind_inv in E as ([] & w2 & E2 & E).
  apply bind_inv in E as ([] & w3 & E3 & E).
  assert (Hpre : ((if negb (delIdx =? -1)
                   then s <- index spis delIdx ;;
                        programSA lIP rIP s None reverse false ;;; ret tt
                   else ret tt) ;;;
                  (if newIdx >? -1
                   then s <- index spis newIdx ;;
                        k <- index curKeys newIdx ;;
                        programSA lIP rIP s (Some k) reverse true ;;; ret tt
                   else ret tt)) w = Done (tt, w3)).
  { by rewrite (bind_Done _ _ _ _ _ E2). }
  apply updateNodeKey_prefix in Hpre as (pre & Tpre & Fpre). clear E2 E3.
  apply bind_inv in E as ([] & w4 & E4 & E).
  assert (Hrest : w' = w4).
  { apply bind_inv in E as (spis2 & w5 & E5 & E).
    apply bind_inv in E as (spis3 & w6 & E6 & E). injection E as _ <-.
    assert (w5 = w4) as ->.
    { destruct (priIdx >? 0); [|by injection E5 as _ <-].
      apply bind_inv in E5 as (swp & ? & (-> & _)%index_inv & E5).
      apply bind_inv in E5 as (sp & ? & (-> & _)%index_inv & E5).
      by injection E5 as _ <-. }
    destruct (negb (delIdx =? -1)); [|by injection E6 as _ <-].
    by apply remove_at_inv in E6 as (-> & _). }
  subst w'. clear E.
  exists pre. split; [done|].
  destruct (priIdx >? 0) eqn:Hpri; [|injection E4 as <-; done].
  apply bind_inv in E4 as (s & ? & (-> & _ & Hs)%index_inv & E4).
  apply bind_inv in E4 as (k & ? & (-> & _ & Hk)%index_inv & E4).
  apply bind_inv in E4 as (x & w5 & Ex & E4).
  apply programSA_forward_Done in Ex as (Hx & fnew & evnew & Tnew & Hnew).
  rewrite Hx in E4.
  apply bind_inv in E4 as (port & ? & [= <- <-] & E4).
  apply bind_inv in E4 as (err & w6 & Eupd & E4).
  destruct (requests_nl _ _ _ _ Eupd) as (? & Tupd & ->). cbn [id] in Tupd.
  apply bind_inv in E4 as ([] & w7 & Elog & E4).
  assert (Tlog : trace w7 = trace w6) by (destruct err; by injection Elog as <-).
  apply bind_inv in E4 as (s0 & ? & (-> & _ & Hs0)%index_inv & E4).
  apply bind_inv in E4 as (y & w8 & Ey & [= <-]).
  apply programSA_forward_Done in Ey as (_ & fold_ & evold & Told & Hold).
  exists s0, s, k, (VXLANUDPPort (kern w5)), fnew, fold_, evnew, err, evold.
  split; [done|]. split; [done|]. split; [done|]. cbv zeta.
  split; [|done].
  rewrite Told, Tlog, Tupd, Tnew, Tpre. by rewrite <- !app_assoc.
Qed.

End PivotClaims.

(** ** The iptables rules *)

Section FirewallClaims.
Context {F Err : Type} {FW : Firewall F Err}.

(** X24.  Fail closed: when the address family of the transport cannot be
    determined, [programMangle] and [programInput] return the error of
    [isIPv6Transport] as it is, and no rule is programmed. *)
Theorem program_rules_fail_closed (vni : Z) (add : bool) (w : fwworld F) (v6 : bool)
    (err : Err) :
  isIPv6Transport (fw w) = (v6, Some err) ->
  programMangle vni add w = Done (Some (FamilyError err), w)
  /\ programInput vni add w = Done (Some (FamilyError err), w).
Proof.
  intros H. unfold programMangle, programInput, bind, get, transportIPTable.
  rewrite H. done.
Qed.

(** X25.  When the address family is known, [programMangle] and
    [programInput] each make exactly one call of [ProgramRule], on the
    tables of that family.  [programMangle] appends to (or deletes from)
    chain OUTPUT of table mangle the rule that marks the VXLAN datagrams of
    the network with 13681891, the mark in decimal.  [programInput] inserts
    at the top of (or deletes from) chain INPUT of table filter the rule
    that drops those datagrams when no IPsec policy was applied to them.
    Removal names the very rule that was installed.  The result is nil
    exactly when the call succeeded; its error comes back wrapped. *)
Theorem program_rules_one_call (vni : Z) (add : bool) (w : fwworld F) (v6 : bool) :
  isIPv6Transport (fw w) = (v6, None) ->
  let port := fw_VXLANUDPPort (fw w) in
  let version := if v6 then iptables.IPv6 else iptables.IPv4 in
  let mangle := mkRulecall version iptables.Mangle "OUTPUT"
                  (if add then iptables.Append else iptables.Delete)
                  (matchVXLAN port vni ++ ["-j"; "MARK"; "--set-mark"; "13681891"]) in
  let input := mkRulecall version iptables.Filter "INPUT"
                 (if add then iptables.Insert else iptables.Delete)
                 (["-m"; "policy"; "--dir"; "in"; "--pol"; "none"]
                  ++ matchVXLAN port vni ++ ["-j"; "DROP"]) in
  exists em fm ei fi,
    ProgramRule (iptables.GetIptable version) iptables.Mangle "OUTPUT"
      (call_action mangle) (call_rule mangle) (fw w) = (em, fm)
    /\ programMangle vni add w
       = Done (CouldNot (if add then "install" else "remove") "mangle rule" <$> em,
               mkFwworld fm (fw_calls w ++ [mangle]))
    /\ ProgramRule (iptables.GetIptable version) iptables.Filter "INPUT"
         (call_action input) (call_rule input) (fw w) = (ei, fi)
    /\ programInput vni add w
       = Done (CouldNot (if add then "add" else "remove") "input drop rule" <$> ei,
               mkFwworld fi (fw_calls w ++ [input])).
Proof.
  intros H port version mangle input.
  destruct (ProgramRule (iptables.GetIptable version) iptables.Mangle "OUTPUT"
              (call_action mangle) (call_rule mangle) (fw w)) as [em fm] eqn:Em.
  destruct (ProgramRule (iptables.GetIptable version) iptables.Filter "INPUT"
              (call_action input) (call_rule input) (fw w)) as [ei fi] eqn:Ei.
  exists em, fm, ei, fi. split; [done|]. split; [|split; [done|]].
  - unfold programMangle, bind, get, transportIPTable, programRule, ret.
    rewrite H. cbn [fst snd]. fold version port.
    change (FormatUint_10 20 mark "") with "13681891".
    cbn [call_action call_rule mangle] in Em. rewrite Em.
    by destruct em.
  - unfold programInput, bind, get, transportIPTable, programRule, ret.
    rewrite H. cbn [fst snd]. fold version port.
    replace (if negb add then iptables.Delete else iptables.Insert)
      with (if add then iptables.Insert else iptables.Delete) by (by destruct add).
    cbn [call_action call_rule input] in Ei. rewrite <- app_assoc. rewrite Ei.
    by destruct ei.
Qed.

End FirewallClaims.

(** ** The mock client *)

Section MockClaims.
Context {Request Err St ReadCloser : Type}.
Variable NoBody : ReadCloser.

(** X26.  The transport [transportEnsureBody] makes of [f] calls [f] once,
    on the same request, and passes on its error, its panic and what it did
    to its state.  The response is nil exactly when that of [f] is; a
    response that is not nil has a body, the one [f] gave it or else
    [http.NoBody], and the status code and the header [f] gave it.  Wrapping
    twice is wrapping once. *)
Theorem transportEnsureBody_body
    (f : Request -> ST St (option (Response ReadCloser) * option Err))
    (req : Request) (s : St) :
  match f req s with
  | Done ((resp, err), s') =>
      exists resp',
        transportEnsureBody NoBody f req s = Done ((resp', err), s')
        /\ (resp' = None <-> resp = None)
        /\ (forall rs', resp' = Some rs' -> is_Some (Body rs'))
        /\ (forall rs, resp = Some rs ->
              exists rs', resp' = Some rs'
                 /\ StatusCode rs' = StatusCode rs /\ Header rs' = Header rs
                 /\ Body rs' = Some (default NoBody (Body rs)))
  | Panic p => transportEnsureBody NoBody f req s = Panic p
  end
  /\ transportEnsureBody NoBody (transportEnsureBody NoBody f) req s
     = transportEnsureBody NoBody f req s.
Proof.
  unfold transportEnsureBody, bind, ret.
  destruct (f req s) as [[[resp err] s']|p]; [|done]. cbn [fst snd].
  destruct resp as [[code [b|] h]|]; cbn [Body StatusCode Header].
  - split; [|done]. eexists. split; [done|]. split; [done|]. split.
    + intros rs' [= <-]. by eexists.
    + intros rs [= <-]. by eexists.
  - split; [|done]. eexists. split; [done|]. split; [done|]. split.
    + intros rs' [= <-]. by eexists.
    + intros rs [= <-]. by eexists.
  - split; [|done]. eexists. split; [done|]. split; [done|]. split; by intros ? [=].
Qed.

Variable NopCloser_Reader : list byte -> ReadCloser.
Variable Marshal_ErrorResponse : string -> list byte * option Err.

(** X27.  Through the client [newMockClient] makes of them, the two error
    mocks answer every request without touching any state.
    [plainTextErrorMock] always answers, with the status code, the bytes of
    the message as body (a body even for the empty message) and no header.
    [errorMock] answers with the status code, the marshalled error as body
    and the single header Content-Type: application/json, unless marshalling
    fails: then there is no response, and the error of [json.Marshal] is
    returned. *)
Theorem mock_clients_answer (statusCode : Z) (message : string) (req : Request) (s : St) :
  let plain := RoundTrip (Transport (newMockClient NoBody
                            (plainTextErrorMock (Request:=Request) (Err:=Err) (St:=St)
                               NopCloser_Reader statusCode message))) in
  let json := RoundTrip (Transport (newMockClient NoBody
                           (errorMock (Request:=Request) (St:=St) NopCloser_Reader
                              Marshal_ErrorResponse statusCode message))) in
  (exists rs,
     plain req s = Done ((Some rs, None), s)
     /\ StatusCode rs = statusCode
     /\ Body rs = Some (NopCloser_Reader (bytes_of_string message))
     /\ Header rs = ∅)
  /\ match (Marshal_ErrorResponse message).2 with
     | Some err => json req s = Done ((None, Some err), s)
     | None =>
         exists rs,
           json req s = Done ((Some rs, None), s)
           /\ StatusCode rs = statusCode
           /\ Body rs = Some (NopCloser_Reader (Marshal_ErrorResponse message).1)
           /\ Header rs !! "Content-Type" = Some ["application/json"]
           /\ dom (Header rs) = {["Content-Type"]}
     end.
Proof.
  intros plain json. split.
  - subst plain. unfold RoundTrip. cbn [Transport newMockClient].
    unfold transportEnsureBody, plainTextErrorMock, bind, ret. cbn.
    eexists. split; [reflexivity|]. done.
  - subst json. unfold RoundTrip. cbn [Transport newMockClient].
    unfold transportEnsureBody, errorMock, bind, ret.
    destruct (Marshal_ErrorResponse message).2 as [err|]; [done|].
    eexists. split; [reflexivity|]. cbn. repeat split; try done.
Qed.

End MockClaims.

(** * The further properties on the reference kernel and firewall *)

(** X5 on a link of 70 bytes: -6 is rounded to -4. *)
Lemma maxMTU_small_link :
  (- 2 ^ 61 <= 50 <= 2 ^ 61 /\ - 2 ^ 61 <= mtu (mkNetwork 70 true) <= 2 ^ 61)
  /\ maxMTU 50 (mkNetwork 70 true)
     = (if secure (mkNetwork 70 true)
        then 4 * Z.quot ((if mtu (mkNetwork 70 true) =? 0 then 1500
                          else mtu (mkNetwork 70 true)) - 50 - 26) 4
        else (if mtu (mkNetwork 70 true) =? 0 then 1500
              else mtu (mkNetwork 70 true)) - 50)
  /\ (secure (mkNetwork 70 true) = true ->
      Z.abs (maxMTU 50 (mkNetwork 70 true))
      <= Z.abs ((if mtu (mkNetwork 70 true) =? 0 then 1500
                 else mtu (mkNetwork 70 true)) - 50 - 26)
      < Z.abs (maxMTU 50 (mkNetwork 70 true)) + 4).
Proof.
  split; [cbn; lia|]. apply (maxMTU_rounds_toward_zero 50 (mkNetwork 70 true)); cbn; lia.
Defined.

(** X7: the removal of the two states of [key1] for the peer [node2]. *)
Lemma programSA_requests_node2 :
  key_given None false
  /\ exists fSAp rSAp lastErr w' evr evf fr ff,
    programSA (AsSlice node1) (AsSlice node2)
      (spiPair (AsSlice node1) (AsSlice node2) key1) None bidir false
      (host (sim_joined [] [key1])) = Done (fSAp, rSAp, lastErr, w')
    /\ trace w' = trace (host (sim_joined [] [key1])) ++ evr ++ evf
    /\ sa_requests false (Z.land bidir reverse >? 0) (AsSlice node2) (AsSlice node1)
         (spi_reverse (spiPair (AsSlice node1) (AsSlice node2) key1)) None rSAp fr evr
    /\ sa_requests false (Z.land bidir forward >? 0) (AsSlice node1) (AsSlice node2)
         (spi_forward (spiPair (AsSlice node1) (AsSlice node2) key1)) None fSAp ff evf
    /\ lastErr = match ff ≫= lookup_error ESRCH ErrSAExistence with
                 | Some e => Some e
                 | None => fr ≫= lookup_error ESRCH ErrSAExistence
                 end.
Proof.
  split; [intros H; discriminate H|].
  apply (programSA_requests (AsSlice node1) (AsSlice node2)
           (spiPair (AsSlice node1) (AsSlice node2) key1) None bidir false
           (host (sim_joined [] [key1]))).
  intros H; discriminate H.
Defined.

(** X14 at a node with two keys: the peer [node2] is removed. *)
Lemma removeEncryption_last_user_node2 :
  let d := sim_joined [] [key1; key2] in
  let n := secMap_get (secMap d) node2 in
  exists w',
    removeEncryption node2 d
    = Done (None, mkDriver (keys d) (delete node2 (secMap d)) (bindAddress d)
                    (advertiseAddress d) w')
    /\ omap lookup_target (trace w')
       = omap lookup_target (trace (host d))
         ++ teardown_targets (AsSlice (bindAddress d)) (AsSlice node2) (node_spi n)
    /\ (node_spi n = spiPair (AsSlice (advertiseAddress d)) (AsSlice node2) <$> keys d ->
        teardown_targets (AsSlice (bindAddress d)) (AsSlice node2) (node_spi n)
        = setup_targets (AsSlice (bindAddress d)) (AsSlice (advertiseAddress d))
            (AsSlice node2) (keys d)).
Proof.
  apply (removeEncryption_last_user (sim_joined [] [key1; key2]) node2
           (secMap_get (secMap (sim_joined [] [key1; key2])) node2)).
  - vm_compute. reflexivity.
  - vm_compute. reflexivity.
Defined.

(** X16 at the same node: the second key is promoted. *)
Lemma updateKeys_keeps_counts_joined_node :
  let d := sim_joined [] [key1; key2] in
  exists e d',
    updateKeys (MR:=MapRange_default) None (Some key2) None d = Done (e, d')
    /\ (forall r, node_count <$> secMap d' !! r = node_count <$> secMap d !! r)
    /\ dom (secMap d') = dom (secMap d)
    /\ bindAddress d' = bindAddress d
    /\ advertiseAddress d' = advertiseAddress d.
Proof.
  intros d.
  let r := eval vm_compute in
    (updateKeys (MR:=MapRange_default) None (Some key2) None d) in
  match r with
  | Done (?e, ?d') =>
      exists e, d'; split;
      [ vm_compute; reflexivity
      | apply (updateKeys_keeps_counts (MR:=MapRange_default) None (Some key2) None
                 d d' e);
        vm_compute; reflexivity ]
  end.
Defined.

(** X17 at a node with one key and the peer [node2]. *)
Lemma refcount_invariant_joined_node :
  let d := sim_joined [] [key1] in
  (forall r, is_Some (secMap d !! r) ->
     exists d', removeEncryption r d = Done (None, d') /\ well_counted d')
  /\ (forall r, keys d <> [] -> node_count (secMap_get (secMap d) r) < 2 ^ 63 - 1 ->
        exists d', setupEncryption r d = Done (None, d') /\ well_counted d')
  /\ (forall newKey primary pruneKey e d',
        updateKeys (MR:=MapRange_default) newKey primary pruneKey d = Done (e, d') ->
        well_counted d')
  /\ (forall ks, exists d', setKeys ks d = Done (None, d') /\ well_counted d').
Proof.
  apply (refcount_invariant (MR:=MapRange_default) (sim_joined [] [key1])).
  unfold well_counted. apply map_Forall_to_list.
  match goal with |- Forall _ ?l =>
    let l' := eval vm_compute in l in change l with l' end.
  constructor; [vm_compute; split; [discriminate|reflexivity] | constructor].
Defined.

(** X28 at a node with one key and no peer. *)
Lemma stray_removal_leaks_node2 :
  let d := sim_keyed [] [key1] in
  exists d1 d2 d3,
    removeEncryption node2 d = Done (None, d1)
    /\ setupEncryption node2 d1 = Done (None, d2)
    /\ secMap d2 !! node2
       = Some (mkEncrNode (spiPair (AsSlice (advertiseAddress d)) (AsSlice node2)
                             <$> keys d) 0)
    /\ removeEncryption node2 d2 = Done (None, d3)
    /\ secMap d3 !! node2
       = Some (mkEncrNode (spiPair (AsSlice (advertiseAddress d)) (AsSlice node2)
                             <$> keys d) (-1))
    /\ host d3 = host d2.
Proof.
  apply (stray_removal_leaks (sim_keyed [] [key1]) node2).
  - vm_compute. reflexivity.
  - vm_compute. discriminate.
Defined.

(** X21 at a node with two keys and the peer [node2]: a third key is added,
    the second promoted, the first pruned. *)
Lemma updateKeys_rotates_joined_node :
  let d := sim_joined [] [key1; key2] in
  let ks1 := keys_with (keys d) (Some key3) in
  let idx := updateKeys_scan (Some key2) (Some key1) 0 ks1 (-1) (-1) in
  exists d',
    updateKeys (MR:=MapRange_default) (Some key3) (Some key2) (Some key1) d
    = Done (None, d')
    /\ keys d' = rotated ks1 idx.1 idx.2
    /\ mirrors d'
    /\ forall r, node_count <$> secMap d' !! r = node_count <$> secMap d !! r.
Proof.
  apply (updateKeys_rotates (MR:=MapRange_default) (sim_joined [] [key1; key2])
           (Some key3) (Some key2) (Some key1)).
  - unfold mirrors. apply map_Forall_to_list.
    match goal with |- Forall _ ?l =>
      let l' := eval vm_compute in l in change l with l' end.
    constructor; [vm_compute; reflexivity | constructor].
  - vm_compute. reflexivity.
  - vm_compute. intros _ H. discriminate H.
Defined.

(** X22 at the same node. *)
Lemma updateKeys_full_rotation_joined_node :
  exists d',
    updateKeys (MR:=MapRange_default) (Some key3) (Some key2) (Some key1)
      (sim_joined [] [key1; key2]) = Done (None, d')
    /\ keys d' = key2 :: [] ++ [key3]
    /\ mirrors d'
    /\ forall r, node_count <$> secMap d' !! r
                 = node_count <$> secMap (sim_joined [] [key1; key2]) !! r.
Proof.
  apply (updateKeys_full_rotation (MR:=MapRange_default) (sim_joined [] [key1; key2])
           key1 key2 key3 []).
  - vm_compute. reflexivity.
  - match goal with |- NoDup ?l =>
      let l' := eval vm_compute in l in change (NoDup l') end.
    apply (bool_decide_unpack _). vm_compute. exact I.
  - unfold mirrors. apply map_Forall_to_list.
    match goal with |- Forall _ ?l =>
      let l' := eval vm_compute in l in change l with l' end.
    constructor; [vm_compute; reflexivity | constructor].
Defined.

(** X23: the promotion of [key2] for the peer [node2]. *)
Lemma updateNodeKey_pivot_order_node2 :
  let s1 := spiPair (AsSlice node1) (AsSlice node2) key1 in
  let s2 := spiPair (AsSlice node1) (AsSlice node2) key2 in
  let w := host (sim_joined [] [key1; key2]) in
  exists res w',
    updateNodeKey (AsSlice node1) (AsSlice node1) (AsSlice node2) [s1; s2]
      [key1; key2] (-1) 1 (-1) w = Done (res, w')
    /\ exists pre,
      Forall (fun ev : nlevent =>
                on_reverse_state (AsSlice node1) (AsSlice node2) ev.1) pre
      /\ if 1 >? 0
         then exists (s0 s : spi) (k : key) port fnew fold_ evnew e evold,
                [key1; key2] !! Z.to_nat 1 = Some k
                /\ with_new_spi (AsSlice node1) (AsSlice node2) [s1; s2]
                     [key1; key2] (-1) !! Z.to_nat 1 = Some s
                /\ with_new_spi (AsSlice node1) (AsSlice node2) [s1; s2]
                     [key1; key2] (-1) !! 0%nat = Some s0
                /\ let fSA2 := sa_built (AsSlice node1) (AsSlice node2)
                                 (spi_forward s) (Some k) true in
                   let fSA1 := sa_built (AsSlice node1) (AsSlice node2)
                                 (spi_forward s0) None false in
                   trace w' = trace w ++ pre ++ evnew
                              ++ [(ReqPolicyUpdate (outboundPolicy port fSA2), e)]
                              ++ evold
                   /\ programmed true ESRCH (ReqStateGet fSA2) (ReqStateAdd fSA2)
                        fnew evnew
                   /\ programmed false ESRCH (ReqStateGet fSA1) (ReqStateDel fSA1)
                        fold_ evold
         else trace w' = trace w ++ pre.
Proof.
  intros s1 s2 w.
  let r := eval vm_compute in
    (updateNodeKey (AsSlice node1) (AsSlice node1) (AsSlice node2) [s1; s2]
       [key1; key2] (-1) 1 (-1) w) in
  match r with
  | Done (?res, ?w') =>
      exists res, w'; split;
      [ vm_compute; reflexivity
      | apply (updateNodeKey_pivot_order (AsSlice node1) (AsSlice node1)
                 (AsSlice node2) [s1; s2] [key1; key2] (-1) 1 (-1) w w' res);
        vm_compute; reflexivity ]
  end.
Defined.

(** X24 on a firewall whose address family is not known. *)
Lemma program_rules_fail_closed_unknown_family :
  let w := mkFwworld (mkSimFw None []) [] in
  isIPv6Transport (fw w)
  = (false, Some "the local data-plane address is not currently known")
  /\ programMangle 42 true w
     = Done (Some (FamilyError "the local data-plane address is not currently known"), w)
  /\ programInput 42 true w
     = Done (Some (FamilyError "the local data-plane address is not currently known"), w).
Proof.
  split; [reflexivity|].
  apply (program_rules_fail_closed 42 true (mkFwworld (mkSimFw None []) []) false
           "the local data-plane address is not currently known").
  reflexivity.
Defined.

(** X25 on an IPv4 firewall: the two rules of network 42 are installed. *)
Lemma program_rules_one_call_ipv4 :
  let w := mkFwworld (mkSimFw (Some false) []) [] in
  isIPv6Transport (fw w) = (false, None)
  /\ (let port := fw_VXLANUDPPort (fw w) in
      let version := if false then iptables.IPv6 else iptables.IPv4 in
      let mangle := mkRulecall version iptables.Mangle "OUTPUT"
                      (if true then iptables.Append else iptables.Delete)
                      (matchVXLAN port 42 ++ ["-j"; "MARK"; "--set-mark"; "13681891"]) in
      let input := mkRulecall version iptables.Filter "INPUT"
                     (if true then iptables.Insert else iptables.Delete)
                     (["-m"; "policy"; "--dir"; "in"; "--pol"; "none"]
                      ++ matchVXLAN port 42 ++ ["-j"; "DROP"]) in
      exists em fm ei fi,
        ProgramRule (iptables.GetIptable version) iptables.Mangle "OUTPUT"
          (call_action mangle) (call_rule mangle) (fw w) = (em, fm)
        /\ programMangle 42 true w
           = Done (CouldNot (if true then "install" else "remove") "mangle rule" <$> em,
                   mkFwworld fm (fw_calls w ++ [mangle]))
        /\ ProgramRule (iptables.GetIptable version) iptables.Filter "INPUT"
             (call_action input) (call_rule input) (fw w) = (ei, fi)
        /\ programInput 42 true w
           = Done (CouldNot (if true then "add" else "remove") "input drop rule" <$> ei,
                   mkFwworld fi (fw_calls w ++ [input]))).
Proof.
  split; [reflexivity|].
  apply (program_rules_one_call 42 true (mkFwworld (mkSimFw (Some false) []) []) false).
  reflexivity.
Defined.
